(** * Filter interpreter and abbreviation rewriter of the WASM decompressor
      prototype: a shallow embedding and its verified properties.

    The development follows the C++ sources:
    - [intcomp/AbbrevAssignWriter.cpp]  (module [AbbrevAssign]),
    - [interp/IntReader.cpp]            (modules [IntRead], [IntReadFlow]),
    - [intcomp/IntCompress.h]           (modules [IntCompress],
                                         [CollectionFlags]),
    - [interp/Interpreter.cpp]          (modules [Interp], [InterpEval]),
    - [stream/StringWriter.cpp]         (module [StringWrite]),
    - [sexp/FlattenAst.cpp]             (module [FlattenAst]),
    - [intcomp/AbbreviationCodegen.cpp] (module [AbbrevCodegen]).

    Machine integers are mathematical integers with the wrap-around written
    out; [IntType] is [uint64_t]. *)

From Stdlib Require Import ZArith Lia Bool Sorted.
From stdpp Require Import base option list strings gmap.

Local Open Scope Z_scope.

(** ** Machine integers *)

(** [IntType] is [uint64_t]; values are kept in [0, 2^64) by [toIntType]. *)
Abbreviation IntType := Z.

Definition wrap (w : Z) (v : Z) : Z := v mod 2 ^ w.

(** Two's complement reading of the low [w] bits. *)
Definition swrap (w : Z) (v : Z) : Z :=
  let u := wrap w v in if decide (u < 2 ^ (w - 1)) then u else u - 2 ^ w.

Definition toIntType (v : Z) : IntType := wrap 64 v.

(** The seven wire encodings. *)
Inductive IntTypeFormat :=
| Uint8 | Uint32 | Uint64 | Varint32 | Varint64 | Varuint32 | Varuint64.

Global Instance IntTypeFormat_eq_dec : EqDecision IntTypeFormat.
Proof. solve_decision. Defined.

(** ** Outcomes of a run

    [Done] is a normal return, [Aborted] a failed [assert] or a fatal error,
    [Diverging] a loop that was still running when its fuel ran out. *)

Inductive Outcome (A : Type) :=
| Done (a : A)
| Aborted
| Diverging.
Arguments Done {A} a.
Arguments Aborted {A}.
Arguments Diverging {A}.

Definition obind {A B} (m : Outcome A) (k : A -> Outcome B) : Outcome B :=
  match m with
  | Done a => k a
  | Aborted => Aborted
  | Diverging => Diverging
  end.

Notation "'do' x <~ m ;; k" := (obind m (fun x => k))
  (at level 10, x name, m at level 99, k at level 200).
Notation "'do' ' p <~ m ;; k" := (obind m (fun x => let 'p := x in k))
  (at level 10, p pattern, m at level 99, k at level 200).

Definition assert (b : bool) : Outcome unit := if b then Done tt else Aborted.

Module AbbrevAssign.

Local Set Warnings "-register-all".

(** *** The count trie *)

(** Modelled from the spec: the [IntCountNode] class and its successor map
    ([intcomp/IntCountNode.h] is not among the sources). A node carries its
    value, its path length, an optional abbreviation index and its successors
    keyed by integer value. *)
Inductive IntCountNode := IntNode {
  Value : IntType;
  PathLength : nat;
  AbbrevIndex : option IntType;
  Successors : gmap Z IntCountNode
}.

(** Modelled from the spec: the distinguished singleton children of the root
    (default single / multiple, block enter / exit); only their optional
    abbreviation index is used by the rewriter. *)
Record CountNode := SingletonNode { SingletonIndex : option IntType }.

Record RootCountNode := RootNode {
  RootSuccessors : gmap Z IntCountNode;
  getDefaultSingle : CountNode;
  getDefaultMultiple : CountNode;
  getBlockEnter : CountNode;
  getBlockExit : CountNode
}.

(** The part of the [CountNode] interface the rewriter calls. *)
Class Abbreviated (A : Type) := abbrevIndexOf : A -> option IntType.
Global Instance IntCountNode_abbreviated : Abbreviated IntCountNode := AbbrevIndex.
Global Instance CountNode_abbreviated : Abbreviated CountNode := SingletonIndex.

Definition hasAbbrevIndex {A} `{Abbreviated A} (n : A) : bool :=
  bool_decide (is_Some (abbrevIndexOf n)).

(** Reading the index of a node that has none is an error of the
    "abbreviation missing" kind. *)
Definition getAbbrevIndex {A} `{Abbreviated A} (n : A) : Outcome IntType :=
  match abbrevIndexOf n with
  | Some i => Done i
  | None => Aborted
  end.

Definition setSuccessors (n : IntCountNode) (kids : gmap Z IntCountNode) : IntCountNode :=
  IntNode (Value n) (PathLength n) (AbbrevIndex n) kids.

Definition setRootSuccessors (r : RootCountNode) (kids : gmap Z IntCountNode) : RootCountNode :=
  RootNode kids (getDefaultSingle r) (getDefaultMultiple r) (getBlockEnter r) (getBlockExit r).

(** Modelled from the spec: [lookup(parent, v)] returns the child for integer
    [v], creating it if absent. A created node has no abbreviation index, no
    successors, and a path one longer than its parent's ([parentLen] is 0
    for the root). *)
Definition freshNode (v : IntType) (parentLen : nat) : IntCountNode :=
  IntNode v (S parentLen) None ∅.

Definition lookup (succs : gmap Z IntCountNode) (parentLen : nat) (v : IntType)
  : IntCountNode :=
  default (freshNode v parentLen) (succs !! v).

(** The loop of [writeFromBuffer]:
    [for (Value : Buffer) { Nd = Nd ? lookup(Nd, Value) : lookup(Root, Value);
                            if (Nd->hasAbbrevIndex()) Max = Nd; }].
    [succs], [parentLen] are the successors and path length of the current
    [Nd] (of [Root] at the start). The nodes that [lookup] creates are stored
    in the trie, so the walk also returns the updated successors. *)
Fixpoint walk (succs : gmap Z IntCountNode) (parentLen : nat)
    (vals : list IntType) (Max : option IntCountNode)
  : option IntCountNode * gmap Z IntCountNode :=
  match vals with
  | [] => (Max, succs)
  | v :: vs =>
      let Nd := lookup succs parentLen v in
      let Max' := if hasAbbrevIndex Nd then Some Nd else Max in
      let '(M, kids) := walk (Successors Nd) (PathLength Nd) vs Max' in
      (M, <[v := setSuccessors Nd kids]> succs)
  end.

(** *** The writer *)

Inductive PredefinedSymbol :=
| Unknown | File | Block_enter | Block_exit
| Block_enter_writeonly | Block_exit_writeonly | Align.

(** A callback node: its kid 0, when that is a symbol node. *)
Record CallbackNode := Callback { CallbackSymbol : option PredefinedSymbol }.

(** The underlying integer writer is modelled by the calls it receives; it
    accepts every call. *)
Inductive WriterCall :=
| WriteCall (f : IntTypeFormat) (v : Z)
| ActionCall (a : CallbackNode)
| FreezeEofCall.

(** Conversion of an [IntType] to the parameter type of the underlying
    writer's method for a format ([uint8_t], [uint32_t], [uint64_t],
    [int32_t], [int64_t]). *)
Definition convert (f : IntTypeFormat) (v : IntType) : Z :=
  match f with
  | Uint8 => wrap 8 v
  | Uint32 => wrap 32 v
  | Uint64 => wrap 64 v
  | Varint32 => swrap 32 v
  | Varint64 => swrap 64 v
  | Varuint32 => wrap 32 v
  | Varuint64 => wrap 64 v
  end.

Record AbbrevAssignWriter := mkWriter {
  Root : RootCountNode;
  Writer : list WriterCall;          (* calls so far, oldest first *)
  Buffer : list IntType;             (* ring buffer, front first *)
  Capacity : nat;                    (* capacity of the ring buffer *)
  DefaultValues : list IntType;
  AbbrevFormat : IntTypeFormat;
  DefaultFormat : IntTypeFormat;
  LoopSizeFormat : IntTypeFormat
}.

(** Updates of single fields. *)
Definition setRoot (w : AbbrevAssignWriter) r :=
  mkWriter r (Writer w) (Buffer w) (Capacity w) (DefaultValues w)
           (AbbrevFormat w) (DefaultFormat w) (LoopSizeFormat w).
Definition setWriter (w : AbbrevAssignWriter) c :=
  mkWriter (Root w) c (Buffer w) (Capacity w) (DefaultValues w)
           (AbbrevFormat w) (DefaultFormat w) (LoopSizeFormat w).
Definition setBuffer (w : AbbrevAssignWriter) b :=
  mkWriter (Root w) (Writer w) b (Capacity w) (DefaultValues w)
           (AbbrevFormat w) (DefaultFormat w) (LoopSizeFormat w).
Definition setDefaultValues (w : AbbrevAssignWriter) d :=
  mkWriter (Root w) (Writer w) (Buffer w) (Capacity w) d
           (AbbrevFormat w) (DefaultFormat w) (LoopSizeFormat w).

Definition full (w : AbbrevAssignWriter) : bool :=
  bool_decide (length (Buffer w) = Capacity w).

Definition empty (w : AbbrevAssignWriter) : bool :=
  bool_decide (Buffer w = []).

(** [writeValue(Value, Format)]: dispatch on the format to the underlying
    writer. *)
Definition writeValueFormat (v : IntType) (f : IntTypeFormat)
    (w : AbbrevAssignWriter) : AbbrevAssignWriter :=
  setWriter w (Writer w ++ [WriteCall f (convert f v)]).

Definition writeValues (vs : list IntType) (f : IntTypeFormat)
    (w : AbbrevAssignWriter) : AbbrevAssignWriter :=
  foldl (fun w v => writeValueFormat v f w) w vs.

Definition flushDefaultValues (w : AbbrevAssignWriter) : Outcome AbbrevAssignWriter :=
  match DefaultValues w with
  | [] => Done w
  | [v] =>
      do i <~ getAbbrevIndex (getDefaultSingle (Root w)) ;;
      let w := writeValueFormat i (AbbrevFormat w) w in
      let w := writeValueFormat v (DefaultFormat w) w in
      Done (setDefaultValues w [])
  | vs =>
      do i <~ getAbbrevIndex (getDefaultMultiple (Root w)) ;;
      let w := writeValueFormat i (AbbrevFormat w) w in
      let w := writeValueFormat (toIntType (Z.of_nat (length vs))) (LoopSizeFormat w) w in
      let w := writeValues vs (DefaultFormat w) w in
      Done (setDefaultValues w [])
  end.

Definition forwardAbbrevValue (v : IntType) (w : AbbrevAssignWriter)
  : Outcome AbbrevAssignWriter :=
  do w <~ flushDefaultValues w ;;
  Done (writeValueFormat v (AbbrevFormat w) w).

Definition forwardOtherValue (v : IntType) (w : AbbrevAssignWriter) : AbbrevAssignWriter :=
  setDefaultValues w (DefaultValues w ++ [v]).

Fixpoint popFront (Size : nat) (b : list IntType) : list IntType :=
  match Size with
  | O => b
  | S k => match b with
           | [] => []
           | _ :: b' => popFront k b'
           end
  end.

Definition popValuesFromBuffer (Size : nat) (w : AbbrevAssignWriter) : AbbrevAssignWriter :=
  setBuffer w (popFront Size (Buffer w)).

Definition writeFromBuffer (w : AbbrevAssignWriter) : Outcome AbbrevAssignWriter :=
  match Buffer w with
  | [] => Done w
  | v0 :: _ =>
      let '(Max, kids) := walk (RootSuccessors (Root w)) 0 (Buffer w) None in
      let w := setRoot w (setRootSuccessors (Root w) kids) in
      match Max with
      | None => Done (popValuesFromBuffer 1 (forwardOtherValue v0 w))
      | Some Max =>
          do i <~ getAbbrevIndex Max ;;
          do w <~ forwardAbbrevValue i w ;;
          Done (popValuesFromBuffer (PathLength Max) w)
      end
  end.

(** [while (!Buffer.empty()) writeFromBuffer();] with the number of
    iterations bounded by [fuel]. *)
Fixpoint writeUntilBufferEmpty (fuel : nat) (w : AbbrevAssignWriter)
  : Outcome AbbrevAssignWriter :=
  if empty w then Done w
  else match fuel with
       | O => Diverging
       | S fuel =>
           do w <~ writeFromBuffer w ;;
           writeUntilBufferEmpty fuel w
       end.

Definition bufferValue (v : IntType) (w : AbbrevAssignWriter) : Outcome AbbrevAssignWriter :=
  do _ <~ assert (negb (full w)) ;;
  let w := setBuffer w (Buffer w ++ [v]) in
  if negb (full w) then Done w else writeFromBuffer w.

(** The public write methods; each argument is first converted to the
    method's parameter type and from there to [IntType]. *)
Definition writeUint8 (v : Z) w := do w <~ bufferValue (toIntType (wrap 8 v)) w ;; Done (true, w).
Definition writeUint32 (v : Z) w := do w <~ bufferValue (toIntType (wrap 32 v)) w ;; Done (true, w).
Definition writeUint64 (v : Z) w := do w <~ bufferValue (toIntType (wrap 64 v)) w ;; Done (true, w).
Definition writeVarint32 (v : Z) w := do w <~ bufferValue (toIntType (swrap 32 v)) w ;; Done (true, w).
Definition writeVarint64 (v : Z) w := do w <~ bufferValue (toIntType (swrap 64 v)) w ;; Done (true, w).
Definition writeVaruint32 (v : Z) w := do w <~ bufferValue (toIntType (wrap 32 v)) w ;; Done (true, w).
Definition writeVaruint64 (v : Z) w := do w <~ bufferValue (toIntType (wrap 64 v)) w ;; Done (true, w).
Definition writeValue (v : Z) w := do w <~ bufferValue (toIntType v) w ;; Done (true, w).

Definition writeFreezeEof (fuel : nat) (w : AbbrevAssignWriter)
  : Outcome (bool * AbbrevAssignWriter) :=
  do w <~ writeUntilBufferEmpty fuel w ;;
  do w <~ flushDefaultValues w ;;
  Done (true, setWriter w (Writer w ++ [FreezeEofCall])).

Definition writeAction (fuel : nat) (Action : CallbackNode) (w : AbbrevAssignWriter)
  : Outcome (bool * AbbrevAssignWriter) :=
  match CallbackSymbol Action with
  | None => Done (false, w)
  | Some Block_enter =>
      do w <~ writeUntilBufferEmpty fuel w ;;
      do w <~ flushDefaultValues w ;;
      do _ <~ assert (hasAbbrevIndex (getBlockEnter (Root w))) ;;
      do i <~ getAbbrevIndex (getBlockEnter (Root w)) ;;
      do w <~ forwardAbbrevValue i w ;;
      Done (true, w)
  | Some Block_exit =>
      do w <~ writeUntilBufferEmpty fuel w ;;
      do w <~ flushDefaultValues w ;;
      do _ <~ assert (hasAbbrevIndex (getBlockExit (Root w))) ;;
      do i <~ getAbbrevIndex (getBlockExit (Root w)) ;;
      do w <~ forwardAbbrevValue i w ;;
      Done (true, w)
  | Some _ => Done (true, setWriter w (Writer w ++ [ActionCall Action]))
  end.

(** *** Paths of the trie *)

(** The node at the end of the path [p] from the root (or from a node whose
    successors are [succs]); no node is created. The empty path names no
    integer node. *)
Fixpoint findPath (succs : gmap Z IntCountNode) (p : list IntType)
  : option IntCountNode :=
  match p with
  | [] => None
  | v :: p' =>
      match succs !! v with
      | None => None
      | Some n => match p' with
                  | [] => Some n
                  | _ => findPath (Successors n) p'
                  end
      end
  end.

(** The abbreviation index assigned to the path [p], if any. *)
Definition abbrevAt (succs : gmap Z IntCountNode) (p : list IntType) : option IntType :=
  findPath succs p ≫= AbbrevIndex.

(** Path lengths are consistent: the node at the end of a path of [k]
    integers below a node of path length [d] has path length [d + k]. *)
Definition wfTrie (d : nat) (succs : gmap Z IntCountNode) : Prop :=
  ∀ p n, findPath succs p = Some n → PathLength n = (d + length p)%nat.

(** The deepest node with an abbreviation index on the path through
    [vals], described without reference to the loop. *)
Fixpoint deepest (succs : gmap Z IntCountNode) (vals : list IntType)
  : option IntCountNode :=
  match vals with
  | [] => None
  | v :: vs =>
      match succs !! v with
      | None => None
      | Some n =>
          match deepest (Successors n) vs with
          | Some m => Some m
          | None => if hasAbbrevIndex n then Some n else None
          end
      end
  end.

(** *** Emitted groups *)

(** What the rewriter emits, read as groups: an abbreviation index standing
    for a trie path, a single default value, or a run of default values.
    Each group carries the abbreviation index it starts with. *)
Inductive Group :=
| AbbrevGroup (idx : IntType) (path : list IntType)
| DefaultSingleGroup (idx : IntType) (v : IntType)
| DefaultMultipleGroup (idx : IntType) (vs : list IntType).

(** The values a group stands for. *)
Definition groupValues (g : Group) : list IntType :=
  match g with
  | AbbrevGroup _ path => path
  | DefaultSingleGroup _ v => [v]
  | DefaultMultipleGroup _ vs => vs
  end.

(** The calls on the underlying writer that make up a group. *)
Definition groupCalls (w : AbbrevAssignWriter) (g : Group) : list WriterCall :=
  let AF := AbbrevFormat w in
  let DF := DefaultFormat w in
  let LF := LoopSizeFormat w in
  match g with
  | AbbrevGroup idx _ => [WriteCall AF (convert AF idx)]
  | DefaultSingleGroup idx v =>
      [WriteCall AF (convert AF idx); WriteCall DF (convert DF v)]
  | DefaultMultipleGroup idx vs =>
      WriteCall AF (convert AF idx)
        :: WriteCall LF (convert LF (toIntType (Z.of_nat (length vs))))
        :: map (λ v, WriteCall DF (convert DF v)) vs
  end.

(** A group is well formed for a root when its index is the one the root
    assigns to what the group stands for. *)
Definition groupOk (r : RootCountNode) (g : Group) : Prop :=
  match g with
  | AbbrevGroup idx path => abbrevAt (RootSuccessors r) path = Some idx
  | DefaultSingleGroup idx _ => SingletonIndex (getDefaultSingle r) = Some idx
  | DefaultMultipleGroup idx vs =>
      SingletonIndex (getDefaultMultiple r) = Some idx ∧ (2 ≤ length vs)%nat
  end.

(** The groups that flushing the queued default values [vs] emits, given
    the indices of the two default singletons. *)
Definition defaultGroups (iS iM : IntType) (vs : list IntType) : list Group :=
  match vs with
  | [] => []
  | [v] => [DefaultSingleGroup iS v]
  | _ => [DefaultMultipleGroup iM vs]
  end.

(** *** Public operations as data *)

Inductive WriteOp :=
| OpUint8 (v : Z) | OpUint32 (v : Z) | OpUint64 (v : Z)
| OpVarint32 (v : Z) | OpVarint64 (v : Z)
| OpVaruint32 (v : Z) | OpVaruint64 (v : Z)
| OpValue (v : Z).

Definition runWrite (op : WriteOp) (w : AbbrevAssignWriter)
  : Outcome (bool * AbbrevAssignWriter) :=
  match op with
  | OpUint8 v => writeUint8 v w
  | OpUint32 v => writeUint32 v w
  | OpUint64 v => writeUint64 v w
  | OpVarint32 v => writeVarint32 v w
  | OpVarint64 v => writeVarint64 v w
  | OpVaruint32 v => writeVaruint32 v w
  | OpVaruint64 v => writeVaruint64 v w
  | OpValue v => writeValue v w
  end.

(** The [IntType] value a write method hands to the rewriter. *)
Definition fedValue (op : WriteOp) : IntType :=
  match op with
  | OpUint8 v => toIntType (wrap 8 v)
  | OpUint32 v => toIntType (wrap 32 v)
  | OpUint64 v => toIntType (wrap 64 v)
  | OpVarint32 v => toIntType (swrap 32 v)
  | OpVarint64 v => toIntType (swrap 64 v)
  | OpVaruint32 v => toIntType (wrap 32 v)
  | OpVaruint64 v => toIntType (wrap 64 v)
  | OpValue v => toIntType v
  end.

(** A client that calls the write methods in sequence. *)
Fixpoint feed (ops : list WriteOp) (w : AbbrevAssignWriter)
  : Outcome AbbrevAssignWriter :=
  match ops with
  | [] => Done w
  | op :: ops =>
      do '(_, w) <~ runWrite op w ;;
      feed ops w
  end.

Inductive PublicOp :=
| PWrite (op : WriteOp)
| PAction (a : CallbackNode)
| PFreezeEof.

Definition runOp (fuel : nat) (op : PublicOp) (w : AbbrevAssignWriter)
  : Outcome (bool * AbbrevAssignWriter) :=
  match op with
  | PWrite op => runWrite op w
  | PAction a => writeAction fuel a w
  | PFreezeEof => writeFreezeEof fuel w
  end.

(** *** Well-formedness *)

Definition singletonsAssigned (r : RootCountNode) : Prop :=
  is_Some (SingletonIndex (getDefaultSingle r)) ∧
  is_Some (SingletonIndex (getDefaultMultiple r)) ∧
  is_Some (SingletonIndex (getBlockEnter r)) ∧
  is_Some (SingletonIndex (getBlockExit r)).

(** The state between public operations: consistent path lengths, the
    singletons assigned, and room in the ring buffer. *)
Definition wfWriter (w : AbbrevAssignWriter) : Prop :=
  wfTrie 0 (RootSuccessors (Root w)) ∧
  singletonsAssigned (Root w) ∧
  (length (Buffer w) < Capacity w)%nat.

(** What no operation changes: capacity, formats, the singletons, and the
    index assigned to each path. *)
Definition sameConfig (w w' : AbbrevAssignWriter) : Prop :=
  Capacity w' = Capacity w ∧
  AbbrevFormat w' = AbbrevFormat w ∧
  DefaultFormat w' = DefaultFormat w ∧
  LoopSizeFormat w' = LoopSizeFormat w ∧
  getDefaultSingle (Root w') = getDefaultSingle (Root w) ∧
  getDefaultMultiple (Root w') = getDefaultMultiple (Root w) ∧
  getBlockEnter (Root w') = getBlockEnter (Root w) ∧
  getBlockExit (Root w') = getBlockExit (Root w) ∧
  ∀ p, abbrevAt (RootSuccessors (Root w')) p = abbrevAt (RootSuccessors (Root w)) p.

(** The values accepted but not yet emitted, oldest first. *)
Definition pending (w : AbbrevAssignWriter) : list IntType :=
  DefaultValues w ++ Buffer w.

(** Going from [w] to [w'] while accepting the values [fed] emitted exactly
    the groups [gs]: the calls appended to the underlying writer are those
    of [gs], every group is well formed, and the values of [gs] followed by
    what is pending in [w'] are what was pending in [w] followed by [fed]. *)
Definition covers (w w' : AbbrevAssignWriter) (gs : list Group)
    (fed : list IntType) : Prop :=
  sameConfig w w' ∧
  wfTrie 0 (RootSuccessors (Root w')) ∧
  Writer w' = Writer w ++ (gs ≫= groupCalls w) ∧
  Forall (groupOk (Root w)) gs ∧
  pending w ++ fed = (gs ≫= groupValues) ++ pending w'.

(** *** A small configuration

    The path [7, 7, 7] has abbreviation index 5; the four singletons have
    indices 1 to 4; the ring buffer holds three values; indices are written
    as [Varuint32], default values as [Varint64], run lengths as
    [Varuint64]. *)
Definition node777 : IntCountNode := IntNode 7 3 (Some 5) ∅.
Definition node77 : IntCountNode := IntNode 7 2 None {[ 7 := node777 ]}.
Definition node7 : IntCountNode := IntNode 7 1 None {[ 7 := node77 ]}.

Definition sampleRoot : RootCountNode :=
  RootNode {[ 7 := node7 ]}
           (SingletonNode (Some 1)) (SingletonNode (Some 2))
           (SingletonNode (Some 3)) (SingletonNode (Some 4)).

Definition sampleWriter : AbbrevAssignWriter :=
  mkWriter sampleRoot [] [] 3 [] Varuint32 Varint64 Varuint64.

(** The same root without any integer path. *)
Definition bareRoot : RootCountNode :=
  RootNode ∅ (SingletonNode (Some 1)) (SingletonNode (Some 2))
           (SingletonNode (Some 3)) (SingletonNode (Some 4)).

Definition bareWriter : AbbrevAssignWriter :=
  mkWriter bareRoot [] [] 3 [] Varuint32 Varint64 Varuint64.

(** What a client observes of a finished run. *)
Definition observe (o : Outcome (bool * AbbrevAssignWriter))
  : option (list WriterCall * list IntType * list IntType) :=
  match o with
  | Done (_, w) => Some (Writer w, Buffer w, DefaultValues w)
  | _ => None
  end.

End AbbrevAssign.


(** ** The integer-stream reader ([interp/IntReader.cpp]) *)

Module IntRead.

(** The header of an integer stream: (value, format) pairs. *)
Record IntStream := mkIntStream {
  getHeader : list (IntType * IntTypeFormat)
}.

Record IntReader := mkIntReader {
  Input : IntStream;
  HeaderIndex : nat
}.

(** [readHeaderValue(Format, Value)]: the result is the returned flag, the
    final content of the out-parameter [Value], and the reader afterwards. *)
Definition readHeaderValue (Format : IntTypeFormat) (r : IntReader)
  : bool * IntType * IntReader :=
  let Header := getHeader (Input r) in
  let Value := 0 in
  if decide (length Header ≤ HeaderIndex r)%nat then (false, Value, r)
  else
    match Header !! HeaderIndex r with
    | None => (false, Value, r)
    | Some Pair =>
        let r := mkIntReader (Input r) (S (HeaderIndex r)) in
        if decide (Pair.2 ≠ Format) then (false, Value, r)
        else (true, Pair.1, r)
    end.

(** A client that calls [readHeaderValue] once per requested format. *)
Fixpoint readHeaderValues (Formats : list IntTypeFormat) (r : IntReader) : IntReader :=
  match Formats with
  | [] => r
  | f :: fs => readHeaderValues fs (readHeaderValue f r).2
  end.

Definition kResumeHeadroom : Z := 100.

(** The value [canProcessMoreInputNow] returns, as a function of the stream
    size, the cursor index and the frozen flag (its update of
    [StillAvailable] is left out): an unfrozen stream needs
    [kResumeHeadroom] integers beyond the index. *)
Definition canProcessMoreInputNow (streamSize index : Z) (isFrozen : bool) : bool :=
  if negb isFrozen
  then negb (streamSize <? wrap 64 (index + kResumeHeadroom))
  else true.

(** A reader at the start of a header of two entries. *)
Definition sampleReader : IntReader :=
  mkIntReader (mkIntStream [(42, Uint32); (7, Varint64)]) 0.

End IntRead.

(** ** The compressor front end ([intcomp/IntCompress.h]) *)

Module IntCompress.

(** The stream reader the compressor holds; only its error flag is read. *)
Record StreamReader := mkStreamReader {
  readerErrorsFound : bool
}.

Record IntCompressor := mkIntCompressor {
  Input : option StreamReader;       (* [nullptr] is [None] *)
  CountCutoff : Z;
  WeightCutoff : Z;
  LengthLimit : Z
}.

(** Dereferencing a null pointer has no defined result. *)
Definition deref {A} (p : option A) : Outcome A :=
  match p with
  | Some a => Done a
  | None => Aborted
  end.

(** [return Input == nullptr && Input->errorsFound();] *)
Definition errorsFound (c : IntCompressor) : Outcome bool :=
  if bool_decide (Input c = None)
  then do r <~ deref (Input c) ;; Done (readerErrorsFound r)
  else Done false.

Definition setCountCutoff (NewCutoff : Z) (c : IntCompressor) : IntCompressor :=
  mkIntCompressor (Input c) (wrap 64 NewCutoff) (WeightCutoff c) (LengthLimit c).
Definition setWeightCutoff (NewCutoff : Z) (c : IntCompressor) : IntCompressor :=
  mkIntCompressor (Input c) (CountCutoff c) (wrap 64 NewCutoff) (LengthLimit c).
Definition setLengthLimit (NewLimit : Z) (c : IntCompressor) : IntCompressor :=
  mkIntCompressor (Input c) (CountCutoff c) (WeightCutoff c) (wrap 64 NewLimit).

(** [void setMinimizeBlockSize(bool NewValue) { (void)NewValue; }] *)
Definition setMinimizeBlockSize (NewValue : bool) (c : IntCompressor) : IntCompressor :=
  c.

(** A compressor whose reader has recorded errors. *)
Definition failedCompressor : IntCompressor :=
  mkIntCompressor (Some (mkStreamReader true)) 0 0 0.

End IntCompress.

(** ** The filter interpreter ([interp/Interpreter.cpp]) *)

Module Interp.

Local Set Warnings "-register-all".

Inductive NodeType :=
| NO_SUCH_NODETYPE | OpConvert | OpFilter | OpBlockEndNoArgs | OpSymbol
| OpFile | OpSection | OpUndefine | OpRename | OpVersion | OpUnknownSection
| OpParam | OpDefine | OpMap | OpOpcode | OpLastRead | OpSwitch | OpCase
| OpBlock | OpAnd | OpNot | OpOr | OpStream | OpError | OpEval
| OpIfThen | OpIfThenElse
| OpI32Const | OpI64Const | OpU8Const | OpU32Const | OpU64Const
| OpLoop | OpLoopUnbounded | OpWrite | OpPeek | OpRead | OpSequence
| OpUint8NoArgs | OpUint8OneArg | OpUint32NoArgs | OpUint32OneArg
| OpUint64NoArgs | OpUint64OneArg
| OpVarint32NoArgs | OpVarint32OneArg | OpVarint64NoArgs | OpVarint64OneArg
| OpVaruint32NoArgs | OpVaruint32OneArg | OpVaruint64NoArgs | OpVaruint64OneArg
| OpVoid.

Inductive StreamKind := Input | Output.
Inductive StreamType := Bit | Byte | Int | Ast.

(** What a node carries besides its kids: the value of an integer node (a
    literal, or the bit count of a one-argument format), or the kind and type
    of a stream node. *)
Inductive Payload :=
| NoPayload
| IntValue (v : IntType)
| StreamSpec (k : StreamKind) (t : StreamType).

Inductive Node := mkNode {
  getType : NodeType;
  getPayload : Payload;
  getKids : list Node
}.

Definition getValue (Nd : Node) : IntType :=
  match getPayload Nd with
  | IntValue v => v
  | _ => 0
  end.

(** [Nd->getKid(i)]; there is no result past the last kid. *)
Definition getKid (Nd : Node) (i : nat) : Outcome Node :=
  match getKids Nd !! i with
  | Some k => Done k
  | None => Aborted
  end.

(** *** Streams and cursors *)

(** A queue of bytes shared by its cursors: what has been buffered so far,
    and whether the producer has finished. *)
Record Queue := mkQueue {
  Bytes : list Z;
  EofFrozen : bool
}.

Definition fillSize (q : Queue) : Z := Z.of_nat (length (Bytes q)).

Record ReadCursor := mkReadCursor {
  CurByteAddress : Z;
  EobStack : list Z
}.

Record WriteCursor := mkWriteCursor {
  WriteAddress : Z
}.

(** The stream classes behind [Reader] and [Writer] are abstract classes
    whose implementations are not among the sources; an object is modelled
    by the methods the interpreter calls on it. The [isa] fields are the
    answers of the casting template on the object. *)
Record ReadStream := mkReadStream {
  isaByteReadStream : bool;
  readValue : NodeType → IntType → Queue → ReadCursor → IntType * ReadCursor;
  readBlockSize : Queue → ReadCursor → IntType * ReadCursor;
  pushEobAddress : ReadCursor → IntType → ReadCursor
}.

Record WriteStream := mkWriteStream {
  isaByteWriteStream : bool;
  (* the answer of [isa<ByteReadStream>] when asked of this writer *)
  writerIsaByteReadStream : bool;
  writeUint8 : IntType → Queue → WriteCursor → Queue * WriteCursor;
  writeFixedBlockSize : Queue → WriteCursor → IntType → Queue * WriteCursor;
  writeVarintBlockSize : Queue → WriteCursor → IntType → Queue * WriteCursor;
  getStreamAddress : WriteCursor → Z;
  getBlockSize : WriteCursor → WriteCursor → Z;
  moveBlock : Queue → WriteCursor → Z → Z → Queue * WriteCursor
}.

Record Interpreter := mkInterpreter {
  InputQueue : Queue;
  ReadPos : ReadCursor;
  Reader : ReadStream;
  OutputQueue : Queue;
  WritePos : WriteCursor;
  Writer : WriteStream;
  LastReadValue : IntType;
  MinimizeBlockSize : bool
}.

(** The constructor; the two byte streams it creates are passed in. *)
Definition newInterpreter (In Out : Queue)
    (byteReadStream : ReadStream) (byteWriteStream : WriteStream) : Interpreter :=
  mkInterpreter In (mkReadCursor 0 []) byteReadStream
                Out (mkWriteCursor 0) byteWriteStream 0 false.

(** Updates of single fields. *)
Definition setInputQueue (st : Interpreter) q :=
  mkInterpreter q (ReadPos st) (Reader st) (OutputQueue st) (WritePos st)
                (Writer st) (LastReadValue st) (MinimizeBlockSize st).
Definition setReadPos (st : Interpreter) pos :=
  mkInterpreter (InputQueue st) pos (Reader st) (OutputQueue st) (WritePos st)
                (Writer st) (LastReadValue st) (MinimizeBlockSize st).
Definition setOutput (st : Interpreter) q pos :=
  mkInterpreter (InputQueue st) (ReadPos st) (Reader st) q pos
                (Writer st) (LastReadValue st) (MinimizeBlockSize st).
Definition setReader (st : Interpreter) r :=
  mkInterpreter (InputQueue st) (ReadPos st) r (OutputQueue st) (WritePos st)
                (Writer st) (LastReadValue st) (MinimizeBlockSize st).
Definition setLastReadValue (st : Interpreter) v :=
  mkInterpreter (InputQueue st) (ReadPos st) (Reader st) (OutputQueue st)
                (WritePos st) (Writer st) v (MinimizeBlockSize st).
Definition withMinimizeBlockSize (st : Interpreter) b :=
  mkInterpreter (InputQueue st) (ReadPos st) (Reader st) (OutputQueue st)
                (WritePos st) (Writer st) (LastReadValue st) b.

Definition kResumeHeadroom : Z := 100.

(** [ReadPos.isEofFrozen() ||
     (ReadPos.getCurByteAddress() + kResumeHeadroom <= ReadPos.getCurByteAddress())]
    on [size_t]. *)
Definition hasEnoughHeadroom (st : Interpreter) : bool :=
  EofFrozen (InputQueue st) ||
  (wrap 64 (CurByteAddress (ReadPos st) + kResumeHeadroom)
     <=? CurByteAddress (ReadPos st)).

(** What the spec asks of [hasEnoughHeadroom]: frozen, or at least
    [kResumeHeadroom] buffered bytes at or beyond the read address. *)
Definition headroomRequired (st : Interpreter) : bool :=
  EofFrozen (InputQueue st) ||
  (CurByteAddress (ReadPos st) + kResumeHeadroom <=? fillSize (InputQueue st)).

(** *** The OpStream case of [eval] *)

Definition fatal {A} : Outcome A := Aborted.

(** The two nested switches, on the stream kind and on the stream type. The
    inner switch of the [Input] case ends in [break]s that leave only the
    inner switch; the outer case has no [break] of its own, so control goes
    on into the [Output] case, which assigns [ReturnValue] again. *)
Definition evalStream (Nd : Node) (st : Interpreter) : Outcome IntType :=
  let ReturnValue := 0 in
  match getPayload Nd with
  | StreamSpec kind type =>
      match kind with
      | Input =>
          do ReturnValue <~
             match type with
             | Byte => Done (Z.b2z (isaByteReadStream (Reader st)))
             | Bit | Int | Ast => fatal
             end ;;
          (* no [break]: control falls into [case StreamKind::Output] *)
          match type with
          | Byte => Done (Z.b2z (writerIsaByteReadStream (Writer st)))
          | Bit | Int | Ast => fatal
          end
      | Output =>
          match type with
          | Byte => Done (Z.b2z (writerIsaByteReadStream (Writer st)))
          | Bit | Int | Ast => fatal
          end
      end
  | _ => fatal
  end.




Section Machine.

(** [FillPos.advance(Page::Size)]: the producer side extends the queue by
    up to a page, or freezes it. *)
Variable fillPage : Queue → Queue.

(** [pushReadReturnValue] is declared in [Interpreter.h], which is not among
    the sources: it hands the value back to the caller of [read]; whether it
    also records it in [LastReadValue] is left open. *)
Variable pushRecordsLastRead : bool.

(** Symbol table and case lookup ([sexp/Ast.cpp]). *)
Variable getDefineDefinition : Node → option Node.
Variable getCase : Node → IntType → option Node.

(** The evaluator, as [readOpcode] and [evalOrCopy] call it back. *)
Variable eval : Node → Interpreter → Outcome (IntType * Interpreter).

Variable atByteEob : Queue → ReadCursor → bool.

(** The wait of [readBackFilled]:
    [while (!hasEnoughHeadroom()) FillPos.advance(Page::Size);] *)
Fixpoint awaitHeadroom (fuel : nat) (st : Interpreter) : Outcome Interpreter :=
  if hasEnoughHeadroom st then Done st
  else match fuel with
       | O => Diverging
       | S fuel => awaitHeadroom fuel (setInputQueue st (fillPage (InputQueue st)))
       end.

Definition pushReadReturnValue (Value : IntType) (st : Interpreter)
  : Outcome (IntType * Interpreter) :=
  Done (Value, if pushRecordsLastRead then setLastReadValue st Value else st).

Definition readFormat (Nd : Node) (st : Interpreter) : Outcome (IntType * Interpreter) :=
  let '(v, pos) := readValue (Reader st) (getType Nd) (getValue Nd)
                             (InputQueue st) (ReadPos st) in
  pushReadReturnValue v (setReadPos st pos).

(** A frame that calls [read] or [write] from inside [runMethods]. [Call]
    pushes the calling frame and makes the called one current, and the
    nested [readBackFilled] runs [runMethods] again, whose loop returns only
    at the Finished frame. When the called frame has run and popped itself,
    the calling frame is the current one again; it has not recorded that it
    made its call (it would have moved to state Exit, as the Write case of
    OpParam does), so the loop dispatches it anew, to the same call. The
    nested call therefore does not return, and what the calling frame has
    after it is not reached. [frame] is one run of the called frame, [n]
    bounds the dispatches. *)
Fixpoint dispatchAgain {A} (n : nat)
    (frame : Interpreter → Outcome (A * Interpreter)) (st : Interpreter)
  : Outcome (A * Interpreter) :=
  match n with
  | O => Diverging
  | S n => do '(_, st) <~ frame st ;; dispatchAgain n frame st
  end.

(** The end of the OpPeek case, for the value [v] of the nested read:
    [LastReadValue = v; ReadPos.swap(InitialPos);
     pushReadReturnValue(LastReadValue);]. *)
Definition peekExit (InitialPos : ReadCursor) (v : IntType) (st : Interpreter)
  : Outcome (IntType * Interpreter) :=
  let st := setLastReadValue st v in
  let st := setReadPos st InitialPos in
  pushReadReturnValue (LastReadValue st) st.

(** [read(Nd)] called from [eval] or [readOpcodeSelector], that is, not from
    inside [runMethods]: [Call] pushes the Read frame for [Nd],
    [readBackFilled] waits for headroom and [runMethods] runs the Read case
    for the node's type; the cases of the leaves pop the frame with their
    result, which ends the run. The OpPeek case calls [read(kid 0)] from
    inside [runMethods] and tests no frame state: each dispatch of the Peek
    frame reads the kid from where the cursor then is, and is followed by
    another, so the end of the case is not reached. [fuel] bounds the wait
    and the dispatches. *)
Fixpoint read (fuel : nat) (Nd : Node) (st : Interpreter) {struct Nd}
  : Outcome (IntType * Interpreter) :=
  match Nd with
  | mkNode type payload kids =>
      do st <~ awaitHeadroom fuel st ;;
      match type with
      | OpI32Const | OpI64Const | OpU8Const | OpU32Const | OpU64Const =>
          pushReadReturnValue (getValue Nd) st
      | OpPeek =>
          let InitialPos := ReadPos st in
          match kids with
          | [] => Aborted
          | kid0 :: _ =>
              do '(v, st) <~ dispatchAgain (S fuel) (read fuel kid0) st ;;
              peekExit InitialPos v st
          end
      | OpLastRead => pushReadReturnValue (LastReadValue st) st
      | OpUint8NoArgs | OpUint8OneArg | OpUint32NoArgs | OpUint32OneArg
      | OpUint64NoArgs | OpUint64OneArg
      | OpVarint32NoArgs | OpVarint32OneArg | OpVarint64NoArgs | OpVarint64OneArg
      | OpVaruint32NoArgs | OpVaruint32OneArg
      | OpVaruint64NoArgs | OpVaruint64OneArg =>
          readFormat Nd st
      | OpVoid => pushReadReturnValue 0 st
      | _ => fatal
      end
  end.

(** The OpPeek case of [eval]: [ReturnValue = read(Nd)]. *)
Definition evalPeek (fuel : nat) (Nd : Node) (st : Interpreter)
  : Outcome (IntType * Interpreter) :=
  read fuel Nd st.

(** [readOpcodeSelector(Nd, Value)] with [Value] bound to [LastReadValue],
    as [readOpcode] calls it. The result is the [uint32_t] bit size.
    [depth] bounds the chain of symbol definitions followed. *)
Fixpoint readOpcodeSelector (depth fuel : nat) (Nd : Node) (st : Interpreter)
  : Outcome (Z * Interpreter) :=
  let readInto (size : Z) :=
    do '(v, st) <~ read fuel Nd st ;;
    Done (wrap 32 size, setLastReadValue st v) in
  match getType Nd with
  | OpUint8NoArgs => readInto 8
  | OpUint8OneArg => readInto (getValue Nd)
  | OpUint32NoArgs => readInto 32
  | OpUint32OneArg => readInto (getValue Nd)
  | OpUint64NoArgs => readInto 64
  | OpUint64OneArg => readInto (getValue Nd)
  | OpEval =>
      do kid0 <~ getKid Nd 0 ;;
      match getType kid0 with
      | OpSymbol =>
          match depth with
          | O => Diverging
          | S depth =>
              do Defn <~ (match getDefineDefinition kid0 with
                          | Some d => Done d
                          | None => Aborted
                          end) ;;
              readOpcodeSelector depth fuel Defn st
          end
      | _ => fatal
      end
  | _ => readInto 0
  end.

(** The first half of the OpOpcode case of [readOpcode]: read the selector,
    and when a continuation is expected check the bit size and shift the
    prefix in. *)
Definition readOpcodeAssemble (depth fuel : nat) (Nd : Node)
    (PrefixValue : IntType) (NumOpcodes : Z) (st : Interpreter)
  : Outcome Interpreter :=
  do SelectorNd <~ getKid Nd 0 ;;
  do '(SelectorSize, st) <~ readOpcodeSelector depth fuel SelectorNd st ;;
  if 0 <? NumOpcodes then
    if (SelectorSize <? 1) || (64 <=? SelectorSize) then fatal
    else Done (setLastReadValue st
                 (Z.lor (LastReadValue st)
                        (wrap 64 (Z.shiftl PrefixValue SelectorSize))))
  else Done st.

Definition readOpcode (depth fuel : nat) (Nd : Node)
    (PrefixValue : IntType) (NumOpcodes : Z) (st : Interpreter)
  : Outcome (IntType * Interpreter) :=
  match getType Nd with
  | OpOpcode =>
      do st <~ readOpcodeAssemble depth fuel Nd PrefixValue NumOpcodes st ;;
      match getCase Nd (LastReadValue st) with
      | Some Case =>
          do '(v, st) <~ eval Case st ;;
          Done (v, setLastReadValue st v)
      | None => Done (LastReadValue st, st)
      end
  | _ => fatal
  end.

(** [evalOrCopy(Nd)]; the copy loop is bounded by [fuel]. *)
Fixpoint copyToEob (fuel : nat) (st : Interpreter) : Outcome Interpreter :=
  if atByteEob (InputQueue st) (ReadPos st) then Done st
  else match fuel with
       | O => Diverging
       | S fuel =>
           let '(b, rpos) := readValue (Reader st) OpUint8NoArgs 0
                                       (InputQueue st) (ReadPos st) in
           let '(out, wpos) := writeUint8 (Writer st) b (OutputQueue st) (WritePos st) in
           copyToEob fuel (setOutput (setReadPos st rpos) out wpos)
       end.

Definition evalOrCopy (fuel : nat) (Nd : option Node) (st : Interpreter)
  : Outcome Interpreter :=
  match Nd with
  | Some Nd => do '(_, st) <~ eval Nd st ;; Done st
  | None => copyToEob fuel st
  end.

Definition popEobAddress (pos : ReadCursor) : ReadCursor :=
  mkReadCursor (CurByteAddress pos) (tail (EobStack pos)).

(** The back-patch at the end of [decompressBlock]: [BlockStart] is where
    the size was reserved, [SizeAfterSizeWrite] the address just after the
    reservation; [st] is the state after the block body. *)
Definition backPatchBlockSize (BlockStart : WriteCursor) (SizeAfterSizeWrite : Z)
    (st : Interpreter) : Interpreter :=
  let W := Writer st in
  let NewSize := wrap 64 (getBlockSize W BlockStart (WritePos st)) in
  if negb (MinimizeBlockSize st) then
    let '(out, _) := writeFixedBlockSize W (OutputQueue st) BlockStart NewSize in
    setOutput st out (WritePos st)
  else
    let '(out, BlockStart) := writeVarintBlockSize W (OutputQueue st) BlockStart NewSize in
    let SizeAfterBackPatch := getStreamAddress W BlockStart in
    let Diff := wrap 64 (SizeAfterSizeWrite - SizeAfterBackPatch) in
    if negb (Diff =? 0) then
      let CurAddress := getStreamAddress W (WritePos st) in
      let '(out, BlockStart) :=
        moveBlock W out BlockStart SizeAfterSizeWrite
                  (wrap 64 (wrap 64 (CurAddress - Diff) - SizeAfterBackPatch)) in
      setOutput st out BlockStart
    else setOutput st out (WritePos st).

Definition decompressBlock (fuel : nat) (Code : option Node) (st : Interpreter)
  : Outcome Interpreter :=
  let '(OldSize, rpos) := readBlockSize (Reader st) (InputQueue st) (ReadPos st) in
  let OldSize := wrap 32 OldSize in
  let st := setReadPos st (pushEobAddress (Reader st) rpos OldSize) in
  let BlockStart := WritePos st in
  let '(out, wpos) := writeFixedBlockSize (Writer st) (OutputQueue st) (WritePos st) 0 in
  let st := setOutput st out wpos in
  let SizeAfterSizeWrite := getStreamAddress (Writer st) (WritePos st) in
  do st <~ evalOrCopy fuel Code st ;;
  let st := backPatchBlockSize BlockStart SizeAfterSizeWrite st in
  Done (setReadPos st (popEobAddress (ReadPos st))).

End Machine.

(** *** Streams for the scenarios *)

Definition byteAt (q : Queue) (a : Z) : Z := nth (Z.to_nat a) (Bytes q) 0.

Definition advance (pos : ReadCursor) (n : Z) : ReadCursor :=
  mkReadCursor (CurByteAddress pos + n) (EobStack pos).

(** A read stream that takes one byte per value, also for a block size. *)
Definition plainReadStream : ReadStream :=
  mkReadStream true
    (λ _ _ q pos, (byteAt q (CurByteAddress pos), advance pos 1))
    (λ q pos, (byteAt q (CurByteAddress pos), advance pos 1))
    (λ pos size, mkReadCursor (CurByteAddress pos)
                              ((CurByteAddress pos + size) :: EobStack pos)).

Definition atEob (q : Queue) (pos : ReadCursor) : bool :=
  match EobStack pos with
  | e :: _ => e <=? CurByteAddress pos
  | [] => fillSize q <=? CurByteAddress pos
  end.

Definition FixedCall : Z := -1.
Definition VarintCall : Z := -2.
Definition MoveCall : Z := -3.

Definition record (q : Queue) (l : list Z) : Queue :=
  mkQueue (Bytes q ++ l) (EofFrozen q).

Definition step (pos : WriteCursor) (n : Z) : WriteCursor :=
  mkWriteCursor (WriteAddress pos + n).

(** A write stream that records in the output queue each call made on it:
    a byte as itself, a block size as a marker and the size, a move as a
    marker, the source address and the length. A reserved size takes five
    addresses, a minimised one takes one. [isaRead] is its answer to
    [isa<ByteReadStream>]. *)
Definition recordingWriteStream (isaRead : bool) : WriteStream :=
  mkWriteStream true isaRead
    (λ v q pos, (record q [v], step pos 1))
    (λ q pos size, (record q [FixedCall; size], step pos 5))
    (λ q pos size, (record q [VarintCall; size], step pos 1))
    WriteAddress
    (λ start cur, WriteAddress cur - (WriteAddress start + 5))
    (λ q pos from size, (record q [MoveCall; from; size], step pos size)).

(** An interpreter as constructed, over the given input bytes. *)
Definition sampleInterpreter (input : list Z) (frozen isaRead : bool) : Interpreter :=
  newInterpreter (mkQueue input frozen) (mkQueue [] false)
                 plainReadStream (recordingWriteStream isaRead).

Definition streamNode (k : StreamKind) (t : StreamType) : Node :=
  mkNode OpStream (StreamSpec k t) [].

Definition constNode (v : IntType) : Node := mkNode OpU8Const (IntValue v) [].

Definition peekNode (e : Node) : Node := mkNode OpPeek NoPayload [e].

Definition uint8Node : Node := mkNode OpUint8NoArgs NoPayload [].

Definition opcodeNode (selector : Node) : Node :=
  mkNode OpOpcode NoPayload [selector].

(** An evaluator that is never called in the scenarios. *)
Definition noEval (Nd : Node) (st : Interpreter) : Outcome (IntType * Interpreter) :=
  Aborted.

End Interp.

(** ** Further notions for the rewriter *)

Module AbbrevAssignTerms.
Import AbbrevAssign.

(** No integer path carries an abbreviation index. *)
Definition unabbreviated (w : AbbrevAssignWriter) : Prop :=
  ∀ p, abbrevAt (RootSuccessors (Root w)) p = None.

(** What stays fixed while nothing is emitted: the configuration and the
    calls made so far; the pending values grow by what is fed. *)
Definition quiet (w w' : AbbrevAssignWriter) (fed : list IntType) : Prop :=
  sameConfig w w' ∧ wfTrie 0 (RootSuccessors (Root w')) ∧
  Writer w' = Writer w ∧ pending w' = pending w ++ fed.

(** The two block actions: the symbol of the callback and the singleton
    whose index it emits. *)
Definition blockSymbol (enter : bool) : PredefinedSymbol :=
  if enter then Block_enter else Block_exit.

Definition blockNode (enter : bool) (r : RootCountNode) : CountNode :=
  if enter then getBlockEnter r else getBlockExit r.

(** *** Reading the output back *)

(** A format carries a value when the conversion to the parameter type of
    the underlying writer's method loses nothing: taken back to [IntType],
    what was written is the value. *)
Definition carries (f : IntTypeFormat) (v : IntType) : Prop :=
  toIntType (convert f v) = v.

(** The same for the length of a run of default values, a [size_t]. *)
Definition carriesCount (f : IntTypeFormat) (n : nat) : Prop :=
  toIntType (convert f (toIntType (Z.of_nat n))) = Z.of_nat n.

(** What the reader of the output expects next: an abbreviation index, the
    value of a single default, the length of a run of defaults, or the
    values still to come of a run. *)
Inductive Expect :=
| AnIndex
| OneValue
| ACount
| ARun (n : nat).

(** The values the calls on the underlying writer denote, read group by
    group as the rewriter's output is meant to be read: the index of the
    default-single node is followed by one value, the index of the
    default-multiple node by a count and that many values, and any other
    index stands for the values of the path it is assigned to. [pathOf] is
    the table from indices to paths. Each value is read in the format it was
    written in; the output ends with the freeze. *)
Fixpoint decode (w : AbbrevAssignWriter) (pathOf : IntType → option (list IntType))
    (e : Expect) (calls : list WriterCall) {struct calls}
  : option (list IntType) :=
  match calls with
  | [] => None
  | ActionCall _ :: _ => None
  | FreezeEofCall :: calls =>
      match e, calls with
      | AnIndex, [] => Some []
      | _, _ => None
      end
  | WriteCall f z :: calls =>
      let v := toIntType z in
      match e with
      | AnIndex =>
          if negb (bool_decide (f = AbbrevFormat w)) then None
          else if bool_decide (SingletonIndex (getDefaultSingle (Root w)) = Some v)
          then decode w pathOf OneValue calls
          else if bool_decide (SingletonIndex (getDefaultMultiple (Root w)) = Some v)
          then decode w pathOf ACount calls
          else match pathOf v with
               | Some p => (p ++.) <$> decode w pathOf AnIndex calls
               | None => None
               end
      | OneValue =>
          if negb (bool_decide (f = DefaultFormat w)) then None
          else (v ::.) <$> decode w pathOf AnIndex calls
      | ACount =>
          if negb (bool_decide (f = LoopSizeFormat w)) then None
          else match Z.to_nat v with
               | O => None
               | S n => decode w pathOf (ARun (S n)) calls
               end
      | ARun n =>
          if negb (bool_decide (f = DefaultFormat w)) then None
          else match n with
               | O => None
               | S O => (v ::.) <$> decode w pathOf AnIndex calls
               | S n => (v ::.) <$> decode w pathOf (ARun n) calls
               end
      end
  end.

(** The indices can be told apart and survive the abbreviation format: the
    two default singletons have different indices, every path with an index
    is the one the table gives for it, so that no two paths share an index,
    and no path has the index of a default singleton. *)
Definition readable (w : AbbrevAssignWriter)
    (pathOf : IntType → option (list IntType)) : Prop :=
  let r := Root w in
  let AF := AbbrevFormat w in
  (∀ i, SingletonIndex (getDefaultSingle r) = Some i →
        carries AF i ∧ SingletonIndex (getDefaultMultiple r) ≠ Some i) ∧
  (∀ i, SingletonIndex (getDefaultMultiple r) = Some i → carries AF i) ∧
  (∀ p i, abbrevAt (RootSuccessors r) p = Some i →
          carries AF i ∧ pathOf i = Some p ∧
          SingletonIndex (getDefaultSingle r) ≠ Some i ∧
          SingletonIndex (getDefaultMultiple r) ≠ Some i).

(** The table of the small configuration: index 5 stands for [7, 7, 7]. *)
Definition samplePathOf (i : IntType) : option (list IntType) :=
  if i =? 5 then Some [7; 7; 7] else None.

(** The configuration without paths, default values written as [Uint8]. *)
Definition narrowWriter : AbbrevAssignWriter :=
  mkWriter bareRoot [] [] 3 [] Varuint32 Uint8 Varuint64.

End AbbrevAssignTerms.

(** ** The reader's flow control ([interp/IntReader.cpp]) *)

Module IntReadFlow.
Import IntRead.

(** A client that calls [readHeaderValue] once per requested format and
    keeps what each call returned: the flag and the out-parameter. *)
Fixpoint readHeaderResults (Formats : list IntTypeFormat) (r : IntReader)
  : list (bool * IntType) * IntReader :=
  match Formats with
  | [] => ([], r)
  | f :: fs =>
      let '(ok, Value, r) := readHeaderValue f r in
      let '(results, r) := readHeaderResults fs r in
      ((ok, Value) :: results, r)
  end.

(** What the two flow tests read and write: the cursor's index
    ([Pos.getIndex()]), the size of the stream so far ([Pos.streamSize()]),
    whether the input is frozen, and the member [StillAvailable]. All are
    [size_t]. *)
Record Flow := mkFlow {
  Index : Z;
  StreamSize : Z;
  IsFrozen : bool;
  StillAvailable : Z
}.

Definition setIndex (s : Flow) (i : Z) : Flow :=
  mkFlow i (StreamSize s) (IsFrozen s) (StillAvailable s).
Definition setStillAvailable (s : Flow) (n : Z) : Flow :=
  mkFlow (Index s) (StreamSize s) (IsFrozen s) n.

(** [canProcessMoreInputNow], with its update of [StillAvailable]. *)
Definition canProcessMoreInputNow (s : Flow) : bool * Flow :=
  let s := setStillAvailable s (StreamSize s) in
  if negb (IsFrozen s) then
    if StillAvailable s <? wrap 64 (Index s + kResumeHeadroom) then (false, s)
    else (true, setStillAvailable s (wrap 64 (StillAvailable s - kResumeHeadroom)))
  else (true, s).

Definition stillMoreInputToProcessNow (s : Flow) : bool :=
  Index s <=? StillAvailable s.

End IntReadFlow.

(** ** Collection flags ([intcomp/IntCompress.h]) *)

Module CollectionFlag.

(** [enum class CollectionFlag : CollectionFlags]. *)
Inductive t := None | TopLevel | IntPaths | All.

End CollectionFlag.

Module CollectionFlags.

(** [Flag(F)]: the [uint32_t] behind the enumerator. *)
Definition Flag (F : CollectionFlag.t) : Z :=
  match F with
  | CollectionFlag.None => 0
  | CollectionFlag.TopLevel => 1
  | CollectionFlag.IntPaths => 2
  | CollectionFlag.All => 3
  end.

(** [return Flag(F) & Flags;] converted to [bool]. *)
Definition hasFlag (F : CollectionFlag.t) (Flags : Z) : bool :=
  negb (Z.land (Flag F) Flags =? 0).

End CollectionFlags.

(** ** The string writer ([stream/StringWriter.cpp]) *)

Module StringWrite.

(** The string written to, as the list of its bytes, and the frozen flag. *)
Record StringWriter := mkStringWriter {
  Str : list Z;
  IsFrozen : bool
}.

(** The constructor binds the writer to an existing string. *)
Definition newStringWriter (Str : list Z) : StringWriter :=
  mkStringWriter Str false.

(** [read] ignores its arguments. *)
Definition read (Buf : list Z) (Size : nat) (w : StringWriter) : Z := 0.

(** [for (i = 0; i < Size; ++i) Str.push_back( *(Buf++));] Reading past
    the end of the caller's buffer has no defined result. *)
Fixpoint pushBytes (Buf : list Z) (Size : nat) (Str : list Z) : Outcome (list Z) :=
  match Size with
  | O => Done Str
  | S Size =>
      match Buf with
      | [] => Aborted
      | b :: Buf => pushBytes Buf Size (Str ++ [b])
      end
  end.

Definition write (Buf : list Z) (Size : nat) (w : StringWriter)
  : Outcome (bool * StringWriter) :=
  if IsFrozen w then Done (false, w)
  else
    do Str <~ pushBytes Buf Size (Str w) ;;
    Done (true, mkStringWriter Str (IsFrozen w)).

(** [return IsFrozen = true;] *)
Definition freeze (w : StringWriter) : bool * StringWriter :=
  (true, mkStringWriter (Str w) true).

Definition atEof (w : StringWriter) : bool := IsFrozen w.

(** A sequence of calls on one writer; each call is recorded with the
    flag it returned. *)
Inductive Call :=
| CallWrite (Buf : list Z) (Size : nat)
| CallFreeze
| CallAtEof.

Definition call (c : Call) (w : StringWriter) : Outcome (bool * StringWriter) :=
  match c with
  | CallWrite Buf Size => write Buf Size w
  | CallFreeze => Done (freeze w)
  | CallAtEof => Done (atEof w, w)
  end.

Fixpoint calls (cs : list Call) (w : StringWriter)
  : Outcome (list bool * StringWriter) :=
  match cs with
  | [] => Done ([], w)
  | c :: cs =>
      do '(b, w) <~ call c w ;;
      do '(bs, w) <~ calls cs w ;;
      Done (b :: bs, w)
  end.

(** The bytes a write call asks to store. *)
Definition payload (c : Call) : list Z :=
  match c with
  | CallWrite Buf Size => take Size Buf
  | _ => []
  end.

(** The call stays inside the buffer it is given. *)
Definition inBounds (c : Call) : Prop :=
  match c with
  | CallWrite Buf Size => (Size ≤ length Buf)%nat
  | _ => True
  end.

Definition isFreeze (c : Call) : bool :=
  match c with CallFreeze => true | _ => false end.

End StringWrite.

(** ** The algorithm generator ([intcomp/AbbreviationCodegen.cpp]) *)

Module NodeType.

(** The classes of the nodes the generator creates. *)
Inductive t :=
| Void | SourceHeader | ReadHeader | WriteHeader | U32Const | U64Const
| Define | Symbol | NoParams | NoLocals | ParamValues | Map | Param | Case
| EnclosingAlgorithms | Rename | LoopUnbounded | BinaryEval | Read
| BinarySelect | BinaryAccept | Switch | Error | LiteralActionUse | Callback
| Loop | Write | Algorithm
| Uint8 | Uint32 | Uint64 | Varint32 | Varint64 | Varuint32 | Varuint64.

#[global] Instance eq_dec : EqDecision t.
Proof. solve_decision. Defined.

End NodeType.

Module AbbrevCodegen.

Local Set Warnings "-register-all".

Inductive ValueFormat := Decimal | Hexidecimal.

(** What a node carries besides its kids: the value and print format of
    an integer node, the name of a symbol, or which predefined symbol it
    is. *)
Inductive Payload :=
| NoPayload
| IntValue (v : Z) (f : ValueFormat)
| SymbolName (name : string)
| Predefined (sym : AbbrevAssign.PredefinedSymbol).

Inductive Node := mkNode {
  getType : NodeType.t;
  getPayload : Payload;
  getKids : list Node
}.

(** [Symtab->create<T>(kids...)], [Symtab->create<T>(value, format)],
    [Nd->append(Kid)], [Symtab->getOrCreateSymbol(Name)] and
    [Symtab->getPredefined(Sym)]. *)
Definition create (T : NodeType.t) (kids : list Node) : Node :=
  mkNode T NoPayload kids.
Definition createInt (T : NodeType.t) (v : Z) (f : ValueFormat) : Node :=
  mkNode T (IntValue v f) [].
Definition append (Nd Kid : Node) : Node :=
  mkNode (getType Nd) (getPayload Nd) (getKids Nd ++ [Kid]).
Definition getOrCreateSymbol (Name : string) : Node :=
  mkNode NodeType.Symbol (SymbolName Name) [].
Definition getPredefined (Sym : AbbrevAssign.PredefinedSymbol) : Node :=
  mkNode NodeType.Symbol (Predefined Sym) [].

(** Modelled from the spec: a pointer to an integer node of the count trie
    is the node together with its chain of parents, nearest first
    ([getParent] of a node directly below the root is null). *)
Record IntCountRef := mkRef {
  refNode : AbbrevAssign.IntCountNode;
  refParents : list AbbrevAssign.IntCountNode
}.

(** Modelled from the spec: the classes of count nodes an assignment can
    point to, with what [isEnter] and [isSingle] answer. *)
Inductive CountNodePtr :=
| IntCount (Nd : IntCountRef)
| BlockCount (isEnter : bool) (Nd : AbbrevAssign.CountNode)
| DefaultCount (isSingle : bool) (Nd : AbbrevAssign.CountNode)
| AlignCount (Nd : AbbrevAssign.CountNode)
| OtherCount (Nd : AbbrevAssign.CountNode).

Definition abbrevIndex (Nd : CountNodePtr) : option IntType :=
  match Nd with
  | IntCount r => AbbrevAssign.AbbrevIndex (refNode r)
  | BlockCount _ n | DefaultCount _ n | AlignCount n | OtherCount n =>
      AbbrevAssign.SingletonIndex n
  end.

(** [assert(Nd->hasAbbrevIndex())] followed by [Nd->getAbbrevIndex()]. *)
Definition getAbbrevIndex (Nd : CountNodePtr) : Outcome IntType :=
  match abbrevIndex Nd with
  | Some i => Done i
  | None => Aborted
  end.

(** Modelled from the spec: the tree of the Huffman encoder. *)
Inductive HuffmanNode :=
| Selector (Kid1 Kid2 : HuffmanNode)
| HuffmanSymbol.

Record CompressionFlags := mkFlags {
  UseCismModel : bool;
  AbbrevFormat : IntTypeFormat
}.

(** What [getCodeSymtab] returns: the algorithm installed in the new symbol
    table, and whether the cism base algorithm was set as enclosing scope. *)
Record SymbolTable := mkSymbolTable {
  getAlgorithm : Node;
  hasCismEnclosingScope : bool
}.

Definition CismDefaultSingleValue : Z := 16767.
Definition CismDefaultMultipleValue : Z := 16764.
Definition CismBlockEnterValue : Z := 16768.
Definition CismBlockExitValue : Z := 16769.
Definition CismAlignValue : Z := 16770.

(** [std::map<IntType, uint32_t>] as the list of its entries in key order;
    [CatMap[k] = v] replaces the entry of an existing key. *)
Fixpoint mapAssign (k : IntType) (v : Z) (m : list (IntType * Z)) : list (IntType * Z) :=
  match m with
  | [] => [(k, v)]
  | (k', v') :: m' =>
      if k <? k' then (k, v) :: m
      else if k =? k' then (k, v) :: m'
      else (k', v') :: mapAssign k v m'
  end.

(** The switch on [Nd->getKind()] in [generateCategorizeFunction]: the
    value an assignment is mapped to, if its kind is mapped at all. *)
Definition categoryOf (Nd : CountNodePtr) : option Z :=
  match Nd with
  | DefaultCount isSingle _ =>
      Some (if isSingle then CismDefaultSingleValue else CismDefaultMultipleValue)
  | BlockCount isEnter _ =>
      Some (if isEnter then CismBlockEnterValue else CismBlockExitValue)
  | AlignCount _ => Some CismAlignValue
  | _ => None
  end.

Section Generator.

(** The magic numbers and versions of [utils/Defs.h]. *)
Variables CasmBinaryMagic CasmBinaryVersion : Z.
Variables CismBinaryMagic CismBinaryVersion : Z.
Variables WasmBinaryMagic WasmBinaryVersionD : Z.

(** The members set by the constructor; [Assignments] is the set of
    assigned nodes in the order in which it is iterated. Installing the
    finished algorithm in the symbol table is not modelled. *)
Variable Flags : CompressionFlags.
Variable EncodingRoot : option HuffmanNode.
Variable Assignments : list CountNodePtr.
Variable ToRead : bool.

Definition CategorizeName : string := "categorize"%string.
Definition OpcodeName : string := "opcode"%string.
Definition ProcessName : string := "process"%string.
Definition OldName : string := ".old"%string.

Definition generateHeader (Ty : NodeType.t) (MagicNumber VersionNumber : Z) : Node :=
  match Ty with
  | NodeType.SourceHeader | NodeType.ReadHeader | NodeType.WriteHeader =>
      let Header := create Ty [] in
      let Header := append Header (createInt NodeType.U32Const MagicNumber Hexidecimal) in
      append Header (createInt NodeType.U32Const VersionNumber Hexidecimal)
  | _ => create NodeType.Void []
  end.

Fixpoint generateHuffmanEncoding (Root : HuffmanNode) : Node :=
  match Root with
  | Selector Kid1 Kid2 =>
      create NodeType.BinarySelect
             [generateHuffmanEncoding Kid1; generateHuffmanEncoding Kid2]
  | HuffmanSymbol => create NodeType.BinaryAccept []
  end.

Definition generateAbbrevFormat (AbbrevFormat : IntTypeFormat) : Node :=
  match AbbrevFormat with
  | Uint8 => create NodeType.Uint8 []
  | Varint32 => create NodeType.Varint32 []
  | Varuint32 => create NodeType.Varuint32 []
  | Uint32 => create NodeType.Uint32 []
  | Varint64 => create NodeType.Varint64 []
  | Varuint64 => create NodeType.Varuint64 []
  | Uint64 => create NodeType.Uint64 []
  end.

Definition generateAbbreviationRead : Node :=
  let Format :=
    match EncodingRoot with
    | Some Root => create NodeType.BinaryEval [generateHuffmanEncoding Root]
    | None => generateAbbrevFormat (AbbrevFormat Flags)
    end in
  if ToRead then create NodeType.Read [Format] else Format.

Definition generateOpcodeFunction : Node :=
  let Fcn := create NodeType.Define [] in
  let Fcn := append Fcn (getOrCreateSymbol OpcodeName) in
  let Fcn := append Fcn (create NodeType.NoParams []) in
  let Fcn := append Fcn (create NodeType.NoLocals []) in
  append Fcn generateAbbreviationRead.

Definition generateMapCase (Index : IntType) (Value : Z) : Node :=
  create NodeType.Case [createInt NodeType.U64Const Index Decimal;
                        createInt NodeType.U32Const Value Decimal].

(** The first loop of [generateCategorizeFunction], over [Assignments]. *)
Fixpoint collectCategories (Nds : list CountNodePtr) (CatMap : list (IntType * Z))
  : Outcome (list (IntType * Z)) :=
  match Nds with
  | [] => Done CatMap
  | Nd :: Nds =>
      do i <~ getAbbrevIndex Nd ;;
      match categoryOf Nd with
      | Some c => collectCategories Nds (mapAssign i c CatMap)
      | None => collectCategories Nds CatMap
      end
  end.

(** The map node is appended to the function before its cases are added
    to it; the function holds a pointer to it, so the finished function has
    the finished map as its last kid. *)
Definition generateCategorizeFunction : Outcome Node :=
  let Fcn := create NodeType.Define [] in
  let Fcn := append Fcn (getOrCreateSymbol CategorizeName) in
  let Fcn := append Fcn (createInt NodeType.ParamValues 1 Decimal) in
  let Fcn := append Fcn (create NodeType.NoLocals []) in
  let MapNd := create NodeType.Map [] in
  let MapNd := append MapNd (createInt NodeType.Param 0 Decimal) in
  do CatMap <~ collectCategories Assignments [] ;;
  let MapNd := fold_left (λ MapNd Pair, append MapNd (generateMapCase Pair.1 Pair.2))
                         CatMap MapNd in
  Done (append Fcn MapNd).

Definition generateEnclosingAlg (Name : string) : Node :=
  let Enc := create NodeType.EnclosingAlgorithms [] in
  append Enc (getOrCreateSymbol Name).

Definition generateRename (From To : Node) : Node :=
  create NodeType.Rename [From; To].

Definition generateUseAction (Sym : Node) : Node :=
  create NodeType.LiteralActionUse [Sym].

Definition generateBlockAction (isEnter : bool) : Node :=
  let Sym :=
    if isEnter
    then (if ToRead then AbbrevAssign.Block_enter
          else AbbrevAssign.Block_enter_writeonly)
    else (if ToRead then AbbrevAssign.Block_exit
          else AbbrevAssign.Block_exit_writeonly) in
  create NodeType.Callback [generateUseAction (getPredefined Sym)].

Definition generateDefaultSingleAction : Node := create NodeType.Varint64 [].

Definition generateDefaultMultipleAction : Node :=
  let LoopSize := create NodeType.Varuint64 [] in
  let LoopSize := if ToRead then create NodeType.Read [LoopSize] else LoopSize in
  create NodeType.Loop [LoopSize; generateDefaultSingleAction].

Definition generateDefaultAction (isSingle : bool) : Node :=
  if isSingle then generateDefaultSingleAction else generateDefaultMultipleAction.

Definition generateAlignAction : Node :=
  create NodeType.Callback [generateUseAction (getPredefined AbbrevAssign.Align)].

Definition generateIntType (Value : IntType) : Node :=
  createInt NodeType.U64Const Value Decimal.

(** The node and its parents are collected upwards, the vector is
    reversed, and one constant per node is appended after the format. *)
Definition generateIntLitActionRead (Nd : IntCountRef) : Node :=
  let Values := refNode Nd :: refParents Nd in
  let Values := rev Values in
  let W := create NodeType.Write [] in
  let W := append W (create NodeType.Varuint64 []) in
  fold_left (λ W Nd, append W (generateIntType (AbbrevAssign.Value Nd))) Values W.

Definition generateIntLitActionWrite (Nd : IntCountRef) : Node :=
  create NodeType.Void [].

Definition generateIntLitAction (Nd : IntCountRef) : Node :=
  if ToRead then generateIntLitActionRead Nd else generateIntLitActionWrite Nd.

Definition generateAction (Nd : CountNodePtr) : Node :=
  match Nd with
  | IntCount CntNd => generateIntLitAction CntNd
  | BlockCount isEnter _ => generateBlockAction isEnter
  | DefaultCount isSingle _ => generateDefaultAction isSingle
  | AlignCount _ => generateAlignAction
  | OtherCount _ => create NodeType.Error []
  end.

Definition generateCase (AbbrevIndex : IntType) (Nd : CountNodePtr) : Node :=
  create NodeType.Case [createInt NodeType.U64Const AbbrevIndex Decimal;
                        generateAction Nd].

(** The loop of [generateSwitchStatement], over [Assignments]. *)
Fixpoint appendCases (Nds : list CountNodePtr) (SwitchStmt : Node) : Outcome Node :=
  match Nds with
  | [] => Done SwitchStmt
  | Nd :: Nds =>
      do i <~ getAbbrevIndex Nd ;;
      appendCases Nds (append SwitchStmt (generateCase i Nd))
  end.

Definition generateSwitchStatement : Outcome Node :=
  let SwitchStmt := create NodeType.Switch [] in
  let SwitchStmt := append SwitchStmt generateAbbreviationRead in
  let SwitchStmt := append SwitchStmt (create NodeType.Error []) in
  appendCases Assignments SwitchStmt.

Definition generateStartFunction : Outcome Node :=
  let Fcn := create NodeType.Define [] in
  let Fcn := append Fcn (getPredefined AbbrevAssign.File) in
  let Fcn := append Fcn (create NodeType.NoParams []) in
  let Fcn := append Fcn (create NodeType.NoLocals []) in
  do SwitchStmt <~ generateSwitchStatement ;;
  Done (append Fcn (create NodeType.LoopUnbounded [SwitchStmt])).

Definition generateFunctions (Alg : Node) : Outcome Node :=
  if negb (UseCismModel Flags) then
    do Fcn <~ generateStartFunction ;;
    Done (append Alg Fcn)
  else
    let Alg := append Alg (generateEnclosingAlg "cism"%string) in
    let Alg := append Alg (generateRename (getOrCreateSymbol CategorizeName)
                                          (getOrCreateSymbol (CategorizeName +:+ OldName))) in
    let Alg := append Alg (generateRename (getOrCreateSymbol OpcodeName)
                                          (getOrCreateSymbol (OpcodeName +:+ OldName))) in
    let Alg := append Alg generateOpcodeFunction in
    do Fcn <~ generateCategorizeFunction ;;
    Done (append Alg Fcn).

Definition getCodeSymtab : Outcome SymbolTable :=
  let Alg := create NodeType.Algorithm [] in
  let Alg := append Alg (generateHeader NodeType.SourceHeader
                                        CasmBinaryMagic CasmBinaryVersion) in
  let Alg :=
    if UseCismModel Flags then
      if ToRead then
        let Alg := append Alg (generateHeader NodeType.ReadHeader
                                              CismBinaryMagic CismBinaryVersion) in
        append Alg (generateHeader NodeType.WriteHeader
                                   WasmBinaryMagic WasmBinaryVersionD)
      else
        let Alg := append Alg (generateHeader NodeType.ReadHeader
                                              WasmBinaryMagic WasmBinaryVersionD) in
        append Alg (generateHeader NodeType.WriteHeader
                                   CismBinaryMagic CismBinaryVersion)
    else
      append Alg (generateHeader NodeType.ReadHeader
                                 WasmBinaryMagic WasmBinaryVersionD) in
  do Alg <~ generateFunctions Alg ;;
  Done (mkSymbolTable Alg (UseCismModel Flags)).

End Generator.

(** *** Reading generated trees *)

(** Whether a node of class [T] occurs in the tree. *)
Fixpoint occurs (T : NodeType.t) (Nd : Node) : bool :=
  match Nd with
  | mkNode ty _ kids => bool_decide (ty = T) || existsb (occurs T) kids
  end.

(** The magic number and version of the first header of class [T] among
    the kids of an algorithm. *)
Definition headerValues (T : NodeType.t) (Alg : Node) : option (Z * Z) :=
  match find (λ Kid, bool_decide (getType Kid = T)) (getKids Alg) with
  | Some (mkNode _ _ [mkNode _ (IntValue m _) _; mkNode _ (IntValue v _) _]) =>
      Some (m, v)
  | _ => None
  end.

(** *** Pointers into the count trie *)



(** Assignments for the sample root: its abbreviated path and its four
    singletons. *)
Definition sampleAssignments : list CountNodePtr :=
  [BlockCount true (AbbrevAssign.SingletonNode (Some 3));
   IntCount (mkRef AbbrevAssign.node777 [AbbrevAssign.node77; AbbrevAssign.node7]);
   DefaultCount true (AbbrevAssign.SingletonNode (Some 1));
   BlockCount false (AbbrevAssign.SingletonNode (Some 4));
   DefaultCount false (AbbrevAssign.SingletonNode (Some 2))].

End AbbrevCodegen.

(** ** The evaluator ([interp/Interpreter.cpp]) *)

Module InterpEval.
Import Interp.

#[global] Instance NodeType_eq_dec : EqDecision NodeType.
Proof. solve_decision. Defined.

(** [isa<T>(Nd)] for a node class [T] with a single node type. *)
Definition isa (T : NodeType) (Nd : Node) : bool := bool_decide (getType Nd = T).

(** [Nd->getNumKids()], an [int]. *)
Definition getNumKids (Nd : Node) : Z := Z.of_nat (length (getKids Nd)).

Section Evaluator.

Variable fillPage : Queue → Queue.
Variable pushRecordsLastRead : bool.
Variable getDefineDefinition : Node → option Node.
Variable getCase : Node → IntType → option Node.
Variable atByteEob : Queue → ReadCursor → bool.

(** [ReadPos.atReadBitEob()] ([stream/ReadCursor.h]). *)
Variable atReadBitEob : Queue → ReadCursor → bool.

(** [P->getDefiningSymbol() == Caller->getCallName()] for a parameter [P]
    and an entry [Caller] of the evaluation stack: a comparison of pointers
    to symbol nodes ([sexp/Ast.h]). *)
Variable callsDefiningSymbol : Node → Node → bool.

(** The write methods of the writer object for the formats other than
    plain [Uint8], selected by the type of the format node and given its
    bit count: [Writer->writeUint8Bits(Value, WritePos, n)],
    [Writer->writeVarint32(Value, WritePos)] and so on. *)
Variable writeFormat :
  NodeType → IntType → IntType → Queue → WriteCursor → Queue * WriteCursor.

(** [Sel->getWriteCase(Value, SelShift, CaseMask)] ([sexp/Ast.cpp]): the
    case, and the out-parameters [SelShift] ([uint32_t]) and [CaseMask]. *)
Variable getWriteCase : Node → IntType → option Node * Z * IntType.

(** The loop of [getParam] over the evaluation stack, innermost call
    first. *)
Fixpoint findCaller (P : Node) (ParamIndex : IntType) (Callers : list Node)
  : Outcome Node :=
  match Callers with
  | [] => fatal
  | Caller :: Callers =>
      do _ <~ assert (isa OpEval Caller) ;;
      if negb (callsDefiningSymbol P Caller) then findCaller P ParamIndex Callers
      else if ParamIndex <? toIntType (getNumKids Caller)
           then getKid Caller (Z.to_nat ParamIndex)
           else findCaller P ParamIndex Callers
  end.

(** [getParam(P)]; the evaluation stack has its innermost call last. *)
Definition getParam (P : Node) (EvalStack : list Node) : Outcome Node :=
  match EvalStack with
  | [] => fatal
  | _ =>
      do _ <~ assert (isa OpParam P) ;;
      let ParamIndex := toIntType (getValue P + 1) in
      findCaller P ParamIndex (rev EvalStack)
  end.

(** [write(Value, Nd)] called from [eval]: [Call] pushes the Write frame
    for [Nd] and [Value] is pushed as its argument, [readBackFilled] waits
    for headroom and [runMethods] runs the Write case for the node's type.
    The OpParam case is written for the frame stack: on entry it sets its
    state to Exit and calls the Write frame of the argument with [Call], and
    when dispatched again in state Exit it pops itself. The OpOpcode case
    calls [write] from inside [runMethods] and stays in state Enter: when
    the selector's frame has written [Value >> SelShift] and is popped, the
    Opcode frame is dispatched again (see [dispatchAgain]) and writes the
    selector once more, so the write of the case and [FrameStack.pop()] are
    not reached. [fuel] bounds the chain of parameters followed and the
    dispatches, [wait] the wait. *)
Fixpoint write (fuel wait : nat) (EvalStack : list Node) (Value : IntType)
    (Nd : Node) (st : Interpreter) {struct fuel} : Outcome (IntType * Interpreter) :=
  match fuel with
  | O => Diverging
  | S fuel =>
      do st <~ awaitHeadroom fillPage wait st ;;
      match getType Nd with
      | OpParam =>
          do P <~ getParam Nd EvalStack ;;
          do '(_, st) <~ write fuel wait EvalStack Value P st ;;
          Done (Value, st)
      | OpUint8NoArgs =>
          let '(out, wpos) := writeUint8 (Writer st) Value (OutputQueue st) (WritePos st) in
          Done (Value, setOutput st out wpos)
      | OpUint8OneArg | OpUint32NoArgs | OpUint32OneArg
      | OpUint64NoArgs | OpUint64OneArg
      | OpVarint32NoArgs | OpVarint32OneArg | OpVarint64NoArgs | OpVarint64OneArg
      | OpVaruint32NoArgs | OpVaruint32OneArg
      | OpVaruint64NoArgs | OpVaruint64OneArg =>
          let '(out, wpos) := writeFormat (getType Nd) (getValue Nd) Value
                                          (OutputQueue st) (WritePos st) in
          Done (Value, setOutput st out wpos)
      | OpI32Const | OpI64Const | OpU8Const | OpU32Const | OpU64Const
      | OpMap | OpPeek | OpVoid =>
          Done (Value, st)
      | OpOpcode =>
          let '(Case, SelShift, CaseMask) := getWriteCase Nd Value in
          do Kid0 <~ getKid Nd 0 ;;
          do '(_, st) <~
             dispatchAgain (S fuel)
               (write fuel wait EvalStack (Z.shiftr Value SelShift) Kid0) st ;;
          match Case with
          | Some Case =>
              do Kid1 <~ getKid Case 1 ;;
              do '(_, st) <~
                 dispatchAgain (S fuel)
                   (write fuel wait EvalStack (Z.land Value CaseMask) Kid1) st ;;
              Done (Value, st)
          | None => Done (Value, st)
          end
      | _ => fatal
      end
  end.

(** [eval(Nd)]. [EvalStack.push_back(Nd); ... eval(Defn); EvalStack.pop_back()]
    brackets the call, so the stack is passed down extended and is what it
    was when the call returns. [fuel] bounds the depth of evaluation and the
    passes of an unbounded loop. *)
Fixpoint eval (fuel wait : nat) (EvalStack : list Node) (Nd : Node)
    (st : Interpreter) {struct fuel} : Outcome (IntType * Interpreter) :=
  match fuel with
  | O => Diverging
  | S fuel =>
      let evalKids :=
        fix evalKids (Kids : list Node) (st : Interpreter) : Outcome Interpreter :=
          match Kids with
          | [] => Done st
          | Kid :: Kids =>
              do '(_, st) <~ eval fuel wait EvalStack Kid st ;;
              evalKids Kids st
          end in
      let ReturnValue := 0 in
      match getType Nd with
      | NO_SUCH_NODETYPE | OpConvert | OpFilter | OpBlockEndNoArgs | OpSymbol =>
          fatal
      | OpFile | OpSection | OpUndefine | OpRename | OpVersion | OpUnknownSection =>
          fatal
      | OpParam =>
          do P <~ getParam Nd EvalStack ;;
          eval fuel wait EvalStack P st
      | OpDefine =>
          do Kid2 <~ getKid Nd 2 ;;
          eval fuel wait EvalStack Kid2 st
      | OpMap | OpOpcode =>
          do '(v, st) <~ read fillPage pushRecordsLastRead wait Nd st ;;
          write fuel wait EvalStack v Nd st
      | OpLastRead =>
          read fillPage pushRecordsLastRead wait Nd st
      | OpSwitch =>
          do Kid0 <~ getKid Nd 0 ;;
          do '(Selector, st) <~ eval fuel wait EvalStack Kid0 st ;;
          match getCase Nd Selector with
          | Some Case =>
              do '(_, st) <~ eval fuel wait EvalStack Case st ;;
              Done (ReturnValue, st)
          | None =>
              do Kid1 <~ getKid Nd 1 ;;
              do '(_, st) <~ eval fuel wait EvalStack Kid1 st ;;
              Done (ReturnValue, st)
          end
      | OpCase =>
          do Kid1 <~ getKid Nd 1 ;;
          do '(_, st) <~ eval fuel wait EvalStack Kid1 st ;;
          Done (ReturnValue, st)
      | OpBlock =>
          do Kid0 <~ getKid Nd 0 ;;
          do st <~ decompressBlock (eval fuel wait EvalStack) atByteEob wait
                                   (Some Kid0) st ;;
          Done (ReturnValue, st)
      | OpAnd =>
          do Kid0 <~ getKid Nd 0 ;;
          do '(v0, st) <~ eval fuel wait EvalStack Kid0 st ;;
          if negb (v0 =? 0) then
            do Kid1 <~ getKid Nd 1 ;;
            do '(v1, st) <~ eval fuel wait EvalStack Kid1 st ;;
            Done (if negb (v1 =? 0) then 1 else ReturnValue, st)
          else Done (ReturnValue, st)
      | OpNot =>
          do Kid0 <~ getKid Nd 0 ;;
          do '(v0, st) <~ eval fuel wait EvalStack Kid0 st ;;
          Done (if v0 =? 0 then 1 else ReturnValue, st)
      | OpOr =>
          do Kid0 <~ getKid Nd 0 ;;
          do '(v0, st) <~ eval fuel wait EvalStack Kid0 st ;;
          if negb (v0 =? 0) then Done (1, st)
          else
            do Kid1 <~ getKid Nd 1 ;;
            do '(v1, st) <~ eval fuel wait EvalStack Kid1 st ;;
            Done (if negb (v1 =? 0) then 1 else ReturnValue, st)
      | OpStream =>
          do v <~ evalStream Nd st ;;
          Done (v, st)
      | OpError => fatal
      | OpEval =>
          do Kid0 <~ getKid Nd 0 ;;
          do _ <~ assert (isa OpSymbol Kid0) ;;
          do Defn <~ match getDefineDefinition Kid0 with
                     | Some Defn => do _ <~ assert (isa OpDefine Defn) ;; Done Defn
                     | None => Aborted
                     end ;;
          do NumParams <~ getKid Defn 1 ;;
          do _ <~ assert (isa OpParam NumParams) ;;
          let NumCallArgs := getNumKids Nd - 1 in
          if negb (getValue NumParams =? toIntType NumCallArgs) then fatal
          else eval fuel wait (EvalStack ++ [Nd]) Defn st
      | OpIfThen =>
          do Kid0 <~ getKid Nd 0 ;;
          do '(v0, st) <~ eval fuel wait EvalStack Kid0 st ;;
          if negb (v0 =? 0) then
            do Kid1 <~ getKid Nd 1 ;;
            do '(_, st) <~ eval fuel wait EvalStack Kid1 st ;;
            Done (ReturnValue, st)
          else Done (ReturnValue, st)
      | OpIfThenElse =>
          do Kid0 <~ getKid Nd 0 ;;
          do '(v0, st) <~ eval fuel wait EvalStack Kid0 st ;;
          do Kid <~ getKid Nd (if negb (v0 =? 0) then 1 else 2) ;;
          do '(_, st) <~ eval fuel wait EvalStack Kid st ;;
          Done (ReturnValue, st)
      | OpI32Const | OpI64Const | OpU8Const | OpU32Const | OpU64Const =>
          read fillPage pushRecordsLastRead wait Nd st
      | OpLoop =>
          do Kid0 <~ getKid Nd 0 ;;
          do '(Count, st) <~ eval fuel wait EvalStack Kid0 st ;;
          do st <~ (fix loop (n : nat) (st : Interpreter) : Outcome Interpreter :=
                      match n with
                      | O => Done st
                      | S n =>
                          do st <~ evalKids (tail (getKids Nd)) st ;;
                          loop n st
                      end) (Z.to_nat Count) st ;;
          Done (ReturnValue, st)
      | OpLoopUnbounded =>
          if atReadBitEob (InputQueue st) (ReadPos st) then Done (ReturnValue, st)
          else
            do st <~ evalKids (getKids Nd) st ;;
            eval fuel wait EvalStack Nd st
      | OpWrite =>
          do Kid0 <~ getKid Nd 0 ;;
          do '(v, st) <~ read fillPage pushRecordsLastRead wait Kid0 st ;;
          do Kid1 <~ getKid Nd 1 ;;
          write fuel wait EvalStack v Kid1 st
      | OpPeek =>
          read fillPage pushRecordsLastRead wait Nd st
      | OpRead =>
          do Kid1 <~ getKid Nd 1 ;;
          read fillPage pushRecordsLastRead wait Kid1 st
      | OpSequence =>
          do st <~ evalKids (getKids Nd) st ;;
          Done (ReturnValue, st)
      | OpUint8NoArgs | OpUint8OneArg | OpUint32NoArgs | OpUint32OneArg
      | OpUint64NoArgs | OpUint64OneArg
      | OpVarint32NoArgs | OpVarint32OneArg | OpVarint64NoArgs | OpVarint64OneArg
      | OpVaruint32NoArgs | OpVaruint32OneArg
      | OpVaruint64NoArgs | OpVaruint64OneArg =>
          do '(v, st) <~ read fillPage pushRecordsLastRead wait Nd st ;;
          write fuel wait EvalStack v Nd st
      | OpVoid => Done (ReturnValue, st)
      end
  end.

End Evaluator.

(** What evaluation leaves alone: the two stream objects and the flag. *)
Definition sameStreams (st st' : Interpreter) : Prop :=
  Reader st' = Reader st ∧ Writer st' = Writer st ∧
  MinimizeBlockSize st' = MinimizeBlockSize st.

(** The node types whose evaluation only directs control. *)
Definition isControl (T : NodeType) : bool :=
  match T with
  | OpSwitch | OpCase | OpBlock | OpIfThen | OpIfThenElse
  | OpLoop | OpLoopUnbounded | OpSequence | OpVoid => true
  | _ => false
  end.

(** *** Nodes for the scenarios *)

Definition caseNode (key : IntType) (body : Node) : Node :=
  mkNode OpCase NoPayload [constNode key; body].

Definition paramNode (i : IntType) : Node := mkNode OpParam (IntValue i) [].

Definition evalNode (sym : Node) (args : list Node) : Node :=
  mkNode OpEval NoPayload (sym :: args).

Definition symbolNode : Node := mkNode OpSymbol NoPayload [].

(** A case table with the single entry 66. *)
Definition sampleCases (Nd : Node) (v : IntType) : option Node :=
  if v =? 66 then Some (caseNode 66 (constNode 9)) else None.

(** A case table with the single entry 0x142. *)
Definition prefixedCases (Nd : Node) (v : IntType) : option Node :=
  if v =? 322 then Some (caseNode 322 (constNode 9)) else None.

(** A write stream for every format that records the value written. *)
Definition recordFormat (T : NodeType) (bits Value : IntType)
    (q : Queue) (pos : WriteCursor) : Queue * WriteCursor :=
  (record q [Value], step pos 1).

End InterpEval.

(** ** Writing an algorithm out ([sexp/FlattenAst.cpp]) *)

Module FlattenAst.

Local Set Warnings "-register-all".

(** The node types [flattenNode] has a case for. *)
Inductive NodeType :=
| NO_SUCH_NODETYPE | OpUnknownSection
(** Modelled from the spec: the cases generated from
    [AST_INTEGERNODE_TABLE], which is not among the sources, are those of
    the integer-literal nodes. *)
| OpInteger (tag : nat)
| OpAnd | OpBlock | OpBitwiseAnd | OpBitwiseNegate | OpBitwiseOr | OpBitwiseXor
| OpCallback | OpCase | OpConvert | OpOr | OpNot | OpError
| OpIfThen | OpIfThenElse | OpLastSymbolIs | OpLoop | OpLoopUnbounded
| OpPeek | OpRead | OpUndefine | OpLastRead | OpRename | OpSet
| OpLiteralDef | OpLiteralUse | OpVoid
| OpFile | OpFileHeader | OpStream | OpSection
| OpDefine | OpEval | OpFilter | OpOpcode | OpMap | OpSwitch | OpSequence
| OpWrite | OpSymbol.

(** What a node carries besides its kids, as its class exposes it: an
    integer node its default flag, format tag, value and, when it defines
    one, its integer type format; a stream node its encoding; a symbol its
    name. *)
Inductive Payload :=
| NoPayload
| IntegerPayload (isDefaultValue : bool) (getFormat : Z) (getValue : IntType)
                 (getIntTypeFormat : option IntTypeFormat)
| StreamPayload (getEncoding : Z)
| SymbolPayload (getName : list Z).

Inductive Node := mkNode {
  getType : NodeType;
  getPayload : Payload;
  getKids : list Node
}.

(** The integer writer is modelled by the calls it receives. *)
Inductive WriterCall :=
| Write (v : Z)
| WriteUint8 (v : Z)
| WriteAction (enter : bool)      (* the block enter or block exit callback *)
| WriteHeaderValue (v : IntType) (f : IntTypeFormat)
| WriteFreezeEof.

Record FlattenAst := mkFlattenAst {
  Writer : list WriterCall;
  SectionSymtab : list (list Z);     (* the vector of installed symbol names *)
  FreezeEofOnDestruct : bool;
  HasErrors : bool
}.

(** The constructor. *)
Definition newFlattenAst : FlattenAst := mkFlattenAst [] [] true false.

Definition call (c : WriterCall) (s : FlattenAst) : FlattenAst :=
  mkFlattenAst (Writer s ++ [c]) (SectionSymtab s) (FreezeEofOnDestruct s) (HasErrors s).
Definition setSectionSymtab (s : FlattenAst) (v : list (list Z)) : FlattenAst :=
  mkFlattenAst (Writer s) v (FreezeEofOnDestruct s) (HasErrors s).

(** Both overloads of [reportError]. *)
Definition reportError (s : FlattenAst) : FlattenAst :=
  mkFlattenAst (Writer s) (SectionSymtab s) (FreezeEofOnDestruct s) true.

Definition freezeOutput (s : FlattenAst) : FlattenAst :=
  if negb (FreezeEofOnDestruct s) then s
  else
    let s := mkFlattenAst (Writer s) (SectionSymtab s) false (HasErrors s) in
    call WriteFreezeEof s.

(** The destructor. *)
Definition destroy (s : FlattenAst) : FlattenAst := freezeOutput s.

Section Flatten.

(** The integer value of a node type ([sexp/Ast.def]). *)
Variable opcode : NodeType → Z.

(** [SectionSymtab.installSection(Section)] followed by
    [SectionSymtab.getVector()]: the names of the symbols of the section,
    and [SectionSymtab.getSymbolIndex(Sym)] ([sexp/Ast.h]). *)
Variable installSection : Node → list (list Z).
Variable getSymbolIndex : list (list Z) → Node → Z.

(** The loop of the [OpFileHeader] case; [return] leaves [flattenNode]. *)
Fixpoint writeHeaderValues (Kids : list Node) (s : FlattenAst) : FlattenAst :=
  match Kids with
  | [] => s
  | Kid :: Kids =>
      match getType Kid, getPayload Kid with
      | OpInteger _, IntegerPayload _ _ v (Some f) =>
          writeHeaderValues Kids (call (WriteHeaderValue v f) s)
      | _, _ => reportError s   (* no integer node, or no format defined *)
      end
  end.

(** Whether plain [char] is a signed type, which the C++ implementation
    defines. *)
Variable charIsSigned : bool.

(** [Writer->write(SymName[i])]: the character, a [char] holding the byte
    [c], is converted to the [IntType] parameter of [write]. As a signed
    [char] a byte from 128 on is negative, and is written as
    [2^64 - 256 + c]. *)
Definition charValue (c : Z) : IntType :=
  if charIsSigned then toIntType (swrap 8 c) else wrap 8 c.

(** The symbols of the section vector: the size of each name, then its
    characters. *)
Fixpoint writeSymbols (Vector : list (list Z)) (s : FlattenAst) : FlattenAst :=
  match Vector with
  | [] => s
  | SymName :: Vector =>
      let s := call (Write (Z.of_nat (length SymName))) s in
      let s := fold_left (λ s c, call (Write (charValue c)) s) SymName s in
      writeSymbols Vector s
  end.

Fixpoint flattenNode (Nd : Node) (s : FlattenAst) {struct Nd} : Outcome FlattenAst :=
  if HasErrors s then Done s
  else
    match Nd with
    | mkNode Opcode payload Kids =>
        let flattenKids :=
          fix flattenKids (Kids : list Node) (s : FlattenAst) : Outcome FlattenAst :=
            match Kids with
            | [] => Done s
            | Kid :: Kids =>
                do s <~ flattenNode Kid s ;;
                flattenKids Kids s
            end in
        match Opcode with
        | NO_SUCH_NODETYPE | OpUnknownSection =>
            Done (reportError (reportError s))
        | OpInteger _ =>
            match payload with
            | IntegerPayload isDefaultValue getFormat getValue _ =>
                let s := call (Write (opcode Opcode)) s in
                if isDefaultValue then Done (call (Write 0) s)
                else
                  let s := call (Write (getFormat + 1)) s in
                  Done (call (Write getValue) s)
            | _ => Aborted
            end
        | OpAnd | OpBlock | OpBitwiseAnd | OpBitwiseNegate | OpBitwiseOr
        | OpBitwiseXor | OpCallback | OpCase | OpConvert | OpOr | OpNot | OpError
        | OpIfThen | OpIfThenElse | OpLastSymbolIs | OpLoop | OpLoopUnbounded
        | OpPeek | OpRead | OpUndefine | OpLastRead | OpRename | OpSet
        | OpLiteralDef | OpLiteralUse | OpVoid =>
            do s <~ flattenKids Kids s ;;
            Done (call (Write (opcode Opcode)) s)
        | OpFile =>
            flattenKids Kids s
        | OpFileHeader =>
            Done (writeHeaderValues Kids s)
        | OpStream =>
            match payload with
            | StreamPayload getEncoding =>
                let s := call (Write (opcode Opcode)) s in
                Done (call (Write getEncoding) s)
            | _ => Aborted
            end
        | OpSection =>
            let s := call (WriteAction true) s in
            let s := setSectionSymtab s (installSection Nd) in
            let Vector := SectionSymtab s in
            let s := call (Write (Z.of_nat (length Vector))) s in
            let s := writeSymbols Vector s in
            do s <~ flattenKids Kids s ;;
            let s := call (WriteUint8 (wrap 8 (opcode Opcode))) s in
            let s := call (WriteAction false) s in
            Done (setSectionSymtab s [])
        | OpDefine | OpEval | OpFilter | OpOpcode | OpMap | OpSwitch
        | OpSequence | OpWrite =>
            do s <~ flattenKids Kids s ;;
            let s := call (Write (opcode Opcode)) s in
            Done (call (Write (Z.of_nat (length Kids))) s)
        | OpSymbol =>
            let s := call (Write (opcode Opcode)) s in
            Done (call (Write (getSymbolIndex (SectionSymtab s) Nd)) s)
        end
    end.

(** [flatten()], for the installed root [Root]. *)
Definition flatten (Root : Node) (s : FlattenAst) : Outcome (bool * FlattenAst) :=
  do s <~ flattenNode Root s ;;
  let s := freezeOutput s in
  Done (negb (HasErrors s), s).

End Flatten.

(** *** Reading the calls *)

(** The nesting depth after the calls [out], starting at depth [d]: a
    block enter action opens a level, a block exit action closes one; there
    is no depth when an exit has nothing to close. *)
Fixpoint nesting (d : nat) (out : list WriterCall) : option nat :=
  match out with
  | [] => Some d
  | WriteAction true :: out => nesting (S d) out
  | WriteAction false :: out =>
      match d with
      | O => None
      | S d => nesting d out
      end
  | _ :: out => nesting d out
  end.

(** The block actions among the calls are well bracketed. *)
Definition balanced (out : list WriterCall) : Prop :=
  ∀ d, nesting d out = Some d.

(** Calls that are neither a block action nor a freeze. *)
Definition neutral (out : list WriterCall) : Prop :=
  Forall (λ c, match c with
               | WriteAction _ | WriteFreezeEof => False
               | _ => True
               end) out.

(** How often the calls freeze the output. *)
Fixpoint freezes (out : list WriterCall) : nat :=
  match out with
  | [] => 0
  | WriteFreezeEof :: out => S (freezes out)
  | _ :: out => freezes out
  end.

(** A section holding a literal and a node that cannot be written. *)
Definition sampleSection : Node :=
  mkNode OpSection NoPayload
    [mkNode (OpInteger 0) (IntegerPayload false 1 42 None) [];
     mkNode OpSequence NoPayload
       [mkNode NO_SUCH_NODETYPE NoPayload [];
        mkNode OpVoid NoPayload []]].

(** Node types numbered in some way. *)
Definition sampleOpcode (T : NodeType) : Z :=
  match T with
  | OpSection => 300
  | OpSequence => 7
  | OpInteger _ => 5
  | _ => 1
  end.

End FlattenAst.

(** * Properties *)

(** ** Machine integers and outcomes *)

Lemma wrap_range w v : 0 <= w -> 0 <= wrap w v < 2 ^ w.
Proof. intros Hw. unfold wrap. apply Z.mod_pos_bound. by apply Z.pow_pos_nonneg. Qed.

Lemma wrap_small w v : 0 <= v < 2 ^ w -> wrap w v = v.
Proof. intros H. unfold wrap. by apply Z.mod_small. Qed.

Lemma obind_Done {A B} (m : Outcome A) (k : A -> Outcome B) (b : B) :
  obind m k = Done b -> exists a, m = Done a /\ k a = Done b.
Proof. destruct m; simpl; intros H; try discriminate. eauto. Qed.

(** ** Properties of the abbreviation rewriter *)

Module AbbrevAssignProps.
Import AbbrevAssign AbbrevAssignTerms.

Lemma hasAbbrevIndex_true (n : IntCountNode) :
  hasAbbrevIndex n = true ↔ is_Some (AbbrevIndex n).
Proof. unfold hasAbbrevIndex. by rewrite bool_decide_eq_true. Qed.

Lemma hasAbbrevIndex_false (n : IntCountNode) :
  hasAbbrevIndex n = false ↔ AbbrevIndex n = None.
Proof.
  unfold hasAbbrevIndex. rewrite bool_decide_eq_false.
  unfold abbrevIndexOf, IntCountNode_abbreviated.
  rewrite <- eq_None_not_Some. done.
Qed.

Lemma findPath_empty p : findPath ∅ p = None.
Proof. destruct p; simpl; [done|]. by rewrite lookup_empty. Qed.

Lemma findPath_cons succs v p :
  findPath succs (v :: p) =
  succs !! v ≫= λ n, match p with [] => Some n | _ => findPath (Successors n) p end.
Proof. simpl. by destruct (succs !! v). Qed.

Lemma deepest_empty vals : deepest ∅ vals = None.
Proof. destruct vals; simpl; [done|]. by rewrite lookup_empty. Qed.

Lemma wfTrie_empty d : wfTrie d ∅.
Proof. intros p n. by rewrite findPath_empty. Qed.

Lemma wfTrie_intro d succs :
  (∀ v n, succs !! v = Some n →
          PathLength n = S d ∧ wfTrie (S d) (Successors n)) →
  wfTrie d succs.
Proof.
  intros H [|v p] n; simpl; [done|].
  destruct (succs !! v) as [m|] eqn:E; [|done].
  destruct (H v m E) as [Hl Hw].
  destruct p as [|u p].
  - intros [= <-]. simpl. lia.
  - intros Hf. apply Hw in Hf. simpl in *. lia.
Qed.

Lemma wfTrie_lookup d succs v n :
  wfTrie d succs → succs !! v = Some n →
  PathLength n = S d ∧ wfTrie (S d) (Successors n).
Proof.
  intros Hw E. split.
  - specialize (Hw [v] n). cbn [findPath] in Hw. rewrite E in Hw.
    rewrite Hw; [simpl; lia | done].
  - intros [|u p] m Hf; [done|].
    specialize (Hw (v :: u :: p) m). cbn [findPath] in Hw. rewrite E in Hw.
    rewrite Hw; [simpl; lia | done].
Qed.

(** The node [lookup] returns sits one level below its parent, and its
    subtree is consistent. *)
Lemma lookup_wf d succs v :
  wfTrie d succs →
  PathLength (lookup succs d v) = S d ∧
  wfTrie (S d) (Successors (lookup succs d v)).
Proof.
  intros Hw. unfold lookup.
  destruct (succs !! v) as [n|] eqn:E; simpl.
  - by eapply wfTrie_lookup.
  - split; [done | apply wfTrie_empty].
Qed.

Lemma abbrevAt_cons succs v p :
  abbrevAt succs (v :: p) =
  match succs !! v with
  | None => None
  | Some n => match p with
              | [] => AbbrevIndex n
              | _ => abbrevAt (Successors n) p
              end
  end.
Proof.
  unfold abbrevAt. cbn [findPath].
  destruct (succs !! v) as [n|]; [|done]. by destruct p.
Qed.

Lemma abbrevAt_empty p : abbrevAt ∅ p = None.
Proof. unfold abbrevAt. by rewrite findPath_empty. Qed.

Lemma lookup_abbrev d succs v :
  AbbrevIndex (lookup succs d v) = abbrevAt succs [v].
Proof.
  rewrite abbrevAt_cons. unfold lookup. by destruct (succs !! v).
Qed.

Lemma lookup_abbrev_below d succs v u q :
  abbrevAt (Successors (lookup succs d v)) (u :: q) = abbrevAt succs (v :: u :: q).
Proof.
  rewrite (abbrevAt_cons succs). unfold lookup.
  destruct (succs !! v) as [n|]; simpl; [done|].
  apply abbrevAt_empty.
Qed.

(** The walk keeps the trie consistent and assigns no new index. *)
Lemma walk_preserves vals : ∀ succs d Max,
  wfTrie d succs →
  wfTrie d (walk succs d vals Max).2 ∧
  ∀ p, abbrevAt (walk succs d vals Max).2 p = abbrevAt succs p.
Proof.
  induction vals as [|v vs IH]; intros succs d Max Hw; cbn [walk]; [done|].
  destruct (lookup_wf d succs v Hw) as [Hl Hs].
  pose proof (lookup_abbrev d succs v) as Hi.
  pose proof (lookup_abbrev_below d succs v) as Hb.
  set (Nd := lookup succs d v) in *.
  set (Max' := if hasAbbrevIndex Nd then Some Nd else Max).
  rewrite Hl.
  destruct (IH (Successors Nd) (S d) Max' Hs) as [Hk Ha].
  destruct (walk (Successors Nd) (S d) vs Max') as [M kids]; cbn [fst snd] in *.
  split.
  - apply wfTrie_intro. intros u n. rewrite lookup_insert.
    case_decide as Huv.
    + intros [= <-]. done.
    + intros E. by eapply wfTrie_lookup.
  - intros [|u q]; [done|].
    rewrite abbrevAt_cons, lookup_insert. case_decide as Huv.
    + subst u. destruct q as [|u' q]; cbn [setSuccessors AbbrevIndex Successors].
      * done.
      * by rewrite Ha, Hb.
    + by rewrite abbrevAt_cons.
Qed.

(** The loop computes [deepest]. *)
Lemma walk_Max vals : ∀ succs d Max,
  (walk succs d vals Max).1 = from_option Some Max (deepest succs vals).
Proof.
  induction vals as [|v vs IH]; intros succs d Max; simpl; [done|].
  specialize (IH (Successors (lookup succs d v)) (PathLength (lookup succs d v))
                 (if hasAbbrevIndex (lookup succs d v)
                  then Some (lookup succs d v) else Max)).
  destruct (walk _ _ vs _) as [M kids]; simpl in *. subst M.
  unfold lookup. destruct (succs !! v) as [n|]; simpl.
  - destruct (deepest (Successors n) vs); simpl; [done|].
    by destruct (hasAbbrevIndex n).
  - by rewrite deepest_empty.
Qed.

(** [deepest] is the longest assigned prefix. *)
Lemma deepest_None vals : ∀ succs,
  deepest succs vals = None →
  ∀ q m, q `prefix_of` vals → findPath succs q = Some m → AbbrevIndex m = None.
Proof.
  induction vals as [|v vs IH]; intros succs Hd q m Hq Hf.
  - apply prefix_nil_inv in Hq. by subst q.
  - destruct q as [|u q]; [done|].
    pose proof (prefix_cons_inv_1 _ _ _ _ Hq) as ->.
    apply prefix_cons_inv_2 in Hq.
    cbn [deepest findPath] in Hd, Hf.
    destruct (succs !! v) as [n|]; [|done].
    destruct (deepest (Successors n) vs) eqn:Hd'; [done|].
    destruct (hasAbbrevIndex n) eqn:Hh; [done|].
    destruct q as [|u q].
    + injection Hf as <-. by apply hasAbbrevIndex_false.
    + by eapply IH.
Qed.

Lemma deepest_Some vals : ∀ succs m,
  deepest succs vals = Some m →
  ∃ p, p ≠ [] ∧ p `prefix_of` vals ∧ findPath succs p = Some m ∧
       is_Some (AbbrevIndex m) ∧
       ∀ q m', q `prefix_of` vals → findPath succs q = Some m' →
               is_Some (AbbrevIndex m') → (length q ≤ length p)%nat.
Proof.
  induction vals as [|v vs IH]; intros succs m Hd; [done|].
  cbn [deepest] in Hd.
  destruct (succs !! v) as [n|] eqn:E; [|done].
  destruct (deepest (Successors n) vs) as [m0|] eqn:Hd'.
  - injection Hd as ->.
    destruct (IH _ _ Hd') as (p & Hne & Hp & Hf & Hi & Hmax).
    exists (v :: p). split_and!; [done | by apply prefix_cons | | done |].
    + cbn [findPath]. rewrite E. by destruct p.
    + intros [|u q] m' Hq Hf' Hi'; [simpl; lia|].
      pose proof (prefix_cons_inv_1 _ _ _ _ Hq) as ->.
      apply prefix_cons_inv_2 in Hq.
      cbn [findPath] in Hf'. rewrite E in Hf'.
      destruct q as [|u q]; [simpl; lia|].
      specialize (Hmax _ _ Hq Hf' Hi'). simpl in *. lia.
  - destruct (hasAbbrevIndex n) eqn:Hh; [|done]. injection Hd as ->.
    exists [v]. split_and!; [done | | | by apply hasAbbrevIndex_true |].
    + apply prefix_cons, prefix_nil.
    + cbn [findPath]. by rewrite E.
    + intros [|u q] m' Hq Hf' Hi'; [simpl; lia|].
      pose proof (prefix_cons_inv_1 _ _ _ _ Hq) as ->.
      apply prefix_cons_inv_2 in Hq.
      cbn [findPath] in Hf'. rewrite E in Hf'.
      destruct q as [|u q]; [simpl; lia|].
      pose proof (deepest_None _ _ Hd' _ _ Hq Hf') as Hn.
      rewrite Hn in Hi'. by destruct Hi'.
Qed.

Lemma popFront_drop k b : popFront k b = drop k b.
Proof.
  revert b. induction k as [|k IH]; intros [|x b]; simpl; auto.
Qed.

(** *** Configuration and groups *)

Lemma sameConfig_refl w : sameConfig w w.
Proof. by repeat split. Qed.

Lemma sameConfig_trans w1 w2 w3 :
  sameConfig w1 w2 → sameConfig w2 w3 → sameConfig w1 w3.
Proof.
  intros (?&?&?&?&?&?&?&?&H12) (?&?&?&?&?&?&?&?&H23).
  unfold sameConfig. split_and!; [congruence.. | intros p; by rewrite H23].
Qed.

Lemma groupCalls_config w w' g : sameConfig w w' → groupCalls w' g = groupCalls w g.
Proof.
  intros (_&Ha&Hd&Hl&_). unfold groupCalls. by rewrite Ha, Hd, Hl.
Qed.

Lemma groupsCalls_config w w' (gs : list Group) :
  sameConfig w w' → gs ≫= groupCalls w' = gs ≫= groupCalls w.
Proof.
  intros H. induction gs as [|g gs IH]; [done|].
  rewrite !bind_cons, IH. by rewrite (groupCalls_config w w').
Qed.

Lemma groupOk_config w w' g :
  sameConfig w w' → groupOk (Root w) g → groupOk (Root w') g.
Proof.
  intros (_&_&_&_&Hs&Hm&_&_&Hp). destruct g; simpl.
  - by rewrite Hp.
  - by rewrite Hs.
  - by rewrite Hm.
Qed.

Lemma defaultGroups_values iS iM vs :
  defaultGroups iS iM vs ≫= groupValues = vs.
Proof.
  destruct vs as [|v [|v' vs]]; simpl; [done..|]. by rewrite app_nil_r.
Qed.

Lemma defaultGroups_ok r iS iM vs :
  SingletonIndex (getDefaultSingle r) = Some iS →
  SingletonIndex (getDefaultMultiple r) = Some iM →
  Forall (groupOk r) (defaultGroups iS iM vs).
Proof.
  intros HS HM. destruct vs as [|v [|v' vs]]; simpl.
  - constructor.
  - by apply Forall_singleton.
  - apply Forall_singleton. split; [done | simpl; lia].
Qed.

(** *** The private steps *)

Lemma writeValues_spec vs f : ∀ w,
  writeValues vs f w =
  setWriter w (Writer w ++ map (λ v, WriteCall f (convert f v)) vs).
Proof.
  unfold writeValues.
  induction vs as [|v vs IH]; intros w; simpl.
  - destruct w; unfold setWriter; simpl. by rewrite app_nil_r.
  - rewrite IH. destruct w; unfold setWriter, writeValueFormat; simpl.
    by rewrite <- app_assoc.
Qed.

(** Flushing emits the queued values as one group and empties the queue. *)
Lemma flushDefaultValues_spec w iS iM :
  SingletonIndex (getDefaultSingle (Root w)) = Some iS →
  SingletonIndex (getDefaultMultiple (Root w)) = Some iM →
  flushDefaultValues w =
  Done (setDefaultValues
          (setWriter w (Writer w ++
             (defaultGroups iS iM (DefaultValues w) ≫= groupCalls w))) []).
Proof.
  intros HS HM. unfold flushDefaultValues, getAbbrevIndex, abbrevIndexOf,
    CountNode_abbreviated.
  destruct w as [r c b cap dv af df lf]; simpl in *.
  rewrite HS, HM.
  destruct dv as [|v [|v' vs]]; simpl.
  - unfold setDefaultValues, setWriter; simpl. by rewrite app_nil_r.
  - unfold setDefaultValues, setWriter, writeValueFormat; simpl.
    by rewrite <- app_assoc.
  - rewrite writeValues_spec.
    unfold setDefaultValues, setWriter, writeValueFormat; simpl.
    rewrite app_nil_r, <- !app_assoc. done.
Qed.

(** One flush step, in full: either the deepest assigned node on the path
    through the buffer is emitted and its path popped, or there is none and
    the front value is queued as a default. *)
Lemma writeFromBuffer_spec w iS iM v0 rest :
  wfTrie 0 (RootSuccessors (Root w)) →
  SingletonIndex (getDefaultSingle (Root w)) = Some iS →
  SingletonIndex (getDefaultMultiple (Root w)) = Some iM →
  Buffer w = v0 :: rest →
  ∃ w', writeFromBuffer w = Done w' ∧
        sameConfig w w' ∧ wfTrie 0 (RootSuccessors (Root w')) ∧
    ((∃ Max i p,
        (walk (RootSuccessors (Root w)) 0 (Buffer w) None).1 = Some Max ∧
        p ≠ [] ∧ p `prefix_of` Buffer w ∧
        findPath (RootSuccessors (Root w)) p = Some Max ∧
        AbbrevIndex Max = Some i ∧ PathLength Max = length p ∧
        (∀ q m, q `prefix_of` Buffer w →
                findPath (RootSuccessors (Root w)) q = Some m →
                is_Some (AbbrevIndex m) → (length q ≤ PathLength Max)%nat) ∧
        Writer w' = Writer w
                    ++ (defaultGroups iS iM (DefaultValues w) ≫= groupCalls w)
                    ++ [WriteCall (AbbrevFormat w) (convert (AbbrevFormat w) i)] ∧
        DefaultValues w' = [] ∧
        Buffer w = p ++ Buffer w')
     ∨ ((walk (RootSuccessors (Root w)) 0 (Buffer w) None).1 = None ∧
        (∀ q m, q `prefix_of` Buffer w →
                findPath (RootSuccessors (Root w)) q = Some m →
                AbbrevIndex m = None) ∧
        Writer w' = Writer w ∧
        DefaultValues w' = DefaultValues w ++ [v0] ∧
        Buffer w' = rest)).
Proof.
  intros Hwf HS HM HB.
  destruct w as [r c b cap dv af df lf]; cbn [Root Buffer Writer DefaultValues
    AbbrevFormat] in *. subst b.
  unfold writeFromBuffer; cbn [Buffer Root].
  pose proof (walk_Max (v0 :: rest) (RootSuccessors r) 0%nat None) as HMax.
  destruct (walk_preserves (v0 :: rest) (RootSuccessors r) 0%nat None Hwf)
    as [Hwf' Hab].
  destruct (walk (RootSuccessors r) 0 (v0 :: rest) None) as [Max kids].
  cbn [fst snd] in *. subst Max.
  destruct (deepest (RootSuccessors r) (v0 :: rest)) as [m|] eqn:Hd;
    cbn [from_option].
  - destruct (deepest_Some _ _ _ Hd) as (p & Hne & Hp & Hf & [i Hi] & Hmax).
    pose proof (Hwf p m Hf) as Hlen. cbn in Hlen.
    unfold getAbbrevIndex, abbrevIndexOf, IntCountNode_abbreviated.
    rewrite Hi. cbn [obind]. unfold forwardAbbrevValue.
    rewrite (flushDefaultValues_spec _ iS iM) by done. cbn [obind].
    eexists. split; [done|]. split_and!.
    + by repeat split.
    + done.
    + left. exists m, i, p. split_and!; try done.
      * intros q m' Hq Hf' Hi'. rewrite Hlen. by eapply Hmax.
      * cbn. by rewrite <- app_assoc.
      * destruct Hp as [k Hk]. cbn. rewrite Hk, Hlen, popFront_drop.
        by rewrite drop_app_length.
  - eexists. split; [done|]. split_and!.
    + by repeat split.
    + done.
    + right. split_and!; try done.
      intros q m Hq Hf. by eapply deepest_None.
Qed.

(** *** Coverage, step by step *)

Lemma sameConfig_sym w w' : sameConfig w w' → sameConfig w' w.
Proof.
  intros (?&?&?&?&?&?&?&?&H). unfold sameConfig.
  split_and!; [congruence.. | intros p; by rewrite H].
Qed.

Lemma covers_refl w : wfTrie 0 (RootSuccessors (Root w)) → covers w w [] [].
Proof.
  intros Hwf. unfold covers. split_and!;
    [apply sameConfig_refl | done | by rewrite app_nil_r | constructor
    | by rewrite app_nil_r].
Qed.

Lemma covers_trans w w' w'' gs gs' fed fed' :
  covers w w' gs fed → covers w' w'' gs' fed' →
  covers w w'' (gs ++ gs') (fed ++ fed').
Proof.
  intros (Hc & Hwf & Hw & Hok & Hv) (Hc' & Hwf' & Hw' & Hok' & Hv').
  unfold covers. split_and!.
  - by eapply sameConfig_trans.
  - done.
  - rewrite Hw', Hw, bind_app, (groupsCalls_config w w') by done.
    by rewrite app_assoc.
  - apply Forall_app. split; [done|].
    eapply Forall_impl; [exact Hok'|]. intros g.
    apply groupOk_config. by apply sameConfig_sym.
  - rewrite bind_app, app_assoc, Hv, <- !app_assoc. f_equal.
    by rewrite Hv'.
Qed.

Lemma flushDefaultValues_covers w iS iM :
  wfTrie 0 (RootSuccessors (Root w)) →
  SingletonIndex (getDefaultSingle (Root w)) = Some iS →
  SingletonIndex (getDefaultMultiple (Root w)) = Some iM →
  ∃ w' gs, flushDefaultValues w = Done w' ∧ covers w w' gs [] ∧
           DefaultValues w' = [] ∧ Buffer w' = Buffer w.
Proof.
  intros Hwf HS HM. rewrite (flushDefaultValues_spec w iS iM) by done.
  eexists _, (defaultGroups iS iM (DefaultValues w)).
  split; [done|]. split_and!; try by destruct w.
  unfold covers. split_and!.
  - destruct w. by repeat split.
  - by destruct w.
  - by destruct w.
  - by apply defaultGroups_ok.
  - rewrite defaultGroups_values. destruct w; unfold pending; simpl.
    by rewrite app_nil_r.
Qed.

Lemma writeFromBuffer_covers w iS iM :
  wfTrie 0 (RootSuccessors (Root w)) →
  SingletonIndex (getDefaultSingle (Root w)) = Some iS →
  SingletonIndex (getDefaultMultiple (Root w)) = Some iM →
  Buffer w ≠ [] →
  ∃ w' gs, writeFromBuffer w = Done w' ∧ covers w w' gs [] ∧
           (length (Buffer w') < length (Buffer w))%nat.
Proof.
  intros Hwf HS HM HB.
  destruct (Buffer w) as [|v0 rest] eqn:HBw; [done|].
  destruct (writeFromBuffer_spec w iS iM v0 rest Hwf HS HM HBw)
    as (w' & Hrun & Hcfg & Hwf' & Hcase).
  rewrite HBw in Hcase.
  destruct Hcase as [(Max & i & p & _ & Hne & Hp & Hf & Hi & Hlen & _ & HW & HD & HBuf)
                    |(_ & _ & HW & HD & HBuf)].
  - exists w', (defaultGroups iS iM (DefaultValues w) ++ [AbbrevGroup i p]).
    split; [done|]. split.
    + unfold covers. split_and!; try done.
      * by rewrite HW, bind_app.
      * apply Forall_app. split; [by apply defaultGroups_ok|].
        apply Forall_singleton. simpl. unfold abbrevAt. by rewrite Hf.
      * unfold pending. rewrite bind_app, defaultGroups_values, HD, HBw, HBuf.
        simpl. by rewrite !app_nil_r, <- app_assoc.
    + rewrite HBuf, length_app. destruct p; [done|]. simpl. lia.
  - exists w', []. split; [done|]. split.
    + unfold covers. split_and!; try done.
      * by rewrite HW, app_nil_r.
      * unfold pending. rewrite HD, HBw, HBuf. simpl.
        by rewrite app_nil_r, <- app_assoc.
    + rewrite HBuf. simpl. lia.
Qed.

Lemma covers_singletons w w' gs fed iS iM :
  covers w w' gs fed →
  SingletonIndex (getDefaultSingle (Root w)) = Some iS →
  SingletonIndex (getDefaultMultiple (Root w)) = Some iM →
  SingletonIndex (getDefaultSingle (Root w')) = Some iS ∧
  SingletonIndex (getDefaultMultiple (Root w')) = Some iM.
Proof.
  intros ((_&_&_&_&Hs&Hm&_) & _) HS HM. by rewrite Hs, Hm.
Qed.

(** The drain loop ends, with an empty buffer, after at most as many steps
    as there are buffered values. *)
Lemma writeUntilBufferEmpty_covers iS iM fuel : ∀ w,
  wfTrie 0 (RootSuccessors (Root w)) →
  SingletonIndex (getDefaultSingle (Root w)) = Some iS →
  SingletonIndex (getDefaultMultiple (Root w)) = Some iM →
  (length (Buffer w) ≤ fuel)%nat →
  ∃ w' gs, writeUntilBufferEmpty fuel w = Done w' ∧ covers w w' gs [] ∧
           Buffer w' = [].
Proof.
  induction fuel as [|fuel IH]; intros w Hwf HS HM Hfuel.
  - destruct (Buffer w) eqn:HB; [|simpl in Hfuel; lia].
    exists w, []. simpl. unfold empty. rewrite HB. simpl.
    split_and!; [done | by apply covers_refl | done].
  - cbn [writeUntilBufferEmpty]. unfold empty. case_bool_decide as HB.
    + exists w, []. split_and!; [done | by apply covers_refl | done].
    + destruct (writeFromBuffer_covers w iS iM Hwf HS HM HB)
        as (w1 & gs1 & Hrun & Hcov & Hlt).
      rewrite Hrun. cbn [obind].
      destruct (covers_singletons _ _ _ _ _ _ Hcov HS HM) as [HS1 HM1].
      destruct (IH w1) as (w' & gs' & Hrun' & Hcov' & HB');
        [apply Hcov | done | done | lia |].
      exists w', (gs1 ++ gs'). split_and!; [done | | done].
      change (@nil Z) with (@nil Z ++ @nil Z). by eapply covers_trans.
Qed.

(** Accepting one value: push, and one flush step when that fills the
    buffer. *)
Lemma bufferValue_covers w iS iM v :
  wfTrie 0 (RootSuccessors (Root w)) →
  SingletonIndex (getDefaultSingle (Root w)) = Some iS →
  SingletonIndex (getDefaultMultiple (Root w)) = Some iM →
  (length (Buffer w) < Capacity w)%nat →
  ∃ w' gs, bufferValue v w = Done w' ∧ covers w w' gs [v] ∧
           (length (Buffer w') < Capacity w')%nat.
Proof.
  intros Hwf HS HM Hlt. unfold bufferValue, full.
  rewrite bool_decide_eq_false_2 by lia. cbn [negb assert obind].
  set (w1 := setBuffer w (Buffer w ++ [v])).
  assert (covers w w1 [] [v]) as Hpush.
  { unfold covers, w1. destruct w; unfold pending; simpl.
    split_and!; [by repeat split | done | by rewrite app_nil_r | constructor
                | by rewrite app_assoc]. }
  case_bool_decide as Hfull; cbn [negb].
  - destruct (writeFromBuffer_covers w1 iS iM) as (w' & gs & Hrun & Hcov & Hlen).
    + apply Hpush.
    + by destruct w.
    + by destruct w.
    + unfold w1. destruct w; simpl. by destruct Buffer0.
    + exists w', gs. split_and!; [done | |].
      * change gs with ([] ++ gs). change [v] with ([v] ++ []).
        by eapply covers_trans.
      * destruct Hcov as ((Hcap & _) & _). rewrite Hcap. lia.
  - exists w1, []. split_and!; [done | done |].
    unfold w1 in *. destruct w; simpl in *. rewrite length_app in *.
    simpl in *. lia.
Qed.

(** *** The public operations *)

Lemma runWrite_covers w iS iM op :
  wfTrie 0 (RootSuccessors (Root w)) →
  SingletonIndex (getDefaultSingle (Root w)) = Some iS →
  SingletonIndex (getDefaultMultiple (Root w)) = Some iM →
  (length (Buffer w) < Capacity w)%nat →
  ∃ w' gs, runWrite op w = Done (true, w') ∧ covers w w' gs [fedValue op] ∧
           (length (Buffer w') < Capacity w')%nat.
Proof.
  intros Hwf HS HM Hlt.
  destruct (bufferValue_covers w iS iM (fedValue op) Hwf HS HM Hlt)
    as (w' & gs & Hrun & Hcov & Hlt').
  exists w', gs. split; [|done].
  destruct op; cbn [runWrite fedValue] in *;
    unfold writeUint8, writeUint32, writeUint64, writeVarint32, writeVarint64,
      writeVaruint32, writeVaruint64, writeValue; by rewrite Hrun.
Qed.

Lemma feed_covers iS iM ops : ∀ w,
  wfTrie 0 (RootSuccessors (Root w)) →
  SingletonIndex (getDefaultSingle (Root w)) = Some iS →
  SingletonIndex (getDefaultMultiple (Root w)) = Some iM →
  (length (Buffer w) < Capacity w)%nat →
  ∃ w' gs, feed ops w = Done w' ∧ covers w w' gs (map fedValue ops) ∧
           (length (Buffer w') < Capacity w')%nat.
Proof.
  induction ops as [|op ops IH]; intros w Hwf HS HM Hlt.
  - exists w, []. split_and!; [done | by apply covers_refl | done].
  - destruct (runWrite_covers w iS iM op Hwf HS HM Hlt)
      as (w1 & gs1 & Hrun & Hcov & Hlt1).
    destruct (covers_singletons _ _ _ _ _ _ Hcov HS HM) as [HS1 HM1].
    destruct (IH w1) as (w' & gs' & Hrun' & Hcov' & Hlt');
      [apply Hcov | done | done | done |].
    exists w', (gs1 ++ gs'). cbn [feed]. rewrite Hrun. cbn [obind].
    split_and!; [done | | done].
    change (map fedValue (op :: ops)) with ([fedValue op] ++ map fedValue ops).
    by eapply covers_trans.
Qed.

Lemma writeFreezeEof_covers w iS iM fuel :
  wfTrie 0 (RootSuccessors (Root w)) →
  SingletonIndex (getDefaultSingle (Root w)) = Some iS →
  SingletonIndex (getDefaultMultiple (Root w)) = Some iM →
  (length (Buffer w) ≤ fuel)%nat →
  ∃ w' gs, writeFreezeEof fuel w
             = Done (true, setWriter w' (Writer w' ++ [FreezeEofCall])) ∧
           covers w w' gs [] ∧ Buffer w' = [] ∧ DefaultValues w' = [].
Proof.
  intros Hwf HS HM Hfuel. unfold writeFreezeEof.
  destruct (writeUntilBufferEmpty_covers iS iM fuel w Hwf HS HM Hfuel)
    as (w1 & gs1 & Hrun1 & Hcov1 & HB1).
  rewrite Hrun1. cbn [obind].
  destruct (covers_singletons _ _ _ _ _ _ Hcov1 HS HM) as [HS1 HM1].
  destruct (flushDefaultValues_covers w1 iS iM) as (w2 & gs2 & Hrun2 & Hcov2 & HD2 & HB2);
    [apply Hcov1 | done | done |].
  rewrite Hrun2. cbn [obind].
  exists w2, (gs1 ++ gs2). split_and!; [done | | congruence | done].
  change (@nil Z) with (@nil Z ++ @nil Z). by eapply covers_trans.
Qed.

Lemma sameConfig_assigned w w' :
  sameConfig w w' → singletonsAssigned (Root w) → singletonsAssigned (Root w').
Proof.
  intros (_&_&_&_&Hs&Hm&He&Hx&_). unfold singletonsAssigned.
  by rewrite Hs, Hm, He, Hx.
Qed.

(** Emitting the index of a block action: the queue is flushed, then one
    call is made; trie and buffer are untouched. *)
Lemma forwardAbbrevValue_frame w iS iM i :
  SingletonIndex (getDefaultSingle (Root w)) = Some iS →
  SingletonIndex (getDefaultMultiple (Root w)) = Some iM →
  ∃ w', forwardAbbrevValue i w = Done w' ∧ sameConfig w w' ∧
        Root w' = Root w ∧ Buffer w' = Buffer w.
Proof.
  intros HS HM. unfold forwardAbbrevValue.
  rewrite (flushDefaultValues_spec w iS iM) by done. cbn [obind].
  eexists. split; [done|]. destruct w. by repeat split.
Qed.

Lemma blockAction_ok w fuel (get : RootCountNode → CountNode) :
  wfWriter w → (length (Buffer w) ≤ fuel)%nat →
  is_Some (SingletonIndex (get (Root w))) →
  (∀ w', sameConfig w w' → get (Root w') = get (Root w)) →
  ∃ w', (do w <~ writeUntilBufferEmpty fuel w ;;
         do w <~ flushDefaultValues w ;;
         do _ <~ assert (hasAbbrevIndex (get (Root w))) ;;
         do i <~ getAbbrevIndex (get (Root w)) ;;
         do w <~ forwardAbbrevValue i w ;;
         Done (true, w)) = Done (true, w') ∧ wfWriter w' ∧
        Capacity w' = Capacity w.
Proof.
  intros (Hwf & Has & Hlt) Hfuel [i Hi] Hget.
  destruct Has as ([iS HS] & [iM HM] & He & Hx).
  destruct (writeUntilBufferEmpty_covers iS iM fuel w Hwf HS HM Hfuel)
    as (w1 & gs1 & Hrun1 & Hcov1 & HB1).
  rewrite Hrun1. cbn [obind].
  destruct (covers_singletons _ _ _ _ _ _ Hcov1 HS HM) as [HS1 HM1].
  destruct (flushDefaultValues_covers w1 iS iM) as (w2 & gs2 & Hrun2 & Hcov2 & HD2 & HB2);
    [apply Hcov1 | done | done |].
  rewrite Hrun2. cbn [obind].
  destruct (covers_singletons _ _ _ _ _ _ Hcov2 HS1 HM1) as [HS2 HM2].
  assert (sameConfig w w2) as Hcfg2
    by (eapply sameConfig_trans; [apply Hcov1 | apply Hcov2]).
  unfold hasAbbrevIndex, getAbbrevIndex, abbrevIndexOf, CountNode_abbreviated.
  rewrite (Hget w2 Hcfg2), Hi.
  rewrite bool_decide_eq_true_2 by eauto. cbn [assert obind].
  destruct (forwardAbbrevValue_frame w2 iS iM i HS2 HM2) as (w3 & Hrun3 & Hcfg3 & HR3 & HB3).
  rewrite Hrun3. cbn [obind].
  exists w3. split; [done|].
  assert (sameConfig w w3) as Hcfg by (by eapply sameConfig_trans).
  split; [|apply Hcfg].
  unfold wfWriter. split_and!.
  - rewrite HR3. apply Hcov2.
  - eapply sameConfig_assigned; [exact Hcfg|]. unfold singletonsAssigned. eauto.
  - rewrite HB3, HB2, HB1. destruct Hcfg as (Hcap & _). rewrite Hcap.
    simpl. lia.
Qed.

Lemma writeAction_ok w fuel a :
  wfWriter w → (length (Buffer w) ≤ fuel)%nat →
  ∃ b w', writeAction fuel a w = Done (b, w') ∧ wfWriter w' ∧
          Capacity w' = Capacity w.
Proof.
  intros Hw Hfuel. unfold writeAction.
  destruct (CallbackSymbol a) as [sym|]; [|by exists false, w].
  assert (∀ c, wfWriter (setWriter w c)) as Hset by (by destruct w).
  destruct sym;
    try (eexists true, _; split; [done | split; [apply Hset | by destruct w]]).
  - destruct (blockAction_ok w fuel getBlockEnter Hw Hfuel) as (w' & Hrun & Hw').
    + apply Hw.
    + by intros w' (_&_&_&_&_&_&He&_).
    + by exists true, w'.
  - destruct (blockAction_ok w fuel getBlockExit Hw Hfuel) as (w' & Hrun & Hw').
    + apply Hw.
    + by intros w' (_&_&_&_&_&_&_&Hx&_).
    + by exists true, w'.
Qed.

Lemma wfTrie_singleton d v n :
  PathLength n = S d → wfTrie (S d) (Successors n) → wfTrie d {[v := n]}.
Proof.
  intros Hl Hs. apply wfTrie_intro. intros u m Hu.
  apply lookup_singleton_Some in Hu as [_ <-]. done.
Qed.

(** *** Values on the wire *)

(** Every write method hands the rewriter a 64-bit value. *)
Lemma fedValue_range op : 0 <= fedValue op < 2 ^ 64.
Proof. destruct op; apply wrap_range; lia. Qed.

(** The three 64-bit formats carry a 64-bit value unchanged: converted to
    the parameter type of the underlying writer and back, it is the same. *)
Lemma convert_lossless f v :
  f = Uint64 ∨ f = Varint64 ∨ f = Varuint64 →
  0 <= v < 2 ^ 64 →
  toIntType (convert f v) = v.
Proof.
  intros Hf Hv. unfold toIntType.
  destruct Hf as [->|[->| ->]]; cbn [convert].
  - rewrite (wrap_small 64 v) by done. by apply wrap_small.
  - unfold swrap. rewrite (wrap_small 64 v) by done.
    case_decide.
    + by apply wrap_small.
    + unfold wrap.
      replace (v - 2 ^ 64) with (v + (-1) * 2 ^ 64) by lia.
      rewrite Z.mod_add by lia. by apply Z.mod_small.
  - rewrite (wrap_small 64 v) by done. by apply wrap_small.
Qed.

(** A freshly made writer with room for at least one value is in the state
    the public operations keep. *)
Lemma wfWriter_fresh r cap af df lf :
  wfTrie 0 (RootSuccessors r) → singletonsAssigned r → (0 < cap)%nat →
  wfWriter (mkWriter r [] [] cap [] af df lf).
Proof. intros Hwf Has Hcap. by split_and!. Qed.

(** *** Scenarios *)

Lemma sampleRoot_wf : wfTrie 0 (RootSuccessors sampleRoot).
Proof.
  repeat (apply wfTrie_singleton; [reflexivity|]). apply wfTrie_empty.
Qed.

(** Four sevens against the path [7, 7, 7]: the abbreviation, then one
    default value. *)
Example run_sevens :
  observe (do w <~ feed [OpValue 7; OpValue 7; OpValue 7; OpValue 7] sampleWriter ;;
           writeFreezeEof 3 w)
  = Some ([WriteCall Varuint32 5; WriteCall Varuint32 1; WriteCall Varint64 7;
           FreezeEofCall], [], []).
Proof. vm_compute. reflexivity. Qed.

(** No abbreviation assigned: one run of three default values. *)
Example run_defaults :
  observe (do w <~ feed [OpValue 1; OpValue 2; OpValue 3] bareWriter ;;
           writeFreezeEof 3 w)
  = Some ([WriteCall Varuint32 2; WriteCall Varuint64 3; WriteCall Varint64 1;
           WriteCall Varint64 2; WriteCall Varint64 3; FreezeEofCall], [], []).
Proof. vm_compute. reflexivity. Qed.

(** *** Reading the output back *)

Lemma decode_run w pathOf rest : ∀ vs,
  vs ≠ [] →
  Forall (carries (DefaultFormat w)) vs →
  decode w pathOf (ARun (length vs))
         (map (λ v, WriteCall (DefaultFormat w) (convert (DefaultFormat w) v)) vs
          ++ rest)
  = (vs ++.) <$> decode w pathOf AnIndex rest.
Proof.
  induction vs as [|v vs IH]; [done|]. intros _ Hc.
  apply Forall_cons in Hc as [Hv Hvs].
  cbn [map app length decode].
  rewrite bool_decide_eq_true_2 by done. cbn [negb]. rewrite Hv.
  destruct vs as [|v' vs].
  - cbn [length map app]. by destruct (decode w pathOf AnIndex rest).
  - change (length (v' :: vs)) with (S (length vs)) in *.
    rewrite IH by done.
    by destruct (decode w pathOf AnIndex rest).
Qed.

(** One group, read back: its calls denote its values. *)
Lemma decode_group w pathOf g rest :
  readable w pathOf →
  groupOk (Root w) g →
  Forall (carries (DefaultFormat w)) (groupValues g) →
  carriesCount (LoopSizeFormat w) (length (groupValues g)) →
  decode w pathOf AnIndex (groupCalls w g ++ rest)
  = (groupValues g ++.) <$> decode w pathOf AnIndex rest.
Proof.
  intros (HS & HM & HP) Hok Hc Hn.
  destruct g as [idx path|idx v|idx vs]; cbn [groupOk groupValues] in *.
  - destruct (HP _ _ Hok) as (Hidx & Hpath & HnS & HnM).
    cbn [groupCalls app decode].
    rewrite bool_decide_eq_true_2 by done. cbn [negb]. rewrite Hidx.
    rewrite (bool_decide_eq_false_2 _ HnS), (bool_decide_eq_false_2 _ HnM).
    by rewrite Hpath.
  - destruct (HS _ Hok) as [Hidx _].
    apply Forall_cons in Hc as [Hv _].
    cbn [groupCalls app decode].
    rewrite bool_decide_eq_true_2 by done. cbn [negb]. rewrite Hidx.
    rewrite (bool_decide_eq_true_2 _ Hok).
    rewrite bool_decide_eq_true_2 by done. cbn [negb]. rewrite Hv.
    by destruct (decode w pathOf AnIndex rest).
  - destruct Hok as [Hok Hlen].
    pose proof (HM _ Hok) as Hidx.
    assert (SingletonIndex (getDefaultSingle (Root w)) ≠ Some idx) as HnS.
    { intros HSi. by destruct (HS _ HSi) as [_ Hne]. }
    cbn [groupCalls app decode].
    rewrite bool_decide_eq_true_2 by done. cbn [negb]. rewrite Hidx.
    rewrite (bool_decide_eq_false_2 _ HnS), (bool_decide_eq_true_2 _ Hok).
    rewrite bool_decide_eq_true_2 by done. cbn [negb].
    unfold carriesCount in Hn. rewrite Hn, Nat2Z.id.
    destruct (length vs) as [|n] eqn:Hl; [lia|]. rewrite <- Hl.
    apply decode_run; [|done]. by destruct vs.
Qed.

(** The groups of a whole run followed by the freeze, read back. *)
Lemma decode_groups w pathOf : ∀ gs,
  readable w pathOf →
  Forall (groupOk (Root w)) gs →
  Forall (carries (DefaultFormat w)) (gs ≫= groupValues) →
  (∀ n, (n ≤ length (gs ≫= groupValues))%nat → carriesCount (LoopSizeFormat w) n) →
  decode w pathOf AnIndex ((gs ≫= groupCalls w) ++ [FreezeEofCall])
  = Some (gs ≫= groupValues).
Proof.
  intros gs Hr. induction gs as [|g gs IH]; intros Hok Hc Hn; [done|].
  apply Forall_cons in Hok as [Hg Hgs].
  rewrite !bind_cons in *. apply Forall_app in Hc as [Hcg Hcgs].
  rewrite length_app in Hn.
  rewrite <- app_assoc, decode_group; [|done|done|done|apply Hn; lia].
  rewrite IH; [done|done|done|]. intros n Hle. apply Hn. lia.
Qed.

(** The only path of the small configuration that has an index. *)
Lemma sampleRoot_paths p i :
  abbrevAt (RootSuccessors sampleRoot) p = Some i → p = [7; 7; 7] ∧ i = 5.
Proof.
  unfold abbrevAt. cbn [RootSuccessors sampleRoot].
  destruct p as [|a p]; [done|]. cbn [findPath].
  destruct (decide (a = 7)) as [->|Ha]; [|by rewrite lookup_singleton_ne].
  rewrite lookup_singleton_eq. destruct p as [|b p]; [done|].
  cbn [findPath Successors node7].
  destruct (decide (b = 7)) as [->|Hb]; [|by rewrite lookup_singleton_ne].
  rewrite lookup_singleton_eq. destruct p as [|c p]; [done|].
  cbn [findPath Successors node77].
  destruct (decide (c = 7)) as [->|Hc]; [|by rewrite lookup_singleton_ne].
  rewrite lookup_singleton_eq. destruct p as [|d p]; [by intros [= <-]|].
  cbn [findPath Successors node777]. by rewrite lookup_empty.
Qed.

Lemma sampleWriter_readable : readable sampleWriter samplePathOf.
Proof.
  split_and!.
  - by intros i [= <-].
  - by intros i [= <-].
  - intros p i Hp. by destruct (sampleRoot_paths _ _ Hp) as [-> ->].
Qed.

(** *** The claims about the rewriter *)

(** C1, as the code has it. Rewriter coverage: for every sequence of values
    fed through the write methods to a writer that starts with an empty
    buffer and an empty default queue, feeding and then [writeFreezeEof]
    both return, and the calls made on the underlying writer are exactly
    those of a list of well-formed groups followed by the freeze. When the
    indices can be told apart and the formats carry what is written in them
    (the abbreviation format every assigned index, the default format every
    value fed, the loop-size format every run length up to the number of
    values fed), these calls read back group by group denote the values fed,
    in order, so every fed value lies in exactly one group; afterwards the
    ring buffer and the queue of default values are empty. *)
Theorem rewriter_coverage (w0 : AbbrevAssignWriter) (ops : list WriteOp)
    (fuel : nat) (iS iM : IntType) (pathOf : IntType → option (list IntType)) :
  wfTrie 0 (RootSuccessors (Root w0)) →
  SingletonIndex (getDefaultSingle (Root w0)) = Some iS →
  SingletonIndex (getDefaultMultiple (Root w0)) = Some iM →
  Buffer w0 = [] → DefaultValues w0 = [] →
  (0 < Capacity w0)%nat → (Capacity w0 ≤ fuel)%nat →
  readable w0 pathOf →
  Forall (λ op, carries (DefaultFormat w0) (fedValue op)) ops →
  (∀ n, (n ≤ length ops)%nat → carriesCount (LoopSizeFormat w0) n) →
  ∃ w1 w2 gs out,
    feed ops w0 = Done w1 ∧
    writeFreezeEof fuel w1 = Done (true, w2) ∧
    Writer w2 = Writer w0 ++ out ∧
    out = (gs ≫= groupCalls w0) ++ [FreezeEofCall] ∧
    Forall (groupOk (Root w0)) gs ∧
    gs ≫= groupValues = map fedValue ops ∧
    decode w0 pathOf AnIndex out = Some (map fedValue ops) ∧
    Buffer w2 = [] ∧ DefaultValues w2 = [].
Proof.
  intros Hwf HS HM HB HD Hcap Hfuel Hread Hcarry Hcount.
  destruct (feed_covers iS iM ops w0 Hwf HS HM) as (w1 & gs1 & Hrun1 & Hcov1 & Hlt1);
    [rewrite HB; simpl; lia|].
  destruct (covers_singletons _ _ _ _ _ _ Hcov1 HS HM) as [HS1 HM1].
  assert (Capacity w1 = Capacity w0) as Hcap1 by apply Hcov1.
  destruct (writeFreezeEof_covers w1 iS iM fuel) as (w2 & gs2 & Hrun2 & Hcov2 & HB2 & HD2);
    [apply Hcov1 | done | done | lia |].
  pose proof (covers_trans _ _ _ _ _ _ _ Hcov1 Hcov2) as (_ & _ & HW & Hok & Hv).
  assert ((gs1 ++ gs2) ≫= groupValues = map fedValue ops) as Hvals.
  { unfold pending in Hv. rewrite HB, HD, HB2, HD2 in Hv. simpl in Hv.
    by rewrite !app_nil_r in Hv. }
  exists w1, (setWriter w2 (Writer w2 ++ [FreezeEofCall])), (gs1 ++ gs2),
         (((gs1 ++ gs2) ≫= groupCalls w0) ++ [FreezeEofCall]).
  split_and!; [done | done | | done | done | done | | by destruct w2 | by destruct w2].
  - destruct w2; simpl in *. by rewrite HW, <- app_assoc.
  - rewrite <- Hvals. apply decode_groups; [done | done | |].
    + rewrite Hvals. by apply Forall_map.
    + intros n Hn. apply Hcount. by rewrite Hvals, length_map in Hn.
Qed.

Lemma rewriter_coverage_witness :
  ∃ w1 w2 out,
    feed [OpValue 7; OpValue 7; OpValue 7; OpValue 7] sampleWriter = Done w1 ∧
    writeFreezeEof 3 w1 = Done (true, w2) ∧
    Writer w2 = out ∧
    decode sampleWriter samplePathOf AnIndex out = Some [7; 7; 7; 7] ∧
    Buffer w2 = [] ∧ DefaultValues w2 = [].
Proof.
  destruct (rewriter_coverage sampleWriter
              [OpValue 7; OpValue 7; OpValue 7; OpValue 7] 3 1 2 samplePathOf)
    as (w1 & w2 & gs & out & H1 & H2 & HW & _ & _ & _ & Hd & HB & HD).
  - exact sampleRoot_wf.
  - reflexivity.
  - reflexivity.
  - reflexivity.
  - reflexivity.
  - simpl. lia.
  - simpl. lia.
  - exact sampleWriter_readable.
  - repeat constructor.
  - intros n Hn. simpl in Hn.
    do 5 (destruct n as [|n]; [reflexivity|]). lia.
  - exists w1, w2, out. split_and!; assumption.
Defined.

(** C1 as claimed does not hold for every configuration: with [Uint8] as
    the default format the value 300 is written as 44, the calls are those
    that the input 44 gives, and the group they make up denotes 44. *)
Lemma narrow_format_truncates_values :
  fedValue (OpValue 300) = 300 ∧
  observe (do w <~ feed [OpValue 300] narrowWriter ;; writeFreezeEof 3 w)
    = Some ([WriteCall Varuint32 1; WriteCall Uint8 44; FreezeEofCall], [], []) ∧
  observe (do w <~ feed [OpValue 44] narrowWriter ;; writeFreezeEof 3 w)
    = Some ([WriteCall Varuint32 1; WriteCall Uint8 44; FreezeEofCall], [], []) ∧
  decode narrowWriter (λ _, None) AnIndex
         [WriteCall Varuint32 1; WriteCall Uint8 44; FreezeEofCall]
    = Some [44].
Proof. split_and!; vm_compute; reflexivity. Qed.



(** C9. Buffer bound: from a state with consistent trie, assigned
    singletons and fewer than [Capacity] buffered values, every public
    operation (the write methods, [writeAction], [writeFreezeEof]) returns,
    and in the state it returns the ring buffer again holds strictly fewer
    than [Capacity] values. In particular [bufferValue] pushes and runs one
    flush step exactly when the push fills the buffer, and a flush step on a
    non-empty buffer leaves it strictly shorter. *)
Theorem ring_buffer_bound (fuel : nat) (op : PublicOp) (w : AbbrevAssignWriter) :
  wfWriter w → (length (Buffer w) ≤ fuel)%nat →
  (∃ b w', runOp fuel op w = Done (b, w') ∧
           (length (Buffer w') < Capacity w')%nat ∧
           Capacity w' = Capacity w ∧ wfWriter w') ∧
  (∀ v, bufferValue v w =
        if bool_decide (S (length (Buffer w)) = Capacity w)
        then writeFromBuffer (setBuffer w (Buffer w ++ [v]))
        else Done (setBuffer w (Buffer w ++ [v]))) ∧
  (∀ w', Buffer w ≠ [] → writeFromBuffer w = Done w' →
         (length (Buffer w') < length (Buffer w))%nat).
Proof.
  intros Hw Hfuel. pose proof Hw as (Hwf & Has & Hlt).
  pose proof Has as ([iS HS] & [iM HM] & He & Hx).
  split_and!.
  - destruct op as [op|a|]; cbn [runOp].
    + destruct (runWrite_covers w iS iM op Hwf HS HM Hlt)
        as (w' & gs & Hrun & Hcov & Hlt').
      exists true, w'. split_and!; [done | done | apply Hcov |].
      unfold wfWriter. split_and!; [apply Hcov | | done].
      eapply sameConfig_assigned; [apply Hcov | done].
    + destruct (writeAction_ok w fuel a Hw Hfuel) as (b & w' & Hrun & Hw' & Hcap).
      exists b, w'. split_and!; [done | apply Hw' | done | done].
    + destruct (writeFreezeEof_covers w iS iM fuel Hwf HS HM Hfuel)
        as (w' & gs & Hrun & Hcov & HB & HD).
      eexists true, _. split; [exact Hrun|].
      assert (Capacity w' = Capacity w) as Hcap by apply Hcov.
      assert (wfTrie 0 (RootSuccessors (Root w'))) as Hwf' by apply Hcov.
      assert (singletonsAssigned (Root w')) as Has'
        by (eapply sameConfig_assigned; [apply Hcov | done]).
      unfold wfWriter, setWriter; cbn [Buffer Capacity Root].
      rewrite HB, Hcap. simpl. split_and!; [lia | done | done | done | lia].
  - intros v. unfold bufferValue, full.
    rewrite bool_decide_eq_false_2 by lia. cbn [negb assert obind].
    destruct w; simpl in *. rewrite length_app. simpl.
    rewrite Nat.add_1_r. by case_bool_decide.
  - intros w' HB Hrun.
    destruct (writeFromBuffer_covers w iS iM Hwf HS HM HB)
      as (w1 & gs & Hrun1 & _ & Hlen).
    congruence.
Qed.

Lemma ring_buffer_bound_witness :
  ∃ b w', runOp 3 (PWrite (OpValue 7)) (setBuffer sampleWriter [7; 7]) = Done (b, w') ∧
          (length (Buffer w') < Capacity w')%nat.
Proof.
  destruct (ring_buffer_bound 3 (PWrite (OpValue 7)) (setBuffer sampleWriter [7; 7]))
    as [(b & w' & Hrun & Hlt & _) _].
  - split_and!; [exact sampleRoot_wf | | simpl; lia].
    split_and!; eexists; reflexivity.
  - simpl. lia.
  - exists b, w'. split; assumption.
Defined.

End AbbrevAssignProps.

(** ** The integer-stream reader *)

Module IntReadProps.
Import IntRead.

Lemma readHeaderValue_Input f r : Input (readHeaderValue f r).2 = Input r.
Proof.
  unfold readHeaderValue. case_decide; [done|].
  destruct (getHeader (Input r) !! HeaderIndex r) as [[v g]|]; [|done].
  by case_decide.
Qed.

Lemma readHeaderValue_mono f r :
  (HeaderIndex r ≤ HeaderIndex (readHeaderValue f r).2)%nat.
Proof.
  unfold readHeaderValue. case_decide; [done|].
  destruct (getHeader (Input r) !! HeaderIndex r) as [[v g]|]; [|done].
  case_decide; simpl; lia.
Qed.

Lemma readHeaderValues_mono fs : ∀ r,
  (HeaderIndex r ≤ HeaderIndex (readHeaderValues fs r))%nat.
Proof.
  induction fs as [|f fs IH]; intros r; simpl; [done|].
  etrans; [apply (readHeaderValue_mono f) | apply IH].
Qed.

(** C10. [readHeaderValue(Format, Value)] returns true exactly when there
    is an entry at the current header index whose format is the requested
    one, and then [Value] is the stored value; whenever it returns false,
    [Value] is 0; the index moves past the entry whenever there is one, also
    when its format does not match, and never moves back, so a mismatched
    entry is not consulted by any later call. *)
Theorem readHeaderValue_spec (Format : IntTypeFormat) (r : IntReader)
    (ok : bool) (Value : IntType) (r' : IntReader) :
  readHeaderValue Format r = (ok, Value, r') →
  (ok = true ↔ ∃ v, getHeader (Input r) !! HeaderIndex r = Some (v, Format)) ∧
  (ok = true → getHeader (Input r) !! HeaderIndex r = Some (Value, Format)) ∧
  (ok = false → Value = 0) ∧
  Input r' = Input r ∧
  (getHeader (Input r) !! HeaderIndex r = None → HeaderIndex r' = HeaderIndex r) ∧
  (∀ v f, getHeader (Input r) !! HeaderIndex r = Some (v, f) →
          HeaderIndex r' = S (HeaderIndex r) ∧
          (f ≠ Format →
           ok = false ∧ Value = 0 ∧
           ∀ Formats, (HeaderIndex r < HeaderIndex (readHeaderValues Formats r'))%nat)).
Proof.
  unfold readHeaderValue. intros Hrun.
  destruct (getHeader (Input r) !! HeaderIndex r) as [[v g]|] eqn:E.
  - apply lookup_lt_Some in E as Hlt.
    rewrite decide_False in Hrun by lia. cbn [fst snd] in Hrun.
    case_decide as Hg; injection Hrun as <- <- <-; cbn [HeaderIndex Input].
    + split_and!; try done.
      * split; [done|]. intros [v' [= _ ->]]. done.
      * intros v' f [= <- <-]. split; [done|]. intros _.
        split_and!; [done | done |]. intros Formats.
        pose proof (readHeaderValues_mono Formats
                      (mkIntReader (Input r) (S (HeaderIndex r)))) as Hm.
        simpl in Hm. lia.
    + subst g. split_and!; try done.
      * split; [eauto | done].
      * intros v' f [= <- <-]. split; [done|]. intros Hne. done.
  - apply lookup_ge_None in E as Hge.
    rewrite decide_True in Hrun by lia. injection Hrun as <- <- <-.
    split_and!; try done. split; [done|]. intros [v [=]].
Qed.

Lemma readHeaderValue_spec_witness :
  readHeaderValue Uint8 sampleReader
    = (false, 0, mkIntReader (Input sampleReader) 1) ∧
  ∀ Formats,
    (0 < HeaderIndex (readHeaderValues Formats
                        (mkIntReader (Input sampleReader) 1)))%nat.
Proof.
  split; [reflexivity|].
  destruct (readHeaderValue_spec Uint8 sampleReader false 0
              (mkIntReader (Input sampleReader) 1) eq_refl)
    as (_ & _ & _ & _ & _ & H).
  destruct (H 42 Uint32 eq_refl) as [_ Hskip].
  destruct Hskip as (_ & _ & Hlater); [discriminate|].
  exact Hlater.
Defined.

(** A matching request returns the stored value and moves on. *)
Example readHeaderValue_match :
  readHeaderValue Uint32 sampleReader
    = (true, 42, mkIntReader (Input sampleReader) 1).
Proof. reflexivity. Qed.

(** Past the last entry nothing is consumed. *)
Example readHeaderValue_exhausted :
  readHeaderValue Uint32 (mkIntReader (Input sampleReader) 2)
    = (false, 0, mkIntReader (Input sampleReader) 2).
Proof. reflexivity. Qed.

End IntReadProps.

(** ** The compressor front end *)

Module IntCompressProps.
Import IntCompress.

(** With a reader installed, [errorsFound] answers false whatever the
    reader recorded; without one it dereferences a null pointer. *)
Lemma errorsFound_cases (c : IntCompressor) :
  match Input c with
  | Some _ => errorsFound c = Done false
  | None => errorsFound c = Aborted
  end.
Proof.
  unfold errorsFound. destruct (Input c) as [r|] eqn:E.
  - by rewrite bool_decide_eq_false_2.
  - by rewrite bool_decide_eq_true_2.
Qed.

(** The setters next to [setMinimizeBlockSize] store their argument. *)
Lemma setLengthLimit_stores n c : LengthLimit (setLengthLimit n c) = wrap 64 n.
Proof. reflexivity. Qed.

Lemma setMinimizeBlockSize_ignored b c : setMinimizeBlockSize b c = c.
Proof. reflexivity. Qed.

(** C7 (the code departs from the claim). A compressor whose input reader
    has recorded errors reports none: the test [Input == nullptr] is false,
    so the conjunction is false before the reader is asked. *)
Theorem errorsFound_misses_recorded_errors :
  Input failedCompressor = Some (mkStreamReader true) ∧
  errorsFound failedCompressor = Done false.
Proof. split; reflexivity. Qed.

End IntCompressProps.

(** ** The interpreter *)

Module InterpProps.
Import Interp.

(** *** Headroom *)

(** Below the last hundred addresses of [size_t] the test reduces to the
    frozen flag: the buffered bytes are never looked at. *)
Lemma hasEnoughHeadroom_frozen_only st :
  0 <= CurByteAddress (ReadPos st) < 2 ^ 64 - 100 →
  hasEnoughHeadroom st = EofFrozen (InputQueue st).
Proof.
  intros H. unfold hasEnoughHeadroom, kResumeHeadroom.
  rewrite wrap_small by lia.
  rewrite (proj2 (Z.leb_gt _ _)) by lia. by rewrite orb_false_r.
Qed.

Lemma awaitHeadroom_stuck fuel st :
  0 <= CurByteAddress (ReadPos st) < 2 ^ 64 - 100 →
  EofFrozen (InputQueue st) = false →
  awaitHeadroom (λ q, q) fuel st = Diverging.
Proof.
  intros Ha Hf. induction fuel as [|fuel IH]; simpl;
    rewrite hasEnoughHeadroom_frozen_only, Hf by done; [done|].
  destruct st; exact IH.
Qed.

(** C3 (the code departs from the claim). Two hundred bytes are buffered
    beyond read address 0 of an unfrozen input, twice the headroom asked
    for: [hasEnoughHeadroom] answers false where the claim and the integer
    reader's test answer true, and the driver's wait never ends as long as
    the producer does not freeze the input. *)
Theorem hasEnoughHeadroom_ignores_buffered_bytes :
  let st := sampleInterpreter (replicate 200 0) false false in
  fillSize (InputQueue st) = 200 ∧
  CurByteAddress (ReadPos st) = 0 ∧
  hasEnoughHeadroom st = false ∧
  headroomRequired st = true ∧
  IntRead.canProcessMoreInputNow (fillSize (InputQueue st))
    (CurByteAddress (ReadPos st)) (EofFrozen (InputQueue st)) = true ∧
  ∀ fuel, awaitHeadroom (λ q, q) fuel st = Diverging.
Proof.
  split_and!; try reflexivity.
  intros fuel. by apply awaitHeadroom_stuck.
Qed.

(** *** Stream checks *)


Lemma evalStream_independent_of_Reader r st :
  evalStream (streamNode Input Byte) (setReader st r)
  = evalStream (streamNode Input Byte) st.
Proof. reflexivity. Qed.



Section MachineProps.

Variable fillPage : Queue → Queue.
Variable pushRecordsLastRead : bool.
Variable getDefineDefinition : Node → option Node.
Variable getCase : Node → IntType → option Node.
Variable eval : Node → Interpreter → Outcome (IntType * Interpreter).
Variable atByteEob : Queue → ReadCursor → bool.

Local Abbreviation awaitHeadroom := (awaitHeadroom fillPage).
Local Abbreviation read := (read fillPage pushRecordsLastRead).
Local Abbreviation evalPeek := (evalPeek fillPage pushRecordsLastRead).
Local Abbreviation readOpcodeSelector :=
  (readOpcodeSelector fillPage pushRecordsLastRead getDefineDefinition).
Local Abbreviation readOpcodeAssemble :=
  (readOpcodeAssemble fillPage pushRecordsLastRead getDefineDefinition).
Local Abbreviation readOpcode :=
  (readOpcode fillPage pushRecordsLastRead getDefineDefinition getCase eval).

(** *** Waiting for headroom *)

Lemma awaitHeadroom_ready fuel st :
  hasEnoughHeadroom st = true → awaitHeadroom fuel st = Done st.
Proof. intros H. destruct fuel; simpl; by rewrite H. Qed.

(** The wait changes the input queue only. *)
Lemma awaitHeadroom_Done fuel : ∀ st st0,
  awaitHeadroom fuel st = Done st0 →
  hasEnoughHeadroom st0 = true ∧ ∃ q, st0 = setInputQueue st q.
Proof.
  induction fuel as [|fuel IH]; intros st st0; simpl;
    destruct (hasEnoughHeadroom st) eqn:H; try done.
  - intros [= <-]. split; [done|]. exists (InputQueue st). by destruct st.
  - intros [= <-]. split; [done|]. exists (InputQueue st). by destruct st.
  - intros Hrun. apply IH in Hrun as [Hh [q ->]]. split; [done|].
    exists q. by destruct st.
Qed.

(** A read that returns has first waited; started again from the state
    after the wait it returns the same. *)
Lemma read_after_wait fuel Nd st v st1 :
  read fuel Nd st = Done (v, st1) →
  ∃ st0, awaitHeadroom fuel st = Done st0 ∧ ReadPos st0 = ReadPos st ∧
         read fuel Nd st0 = Done (v, st1).
Proof.
  destruct Nd as [ty pl kids]. cbn [Interp.read].
  destruct (awaitHeadroom fuel st) as [st0| |] eqn:E; cbn [obind]; try done.
  intros Hrun. exists st0.
  destruct (awaitHeadroom_Done _ _ _ E) as [Hh [q ->]].
  split_and!; [done | by destruct st |].
  by rewrite (awaitHeadroom_ready fuel _ Hh).
Qed.

(** *** Peek *)

(** However often the calling frame is dispatched, its nested call has not
    returned. *)
Lemma dispatchAgain_not_Done {A} n (frame : Interpreter → Outcome (A * Interpreter)) :
  ∀ st r, dispatchAgain n frame st ≠ Done r.
Proof.
  induction n as [|n IH]; intros st r; cbn [dispatchAgain]; [done|].
  destruct (frame st) as [[v st1]| |]; cbn [obind]; [apply IH | done | done].
Qed.

(** A read of a Peek node does not return. *)
Lemma read_Peek_not_Done fuel Nd st r :
  getType Nd = OpPeek → read fuel Nd st ≠ Done r.
Proof.
  destruct Nd as [ty pl kids]. cbn [getType]. intros ->. cbn [Interp.read].
  destruct (awaitHeadroom fuel st) as [st0| |]; cbn [obind]; try done.
  destruct kids as [|kid0 kids]; [done|].
  destruct (dispatchAgain _ _ st0) as [[v st1]| |] eqn:E; cbn [obind]; try done.
  by apply dispatchAgain_not_Done in E.
Qed.

(** C5 (the code departs from the claim). Evaluating [Peek(e)] does not
    return, whatever [e] is: the OpPeek case calls [read(e)] from inside
    [runMethods], and once [e] has been read the Peek frame is dispatched
    again. The run goes on from the state in which the read of [e] left the
    interpreter, so the next probe starts where the last one ended; the
    cursor is never put back, and no value reaches the caller. *)
Theorem peek_does_not_return (fuel : nat) (e : Node) (pl : Payload)
    (rest : list Node) (st : Interpreter) :
  (∀ r, evalPeek fuel (mkNode OpPeek pl (e :: rest)) st ≠ Done r) ∧
  (∀ st0 v st1,
     awaitHeadroom fuel st = Done st0 →
     read fuel e st0 = Done (v, st1) →
     evalPeek fuel (mkNode OpPeek pl (e :: rest)) st
     = (do '(v, st2) <~ dispatchAgain fuel (read fuel e) st1 ;;
        peekExit pushRecordsLastRead (ReadPos st0) v st2) ∧
     ∀ r st2, dispatchAgain fuel (read fuel e) st1 ≠ Done (r, st2)).
Proof.
  split.
  - intros r. by apply read_Peek_not_Done.
  - intros st0 v st1 Hwait Hrun. split; [|intros; apply dispatchAgain_not_Done].
    unfold Interp.evalPeek. cbn [Interp.read].
    rewrite Hwait. cbn [obind dispatchAgain]. by rewrite Hrun.
Qed.

(** *** Opcodes *)

Lemma readOpcodeSelector_LastReadValue fuel Nd st v st1 size :
  read fuel Nd st = Done (v, st1) →
  getType Nd ≠ OpEval →
  size = match getType Nd with
         | OpUint8NoArgs => 8
         | OpUint32NoArgs => 32
         | OpUint64NoArgs => 64
         | OpUint8OneArg | OpUint32OneArg | OpUint64OneArg => wrap 32 (getValue Nd)
         | _ => 0
         end →
  ∀ depth, readOpcodeSelector depth fuel Nd st
           = Done (size, setLastReadValue st1 v).
Proof.
  intros Hrun Hne -> depth.
  destruct depth; cbn [Interp.readOpcodeSelector];
    destruct (getType Nd); try done; by rewrite Hrun.
Qed.

(** Whatever chain of definitions the selector follows, the value it leaves
    in [LastReadValue] is the value of a read, and its size is a
    [uint32_t]. *)
Lemma readOpcodeSelector_reads fuel depth : ∀ Nd st b st1,
  readOpcodeSelector depth fuel Nd st = Done (b, st1) →
  0 <= b < 2 ^ 32 ∧
  ∃ leaf st0 c, read fuel leaf st = Done (c, st0) ∧ st1 = setLastReadValue st0 c.
Proof.
  assert (∀ Nd st size b st1,
            (do '(v, st) <~ read fuel Nd st ;;
             Done (wrap 32 size, setLastReadValue st v)) = Done (b, st1) →
            0 <= b < 2 ^ 32 ∧
            ∃ leaf st0 c, read fuel leaf st = Done (c, st0) ∧
                          st1 = setLastReadValue st0 c) as Hleaf.
  { intros Nd st size b st1 Hrun.
    destruct (read fuel Nd st) as [[v st0]| |] eqn:E; cbn in Hrun; try done.
    injection Hrun as <- <-. split; [by apply wrap_range|]. eauto. }
  induction depth as [|depth IH]; intros Nd st b st1;
    cbn [Interp.readOpcodeSelector];
    destruct (getType Nd); try (by apply Hleaf);
    (destruct (getKid Nd 0) as [kid0| |]; cbn [obind]; [|done..]);
    destruct (getType kid0); try done.
  destruct (getDefineDefinition kid0) as [Defn|]; cbn [obind]; [|done].
  apply IH.
Qed.

(** *** Blocks *)

(** C8, as the code has it. [IntCompressor::setMinimizeBlockSize] discards
    its argument and leaves the compressor as it was. The back-patch in
    [decompressBlock] follows the interpreter's own [MinimizeBlockSize] flag,
    which the constructor clears: with the flag clear the discovered length
    is written with [writeFixedBlockSize]; with the flag set it is written
    with [writeVarintBlockSize] and, when that leaves the size field shorter
    than the reservation, the block is shifted with [moveBlock] and the
    write cursor moved to its new end. *)
Theorem block_size_backpatch (NewValue : bool) (c : IntCompress.IntCompressor)
    (st : Interpreter) (BlockStart : WriteCursor) (SizeAfterSizeWrite : Z) :
  IntCompress.setMinimizeBlockSize NewValue c = c ∧
  (∀ In Out rs ws, MinimizeBlockSize (newInterpreter In Out rs ws) = false) ∧
  let W := Writer st in
  let NewSize := wrap 64 (getBlockSize W BlockStart (WritePos st)) in
  (MinimizeBlockSize st = false →
     backPatchBlockSize BlockStart SizeAfterSizeWrite st
     = setOutput st (writeFixedBlockSize W (OutputQueue st) BlockStart NewSize).1
                 (WritePos st)) ∧
  (MinimizeBlockSize st = true →
     let patched := writeVarintBlockSize W (OutputQueue st) BlockStart NewSize in
     let SizeAfterBackPatch := getStreamAddress W patched.2 in
     let Diff := wrap 64 (SizeAfterSizeWrite - SizeAfterBackPatch) in
     (Diff = 0 →
        backPatchBlockSize BlockStart SizeAfterSizeWrite st
        = setOutput st patched.1 (WritePos st)) ∧
     (Diff ≠ 0 →
        let moved :=
          moveBlock W patched.1 patched.2 SizeAfterSizeWrite
            (wrap 64 (wrap 64 (getStreamAddress W (WritePos st) - Diff)
                      - SizeAfterBackPatch)) in
        backPatchBlockSize BlockStart SizeAfterSizeWrite st
        = setOutput st moved.1 moved.2)).
Proof.
  split; [reflexivity|]. split; [reflexivity|]. cbv zeta.
  unfold backPatchBlockSize. split.
  - intros ->. cbn [negb]. by destruct (writeFixedBlockSize _ _ _ _).
  - intros ->. cbn [negb].
    destruct (writeVarintBlockSize _ _ _ _) as [out bs]. cbn [fst snd].
    split.
    + intros ->. done.
    + intros Hd. rewrite (proj2 (Z.eqb_neq _ _) Hd). cbn [negb].
      by destruct (moveBlock _ _ _ _ _).
Qed.

End MachineProps.

(** *** Scenarios *)

(** A block of three bytes behind its size: with the flag clear the size is
    back-patched in place. *)
Example decompressBlock_fixed :
  (do st <~ decompressBlock noEval atEob 10 None
              (sampleInterpreter [3; 170; 187; 204] true false) ;;
   Done (Bytes (OutputQueue st), WritePos st))
  = Done ([FixedCall; 0; 170; 187; 204; FixedCall; 3], mkWriteCursor 8).
Proof. vm_compute. reflexivity. Qed.

(** With the flag set the size is minimised and the block moved. *)
Example decompressBlock_minimized :
  (do st <~ decompressBlock noEval atEob 10 None
              (withMinimizeBlockSize
                 (sampleInterpreter [3; 170; 187; 204] true false) true) ;;
   Done (Bytes (OutputQueue st), WritePos st))
  = Done ([FixedCall; 0; 170; 187; 204; VarintCall; 3; MoveCall; 5; 3],
          mkWriteCursor 4).
Proof. vm_compute. reflexivity. Qed.

(** C8 as claimed does not hold: after
    [IntCompressor::setMinimizeBlockSize(true)] the compressor is unchanged,
    and an interpreter as constructed back-patches the block length with
    [writeFixedBlockSize]; [writeVarintBlockSize] and [moveBlock] are not
    called. *)
Lemma setMinimizeBlockSize_true_keeps_fixed_sizes :
  IntCompress.setMinimizeBlockSize true IntCompress.failedCompressor
    = IntCompress.failedCompressor ∧
  (do st <~ decompressBlock noEval atEob 10 None
              (sampleInterpreter [3; 170; 187; 204] true false) ;;
   Done (Bytes (OutputQueue st)))
  = Done [FixedCall; 0; 170; 187; 204; FixedCall; 3].
Proof. split; [reflexivity | vm_compute; reflexivity]. Qed.

Lemma block_size_backpatch_witness :
  let st := setOutput (withMinimizeBlockSize
                         (sampleInterpreter [] true false) true)
                      (mkQueue [FixedCall; 0; 170; 187; 204] false)
                      (mkWriteCursor 8) in
  Bytes (OutputQueue (backPatchBlockSize (mkWriteCursor 0) 5 st))
    = [FixedCall; 0; 170; 187; 204; VarintCall; 3; MoveCall; 5; 3] ∧
  WritePos (backPatchBlockSize (mkWriteCursor 0) 5 st) = mkWriteCursor 4.
Proof.
  cbv zeta.
  destruct (block_size_backpatch true IntCompress.failedCompressor
              (setOutput (withMinimizeBlockSize
                            (sampleInterpreter [] true false) true)
                         (mkQueue [FixedCall; 0; 170; 187; 204] false)
                         (mkWriteCursor 8))
              (mkWriteCursor 0) 5) as (_ & _ & _ & Hmin).
  destruct (Hmin eq_refl) as [_ Hmove].
  rewrite Hmove; [split; reflexivity | discriminate].
Defined.

(** [Peek(Uint8)] over the frozen input [66, 67, 68]: a read of the byte
    returns 66 and moves the cursor to address 1; the probe starts over from
    there and reads 67, then 68, and has not returned when any number of
    dispatches has been made. *)
Lemma peek_does_not_return_witness :
  let st := sampleInterpreter [66; 67; 68] true false in
  (do r <~ read (λ q, q) true 0 uint8Node st ;; Done (r.1, ReadPos r.2))
    = Done (66, mkReadCursor 1 []) ∧
  (∀ fuel r st2,
     dispatchAgain fuel (read (λ q, q) true fuel uint8Node)
       (setLastReadValue (setReadPos st (mkReadCursor 1 [])) 66)
     ≠ Done (r, st2)) ∧
  (do r <~ read (λ q, q) true 0 uint8Node
             (setLastReadValue (setReadPos st (mkReadCursor 1 [])) 66) ;;
   Done (r.1, ReadPos r.2))
    = Done (67, mkReadCursor 2 []) ∧
  ∀ fuel r, evalPeek (λ q, q) true fuel (peekNode uint8Node) st ≠ Done r.
Proof.
  cbv zeta. split_and!; [reflexivity | | reflexivity |].
  - intros fuel.
    apply (proj2 (peek_does_not_return (λ q, q) true fuel uint8Node NoPayload []
                    (sampleInterpreter [66; 67; 68] true false))
             (sampleInterpreter [66; 67; 68] true false) 66).
    + by destruct fuel.
    + by destruct fuel.
  - intros fuel.
    apply (proj1 (peek_does_not_return (λ q, q) true fuel uint8Node NoPayload []
                    (sampleInterpreter [66; 67; 68] true false))).
Defined.

(** The selector sizes 0 and 64 are refused when a continuation is
    expected. *)
Example readOpcode_size_64_fatal :
  readOpcode (λ q, q) true (λ _, None) (λ _ _, None) noEval 0 0
             (opcodeNode (mkNode OpUint64NoArgs NoPayload [])) 1 1
             (sampleInterpreter [66] true false)
  = Aborted.
Proof. reflexivity. Qed.

Example readOpcode_size_0_fatal :
  readOpcode (λ q, q) true (λ _, None) (λ _ _, None) noEval 0 0
             (opcodeNode (mkNode OpVaruint32NoArgs NoPayload [])) 1 1
             (sampleInterpreter [66] true false)
  = Aborted.
Proof. reflexivity. Qed.

End InterpProps.

(** ** More on the abbreviation rewriter *)

Module AbbrevAssignMore.
Import AbbrevAssign AbbrevAssignProps AbbrevAssignTerms.

Lemma unabbreviated_config w w' :
  sameConfig w w' → unabbreviated w → unabbreviated w'.
Proof. intros (_&_&_&_&_&_&_&_&Hp) Hu p. by rewrite Hp. Qed.

(** Without abbreviations a flush step only moves the front value to the
    queue of default values. *)
Lemma writeFromBuffer_quiet w iS iM v0 rest :
  wfTrie 0 (RootSuccessors (Root w)) →
  SingletonIndex (getDefaultSingle (Root w)) = Some iS →
  SingletonIndex (getDefaultMultiple (Root w)) = Some iM →
  unabbreviated w →
  Buffer w = v0 :: rest →
  ∃ w', writeFromBuffer w = Done w' ∧ sameConfig w w' ∧
        wfTrie 0 (RootSuccessors (Root w')) ∧
        Writer w' = Writer w ∧
        DefaultValues w' = DefaultValues w ++ [v0] ∧ Buffer w' = rest.
Proof.
  intros Hwf HS HM Hu HB.
  destruct (writeFromBuffer_spec w iS iM v0 rest Hwf HS HM HB)
    as (w' & Hrun & Hcfg & Hwf' & Hcase).
  exists w'. split_and!; try done;
    destruct Hcase as [(Max & i & p & _ & _ & _ & Hf & Hi & _)|(_ & _ & HW & HD & HB')];
    try done;
    specialize (Hu p); unfold abbrevAt in Hu; rewrite Hf in Hu; simpl in Hu;
    congruence.
Qed.

Lemma quiet_refl w : wfTrie 0 (RootSuccessors (Root w)) → quiet w w [].
Proof.
  intros Hwf. split_and!; [apply sameConfig_refl | done | done |].
  by rewrite app_nil_r.
Qed.

Lemma quiet_trans w w' w'' fed fed' :
  quiet w w' fed → quiet w' w'' fed' → quiet w w'' (fed ++ fed').
Proof.
  intros (Hc & _ & HW & Hp) (Hc' & Hwf & HW' & Hp').
  split_and!; [by eapply sameConfig_trans | done | congruence |].
  by rewrite Hp', Hp, app_assoc.
Qed.

Lemma quiet_singletons w w' fed iS iM :
  quiet w w' fed →
  SingletonIndex (getDefaultSingle (Root w)) = Some iS →
  SingletonIndex (getDefaultMultiple (Root w)) = Some iM →
  SingletonIndex (getDefaultSingle (Root w')) = Some iS ∧
  SingletonIndex (getDefaultMultiple (Root w')) = Some iM.
Proof.
  intros ((_&_&_&_&Hs&Hm&_) & _) HS HM. by rewrite Hs, Hm.
Qed.

Lemma writeFromBuffer_quiet_step w iS iM :
  wfTrie 0 (RootSuccessors (Root w)) →
  SingletonIndex (getDefaultSingle (Root w)) = Some iS →
  SingletonIndex (getDefaultMultiple (Root w)) = Some iM →
  unabbreviated w →
  Buffer w ≠ [] →
  ∃ w', writeFromBuffer w = Done w' ∧ quiet w w' [] ∧
        (length (Buffer w') < length (Buffer w))%nat.
Proof.
  intros Hwf HS HM Hu HB.
  destruct (Buffer w) as [|v0 rest] eqn:HBw; [done|].
  destruct (writeFromBuffer_quiet w iS iM v0 rest Hwf HS HM Hu HBw)
    as (w' & Hrun & Hcfg & Hwf' & HW & HD & HB').
  exists w'. split_and!; [done | | rewrite HB'; simpl; lia].
  split_and!; try done.
  unfold pending. rewrite HD, HB', HBw, app_nil_r, <- app_assoc. done.
Qed.

Lemma bufferValue_quiet w iS iM v :
  wfTrie 0 (RootSuccessors (Root w)) →
  SingletonIndex (getDefaultSingle (Root w)) = Some iS →
  SingletonIndex (getDefaultMultiple (Root w)) = Some iM →
  unabbreviated w →
  (length (Buffer w) < Capacity w)%nat →
  ∃ w', bufferValue v w = Done w' ∧ quiet w w' [v] ∧
        (length (Buffer w') < Capacity w')%nat.
Proof.
  intros Hwf HS HM Hu Hlt. unfold bufferValue, full.
  rewrite bool_decide_eq_false_2 by lia. cbn [negb assert obind].
  set (w1 := setBuffer w (Buffer w ++ [v])).
  assert (quiet w w1 [v]) as Hpush.
  { unfold quiet, w1. destruct w; unfold pending; simpl.
    split_and!; [by repeat split | done | done | by rewrite app_assoc]. }
  case_bool_decide as Hfull; cbn [negb].
  - destruct (writeFromBuffer_quiet_step w1 iS iM) as (w' & Hrun & Hq & Hlen).
    + apply Hpush.
    + by destruct w.
    + by destruct w.
    + intros p. by destruct w.
    + unfold w1. destruct w; simpl. by destruct Buffer0.
    + exists w'. split_and!; [done | |].
      * change [v] with ([v] ++ []). by eapply quiet_trans.
      * destruct Hq as ((Hcap & _) & _). rewrite Hcap. lia.
  - exists w1. split_and!; [done | done |].
    unfold w1 in *. destruct w; simpl in *. rewrite length_app in *.
    simpl in *. lia.
Qed.

Lemma feed_quiet iS iM ops : ∀ w,
  wfTrie 0 (RootSuccessors (Root w)) →
  SingletonIndex (getDefaultSingle (Root w)) = Some iS →
  SingletonIndex (getDefaultMultiple (Root w)) = Some iM →
  unabbreviated w →
  (length (Buffer w) < Capacity w)%nat →
  ∃ w', feed ops w = Done w' ∧ quiet w w' (map fedValue ops) ∧
        (length (Buffer w') < Capacity w')%nat.
Proof.
  induction ops as [|op ops IH]; intros w Hwf HS HM Hu Hlt.
  - exists w. split_and!; [done | by apply quiet_refl | done].
  - destruct (bufferValue_quiet w iS iM (fedValue op) Hwf HS HM Hu Hlt)
      as (w1 & Hrun & Hq & Hlt1).
    destruct (quiet_singletons _ _ _ _ _ Hq HS HM) as [HS1 HM1].
    destruct (IH w1) as (w' & Hrun' & Hq' & Hlt');
      [apply Hq | done | done | | done |].
    { eapply unabbreviated_config; [apply Hq | done]. }
    exists w'. split_and!; [| | done].
    + cbn [feed].
      assert (runWrite op w = Done (true, w1)) as ->.
      { destruct op; cbn [runWrite fedValue] in *;
          unfold writeUint8, writeUint32, writeUint64, writeVarint32,
            writeVarint64, writeVaruint32, writeVaruint64, writeValue;
          by rewrite Hrun. }
      done.
    + change (map fedValue (op :: ops)) with ([fedValue op] ++ map fedValue ops).
      by eapply quiet_trans.
Qed.

Lemma writeUntilBufferEmpty_quiet iS iM fuel : ∀ w,
  wfTrie 0 (RootSuccessors (Root w)) →
  SingletonIndex (getDefaultSingle (Root w)) = Some iS →
  SingletonIndex (getDefaultMultiple (Root w)) = Some iM →
  unabbreviated w →
  (length (Buffer w) ≤ fuel)%nat →
  ∃ w', writeUntilBufferEmpty fuel w = Done w' ∧ quiet w w' [] ∧ Buffer w' = [].
Proof.
  induction fuel as [|fuel IH]; intros w Hwf HS HM Hu Hfuel.
  - destruct (Buffer w) eqn:HB; [|simpl in Hfuel; lia].
    exists w. simpl. unfold empty. rewrite HB. simpl.
    split_and!; [done | by apply quiet_refl | done].
  - cbn [writeUntilBufferEmpty]. unfold empty. case_bool_decide as HB.
    + exists w. split_and!; [done | by apply quiet_refl | done].
    + destruct (writeFromBuffer_quiet_step w iS iM Hwf HS HM Hu HB)
        as (w1 & Hrun & Hq & Hlt).
      rewrite Hrun. cbn [obind].
      destruct (quiet_singletons _ _ _ _ _ Hq HS HM) as [HS1 HM1].
      destruct (IH w1) as (w' & Hrun' & Hq' & HB');
        [apply Hq | done | done | | lia |].
      { eapply unabbreviated_config; [apply Hq | done]. }
      exists w'. split_and!; [done | | done].
      change (@nil Z) with (@nil Z ++ @nil Z). by eapply quiet_trans.
Qed.

Lemma feed_freeze_defaults (w0 : AbbrevAssignWriter) (ops : list WriteOp)
    (fuel : nat) (iS iM : IntType) :
  wfTrie 0 (RootSuccessors (Root w0)) →
  SingletonIndex (getDefaultSingle (Root w0)) = Some iS →
  SingletonIndex (getDefaultMultiple (Root w0)) = Some iM →
  unabbreviated w0 →
  Buffer w0 = [] → DefaultValues w0 = [] →
  (0 < Capacity w0)%nat → (Capacity w0 ≤ fuel)%nat →
  ∃ w1 w2,
    feed ops w0 = Done w1 ∧ Writer w1 = Writer w0 ∧
    writeFreezeEof fuel w1 = Done (true, w2) ∧
    Writer w2 = Writer w0
                ++ (defaultGroups iS iM (map fedValue ops) ≫= groupCalls w0)
                ++ [FreezeEofCall].
Proof.
  intros Hwf HS HM Hu HB HD Hcap Hfuel.
  destruct (feed_quiet iS iM ops w0 Hwf HS HM Hu) as (w1 & Hrun1 & Hq1 & Hlt1);
    [rewrite HB; simpl; lia|].
  destruct (quiet_singletons _ _ _ _ _ Hq1 HS HM) as [HS1 HM1].
  assert (Capacity w1 = Capacity w0) as Hcap1 by apply Hq1.
  destruct (writeUntilBufferEmpty_quiet iS iM fuel w1) as (w2 & Hrun2 & Hq2 & HB2);
    [apply Hq1 | done | done | | lia |].
  { eapply unabbreviated_config; [apply Hq1 | done]. }
  destruct (quiet_singletons _ _ _ _ _ Hq2 HS1 HM1) as [HS2 HM2].
  pose proof (quiet_trans _ _ _ _ _ Hq1 Hq2) as (Hcfg & _ & HW & Hp).
  exists w1. eexists. split_and!; [done | apply Hq1 | |].
  - unfold writeFreezeEof. rewrite Hrun2. cbn [obind].
    rewrite (flushDefaultValues_spec w2 iS iM) by done. cbn [obind]. done.
  - unfold pending in Hp. rewrite HB, HD, HB2 in Hp. simpl in Hp.
    rewrite !app_nil_r in Hp.
    destruct w2; simpl in *. subst.
    rewrite <- app_assoc. do 2 f_equal.
    apply (groupsCalls_config w0). done.
Qed.

(** Default-run coalescing. When no integer path is abbreviated, nothing is
    emitted while values are fed, however many; [writeFreezeEof] then emits
    the whole input as one group: nothing for no value, a single default for
    one value, one run of defaults (index, count, values) for more. *)
Theorem defaults_coalesce (w0 : AbbrevAssignWriter) (ops : list WriteOp)
    (fuel : nat) (iS iM : IntType) :
  wfTrie 0 (RootSuccessors (Root w0)) →
  SingletonIndex (getDefaultSingle (Root w0)) = Some iS →
  SingletonIndex (getDefaultMultiple (Root w0)) = Some iM →
  unabbreviated w0 →
  Buffer w0 = [] → DefaultValues w0 = [] →
  (0 < Capacity w0)%nat → (Capacity w0 ≤ fuel)%nat →
  ∃ w1 w2,
    feed ops w0 = Done w1 ∧ Writer w1 = Writer w0 ∧
    writeFreezeEof fuel w1 = Done (true, w2) ∧
    Writer w2 = Writer w0
                ++ (defaultGroups iS iM (map fedValue ops) ≫= groupCalls w0)
                ++ [FreezeEofCall].
Proof. apply feed_freeze_defaults. Qed.

Lemma defaults_coalesce_witness :
  ∃ w1 w2,
    feed [OpUint8 1; OpVarint32 (-2); OpValue 3] bareWriter = Done w1 ∧
    Writer w1 = Writer bareWriter ∧
    writeFreezeEof 3 w1 = Done (true, w2) ∧
    Writer w2 = Writer bareWriter
                ++ (defaultGroups 1 2
                      (map fedValue [OpUint8 1; OpVarint32 (-2); OpValue 3])
                    ≫= groupCalls bareWriter)
                ++ [FreezeEofCall].
Proof.
  apply (defaults_coalesce bareWriter _ 3 1 2).
  - apply wfTrie_empty.
  - reflexivity.
  - reflexivity.
  - intros p. apply abbrevAt_empty.
  - reflexivity.
  - reflexivity.
  - simpl. lia.
  - simpl. lia.
Defined.

(** *** Block actions *)

Lemma forwardAbbrevValue_flushed w i :
  DefaultValues w = [] →
  forwardAbbrevValue i w = Done (writeValueFormat i (AbbrevFormat w) w).
Proof.
  intros HD. unfold forwardAbbrevValue, flushDefaultValues. by rewrite HD.
Qed.

Lemma blockAction_drains (fuel : nat) (enter : bool) (w : AbbrevAssignWriter) :
  wfWriter w → (length (Buffer w) ≤ fuel)%nat →
  ∃ w' gs i,
    writeAction fuel (Callback (Some (blockSymbol enter))) w = Done (true, w') ∧
    SingletonIndex (blockNode enter (Root w)) = Some i ∧
    Writer w' = Writer w ++ (gs ≫= groupCalls w)
                ++ [WriteCall (AbbrevFormat w) (convert (AbbrevFormat w) i)] ∧
    Forall (groupOk (Root w)) gs ∧
    gs ≫= groupValues = pending w ∧
    Buffer w' = [] ∧ DefaultValues w' = [] ∧
    sameConfig w w' ∧ wfTrie 0 (RootSuccessors (Root w')).
Proof.
  intros (Hwf & Has & Hlt) Hfuel.
  destruct Has as ([iS HS] & [iM HM] & [iE HE] & [iX HX]).
  destruct (writeUntilBufferEmpty_covers iS iM fuel w Hwf HS HM Hfuel)
    as (w1 & gs1 & Hrun1 & Hcov1 & HB1).
  destruct (covers_singletons _ _ _ _ _ _ Hcov1 HS HM) as [HS1 HM1].
  destruct (flushDefaultValues_covers w1 iS iM) as (w2 & gs2 & Hrun2 & Hcov2 & HD2 & HB2);
    [apply Hcov1 | done | done |].
  pose proof (covers_trans _ _ _ _ _ _ _ Hcov1 Hcov2) as Hcov.
  pose proof Hcov as (Hcfg & Hwf2 & HW & Hok & Hv).
  pose proof Hcfg as (_ & HAF & _ & _ & _ & _ & HgE & HgX & _).
  exists (writeValueFormat (if enter then iE else iX) (AbbrevFormat w2) w2),
         (gs1 ++ gs2), (if enter then iE else iX).
  split_and!.
  - unfold writeAction. destruct enter; cbn [CallbackSymbol blockSymbol];
      rewrite Hrun1; cbn [obind]; rewrite Hrun2; cbn [obind];
      unfold hasAbbrevIndex, getAbbrevIndex, abbrevIndexOf, CountNode_abbreviated.
    + rewrite HgE, HE. rewrite bool_decide_eq_true_2 by eauto.
      cbn [assert obind]. by rewrite forwardAbbrevValue_flushed.
    + rewrite HgX, HX. rewrite bool_decide_eq_true_2 by eauto.
      cbn [assert obind]. by rewrite forwardAbbrevValue_flushed.
  - by destruct enter.
  - destruct w2; simpl in *. by rewrite HW, HAF, <- app_assoc.
  - done.
  - unfold pending in Hv at 2. rewrite HD2, HB2, HB1 in Hv. simpl in Hv.
    by rewrite !app_nil_r in Hv.
  - destruct w2; simpl in *. congruence.
  - by destruct w2.
  - by destruct w2.
  - by destruct w2.
Qed.

(** A block action drains the buffer and flushes the queue before it emits
    its own index: every value accepted before the action is emitted, in
    order and in well-formed groups, ahead of the block marker, and nothing
    stays pending. *)
Theorem block_action_drains (fuel : nat) (enter : bool) (w : AbbrevAssignWriter) :
  wfWriter w → (length (Buffer w) ≤ fuel)%nat →
  ∃ w' gs i,
    writeAction fuel (Callback (Some (blockSymbol enter))) w = Done (true, w') ∧
    SingletonIndex (blockNode enter (Root w)) = Some i ∧
    Writer w' = Writer w ++ (gs ≫= groupCalls w)
                ++ [WriteCall (AbbrevFormat w) (convert (AbbrevFormat w) i)] ∧
    Forall (groupOk (Root w)) gs ∧
    gs ≫= groupValues = pending w ∧
    Buffer w' = [] ∧ DefaultValues w' = [] ∧
    sameConfig w w' ∧ wfTrie 0 (RootSuccessors (Root w')).
Proof. apply blockAction_drains. Qed.

Lemma block_action_drains_witness :
  ∃ w',
    writeAction 3 (Callback (Some Block_enter))
                (setDefaultValues (setBuffer sampleWriter [7; 7]) [9])
      = Done (true, w') ∧
    Writer w' = [WriteCall Varuint32 2; WriteCall Varuint64 3;
                 WriteCall Varint64 9; WriteCall Varint64 7;
                 WriteCall Varint64 7; WriteCall Varuint32 3] ∧
    Buffer w' = [] ∧ DefaultValues w' = [].
Proof.
  destruct (block_action_drains 3 true
              (setDefaultValues (setBuffer sampleWriter [7; 7]) [9]))
    as (w' & gs & i & Hrun & _ & _ & _ & _ & HB & HD & _).
  - split_and!; [exact sampleRoot_wf | | simpl; lia].
    split_and!; eexists; reflexivity.
  - simpl. lia.
  - exists w'. split_and!; [exact Hrun | | exact HB | exact HD].
    vm_compute in Hrun. injection Hrun as <-. reflexivity.
Defined.

(** *** What no operation does *)

(** No public operation takes back or rewrites a call already made on the
    underlying writer, and none changes the capacity, the formats, the
    singletons or the index assigned to any path, although flush steps add
    nodes to the trie. *)
Theorem output_append_only (fuel : nat) (op : PublicOp) (w : AbbrevAssignWriter)
    (b : bool) (w' : AbbrevAssignWriter) :
  wfWriter w → (length (Buffer w) ≤ fuel)%nat →
  runOp fuel op w = Done (b, w') →
  Writer w `prefix_of` Writer w' ∧ sameConfig w w'.
Proof.
  intros Hw Hfuel Hrun. pose proof Hw as (Hwf & Has & Hlt).
  pose proof Has as ([iS HS] & [iM HM] & He & Hx).
  destruct op as [op|a|]; cbn [runOp] in Hrun.
  - destruct (runWrite_covers w iS iM op Hwf HS HM Hlt)
      as (w1 & gs & Hrun1 & Hcov & _).
    rewrite Hrun1 in Hrun. injection Hrun as <- <-.
    destruct Hcov as (Hcfg & _ & HW & _). split; [|done].
    rewrite HW. by apply prefix_app_r.
  - destruct a as [[sym|]].
    + destruct sym;
        try (cbn in Hrun; injection Hrun as <- <-;
             split; [destruct w; simpl; by apply prefix_app_r
                    | destruct w; by repeat split]).
      * destruct (blockAction_drains fuel true w Hw Hfuel)
          as (w1 & gs & i & Hrun1 & _ & HW & _ & _ & _ & _ & Hcfg & _).
        cbn [blockSymbol] in Hrun1. rewrite Hrun1 in Hrun.
        injection Hrun as <- <-. split; [|done].
        rewrite HW. by apply prefix_app_r.
      * destruct (blockAction_drains fuel false w Hw Hfuel)
          as (w1 & gs & i & Hrun1 & _ & HW & _ & _ & _ & _ & Hcfg & _).
        cbn [blockSymbol] in Hrun1. rewrite Hrun1 in Hrun.
        injection Hrun as <- <-. split; [|done].
        rewrite HW. by apply prefix_app_r.
    + cbn in Hrun. injection Hrun as <- <-.
      split; [done | apply sameConfig_refl].
  - destruct (writeFreezeEof_covers w iS iM fuel Hwf HS HM Hfuel)
      as (w1 & gs & Hrun1 & Hcov & _).
    rewrite Hrun1 in Hrun. injection Hrun as <- <-.
    destruct Hcov as (Hcfg & _ & HW & _).
    split; [|by destruct w1].
    destruct w1; simpl in *. rewrite HW, <- app_assoc. by apply prefix_app_r.
Qed.

Lemma output_append_only_witness :
  ∃ w', runOp 3 (PAction (Callback (Some Align))) (setBuffer sampleWriter [7; 7])
          = Done (true, w') ∧
        Writer (setBuffer sampleWriter [7; 7]) `prefix_of` Writer w'.
Proof.
  eexists. split; [reflexivity|].
  eapply (output_append_only 3 (PAction (Callback (Some Align)))
            (setBuffer sampleWriter [7; 7]) true).
  - split_and!; [exact sampleRoot_wf | | simpl; lia].
    split_and!; eexists; reflexivity.
  - simpl. lia.
  - reflexivity.
Defined.

(** *** Longest match against the stream *)

Lemma prefix_app_short {A} (q l k : list A) :
  q `prefix_of` l ++ k → (length q ≤ length l)%nat → q `prefix_of` l.
Proof.
  revert l. induction q as [|x q IH]; intros l Hp Hlen; [apply prefix_nil|].
  destruct l as [|y l]; [simpl in Hlen; lia|].
  simpl in Hp. pose proof (prefix_cons_inv_1 _ _ _ _ Hp) as ->.
  apply prefix_cons_inv_2 in Hp. apply prefix_cons, IH; [done|].
  simpl in Hlen. lia.
Qed.

(** When the buffer is full, which is when [bufferValue] flushes, and no
    abbreviated path is longer than the buffer, the step decides as if it
    knew the rest of the stream: whatever values [future] follow, the path
    it emits is a longest abbreviated path that the stream continues with,
    and if it queues a default then no abbreviated path matches at all. *)
Theorem full_buffer_longest_match (w : AbbrevAssignWriter) (iS iM : IntType)
    (future : list IntType) :
  wfTrie 0 (RootSuccessors (Root w)) →
  SingletonIndex (getDefaultSingle (Root w)) = Some iS →
  SingletonIndex (getDefaultMultiple (Root w)) = Some iM →
  length (Buffer w) = Capacity w → (0 < Capacity w)%nat →
  (∀ q m, findPath (RootSuccessors (Root w)) q = Some m →
          is_Some (AbbrevIndex m) → (length q ≤ Capacity w)%nat) →
  ∃ w', writeFromBuffer w = Done w' ∧
    ((∃ p i, abbrevAt (RootSuccessors (Root w)) p = Some i ∧
             Buffer w = p ++ Buffer w' ∧
             last (Writer w') = Some (WriteCall (AbbrevFormat w)
                                        (convert (AbbrevFormat w) i)) ∧
             ∀ q m, q `prefix_of` Buffer w ++ future →
                    findPath (RootSuccessors (Root w)) q = Some m →
                    is_Some (AbbrevIndex m) → (length q ≤ length p)%nat)
     ∨ (Writer w' = Writer w ∧
        DefaultValues w' = DefaultValues w ++ take 1 (Buffer w) ∧
        ∀ q, q `prefix_of` Buffer w ++ future →
             abbrevAt (RootSuccessors (Root w)) q = None)).
Proof.
  intros Hwf HS HM Hfull Hcap Hdepth.
  destruct (Buffer w) as [|v0 rest] eqn:HB; [simpl in Hfull; lia|].
  destruct (writeFromBuffer_spec w iS iM v0 rest Hwf HS HM HB)
    as (w' & Hrun & _ & _ & Hcase).
  rewrite HB in Hcase. exists w'. split; [done|].
  destruct Hcase as [(Max & i & p & _ & Hne & Hp & Hf & Hi & Hlen & Hmax & HW & HD & HBuf)
                    |(_ & Hnone & HW & HD & HB')].
  - left. exists p, i. split_and!; try done.
    + unfold abbrevAt. by rewrite Hf.
    + rewrite HW, app_assoc. apply last_snoc.
    + intros q m Hq Hfq Hiq. rewrite <- Hlen. eapply Hmax; [|done..].
      eapply prefix_app_short; [done|]. rewrite Hfull. by eapply Hdepth.
  - right. split_and!; try done.
    intros q Hq. unfold abbrevAt.
    destruct (findPath (RootSuccessors (Root w)) q) as [m|] eqn:Hfq; [|done].
    simpl. destruct (AbbrevIndex m) as [i|] eqn:Hi; [|done].
    assert (q `prefix_of` v0 :: rest) as Hq'.
    { eapply prefix_app_short; [done|]. rewrite Hfull.
      eapply Hdepth; [done|]. by rewrite Hi. }
    rewrite (Hnone q m Hq' Hfq) in Hi. done.
Qed.

Lemma full_buffer_longest_match_witness :
  ∃ w', writeFromBuffer (setBuffer sampleWriter [7; 7; 7]) = Done w' ∧
        Buffer w' = [].
Proof.
  destruct (full_buffer_longest_match (setBuffer sampleWriter [7; 7; 7]) 1 2
              [7; 7; 7; 7]) as (w' & Hrun & _).
  - exact sampleRoot_wf.
  - reflexivity.
  - reflexivity.
  - reflexivity.
  - simpl. lia.
  - intros q m Hf Hi. simpl.
    pose proof (sampleRoot_wf q m Hf) as Hl. simpl in Hl.
    destruct q as [|a [|b [|c [|d q]]]]; simpl; try lia.
    exfalso. cbn [findPath sampleWriter sampleRoot RootSuccessors Root setBuffer] in Hf.
    destruct (decide (a = 7)) as [->|Ha];
      [|by rewrite lookup_singleton_ne in Hf].
    rewrite lookup_singleton_eq in Hf. cbn [Successors node7] in Hf.
    destruct (decide (b = 7)) as [->|Hb];
      [|by rewrite lookup_singleton_ne in Hf].
    rewrite lookup_singleton_eq in Hf. cbn [Successors node77] in Hf.
    destruct (decide (c = 7)) as [->|Hc];
      [|by rewrite lookup_singleton_ne in Hf].
    rewrite lookup_singleton_eq in Hf. cbn [Successors node777] in Hf.
    by rewrite lookup_empty in Hf.
  - exists w'. split; [exact Hrun|].
    vm_compute in Hrun. by injection Hrun as <-.
Defined.

(** *** Actions that are not block actions *)

Lemma runWrite_buffers op w :
  (S (length (Buffer w)) < Capacity w)%nat →
  runWrite op w = Done (true, setBuffer w (Buffer w ++ [fedValue op])).
Proof.
  intros Hlt.
  assert (∀ v, bufferValue v w = Done (setBuffer w (Buffer w ++ [v]))) as Hb.
  { intros v. unfold bufferValue, full.
    rewrite bool_decide_eq_false_2 by lia. cbn [negb assert obind Buffer setBuffer Capacity].
    rewrite bool_decide_eq_false_2; [done|]. rewrite length_app. simpl. lia. }
  destruct op; cbn [runWrite fedValue];
    unfold writeUint8, writeUint32, writeUint64, writeVarint32, writeVarint64,
           writeVaruint32, writeVaruint64, writeValue;
    by rewrite Hb.
Qed.

Lemma feed_buffers ops : ∀ w,
  (length (Buffer w) + length ops < Capacity w)%nat →
  feed ops w = Done (setBuffer w (Buffer w ++ map fedValue ops)).
Proof.
  induction ops as [|op ops IH]; intros w Hlt.
  - simpl. rewrite app_nil_r. by destruct w.
  - cbn [feed]. simpl in Hlt. rewrite runWrite_buffers by lia. cbn [obind].
    rewrite IH by (cbn [Buffer setBuffer Capacity]; rewrite length_app; simpl; lia).
    cbn [map Buffer setBuffer]. rewrite <- app_assoc. by destruct w.
Qed.

(** An action that is neither block enter nor block exit is handed to the
    underlying writer at once, without draining: the values accepted before
    it that are still buffered reach the underlying writer after it. Here
    fewer values than the capacity are fed, then the action, then the
    freeze: the action comes out first and all the values behind it. *)
Theorem action_overtakes_pending (w0 : AbbrevAssignWriter) (ops : list WriteOp)
    (sym : PredefinedSymbol) (fuel : nat) :
  wfTrie 0 (RootSuccessors (Root w0)) →
  singletonsAssigned (Root w0) →
  Buffer w0 = [] → DefaultValues w0 = [] →
  (length ops < Capacity w0)%nat → (length ops ≤ fuel)%nat →
  sym ≠ Block_enter → sym ≠ Block_exit →
  ∃ w1 w2 w3 gs,
    feed ops w0 = Done w1 ∧ Writer w1 = Writer w0 ∧
    writeAction fuel (Callback (Some sym)) w1 = Done (true, w2) ∧
    writeFreezeEof fuel w2 = Done (true, w3) ∧
    Writer w3 = Writer w0 ++ [ActionCall (Callback (Some sym))]
                ++ (gs ≫= groupCalls w0) ++ [FreezeEofCall] ∧
    Forall (groupOk (Root w0)) gs ∧
    gs ≫= groupValues = map fedValue ops.
Proof.
  intros Hwf ([iS HS] & [iM HM] & _) HB HD Hlen Hfuel Hne Hnx.
  set (w1 := setBuffer w0 (Buffer w0 ++ map fedValue ops)).
  set (w2 := setWriter w1 (Writer w1 ++ [ActionCall (Callback (Some sym))])).
  destruct (writeFreezeEof_covers w2 iS iM fuel) as (w3 & gs & Hrun & Hcov & HB3 & HD3);
    [done | done | done | |].
  { subst w2 w1. cbn [Buffer setWriter setBuffer]. rewrite HB. simpl.
    by rewrite length_map. }
  destruct Hcov as (Hcfg & _ & HW & Hok & Hv).
  exists w1, w2, (setWriter w3 (Writer w3 ++ [FreezeEofCall])), gs.
  split_and!.
  - apply feed_buffers. rewrite HB. simpl. lia.
  - done.
  - unfold writeAction. cbn [CallbackSymbol]. by destruct sym.
  - done.
  - cbn [Writer setWriter]. rewrite HW. subst w2 w1. cbn [Writer setWriter setBuffer].
    rewrite <- !app_assoc. by do 2 f_equal.
  - eapply Forall_impl; [exact Hok|]. intros g Hg. by destruct w0.
  - unfold pending in Hv. rewrite HB3, HD3 in Hv. subst w2 w1.
    cbn [DefaultValues Buffer setWriter setBuffer] in Hv.
    rewrite HB, HD in Hv. simpl in Hv. by rewrite !app_nil_r in Hv.
Qed.

Lemma action_overtakes_pending_witness :
  ∃ w1 w2 w3,
    feed [OpUint8 7; OpUint8 7] sampleWriter = Done w1 ∧
    writeAction 2 (Callback (Some Align)) w1 = Done (true, w2) ∧
    writeFreezeEof 2 w2 = Done (true, w3) ∧
    Writer w3 = [ActionCall (Callback (Some Align));
                 WriteCall Varuint32 2; WriteCall Varuint64 2;
                 WriteCall Varint64 7; WriteCall Varint64 7; FreezeEofCall].
Proof.
  destruct (action_overtakes_pending sampleWriter [OpUint8 7; OpUint8 7] Align 2)
    as (w1 & w2 & w3 & gs & H1 & _ & H2 & H3 & _).
  - exact sampleRoot_wf.
  - split_and!; eexists; reflexivity.
  - reflexivity.
  - reflexivity.
  - simpl. lia.
  - simpl. lia.
  - discriminate.
  - discriminate.
  - exists w1, w2, w3. split_and!; [exact H1 | exact H2 | exact H3 |].
    vm_compute in H1. injection H1 as <-.
    vm_compute in H2. injection H2 as <-.
    vm_compute in H3. by injection H3 as <-.
Defined.

(** *** Signed values *)

Lemma swrap_signed v : - 2 ^ 63 <= v < 2 ^ 63 → swrap 64 v = v.
Proof.
  intros Hv. unfold swrap, wrap. change (2 ^ (64 - 1)) with (2 ^ 63).
  destruct (decide (0 <= v)) as [Hpos|Hneg].
  - rewrite (Z.mod_small v) by lia. by rewrite decide_True by lia.
  - assert (v mod 2 ^ 64 = v + 2 ^ 64) as ->.
    { replace v with (v + 2 ^ 64 + (-1) * 2 ^ 64) at 1 by lia.
      rewrite Z.mod_add by lia. apply Z.mod_small. lia. }
    rewrite decide_False by lia. lia.
Qed.

Lemma swrap_wrap v : swrap 64 (wrap 64 v) = swrap 64 v.
Proof. unfold swrap, wrap. by rewrite Z.mod_mod by lia. Qed.

Lemma signed_survives v :
  - 2 ^ 63 <= v < 2 ^ 63 → convert Varint64 (fedValue (OpVarint64 v)) = v.
Proof.
  intros Hv. cbn [convert fedValue]. unfold toIntType.
  by rewrite swrap_wrap, (swrap_signed v Hv), (swrap_signed v Hv).
Qed.

(** Signed values survive the rewriter. When no path is abbreviated and
    defaults are written as [Varint64], any signed 64-bit values passed to
    [writeVarint64], negative ones included, reach the underlying writer as
    the same signed numbers, in order, behind a group header of at most two
    calls, although the rewriter holds them as unsigned [IntType] in
    between. *)
Theorem signed_defaults_round_trip (w0 : AbbrevAssignWriter) (vs : list Z)
    (fuel : nat) (iS iM : IntType) :
  wfTrie 0 (RootSuccessors (Root w0)) →
  SingletonIndex (getDefaultSingle (Root w0)) = Some iS →
  SingletonIndex (getDefaultMultiple (Root w0)) = Some iM →
  unabbreviated w0 →
  Buffer w0 = [] → DefaultValues w0 = [] →
  (0 < Capacity w0)%nat → (Capacity w0 ≤ fuel)%nat →
  DefaultFormat w0 = Varint64 →
  Forall (λ v, - 2 ^ 63 <= v < 2 ^ 63) vs →
  ∃ w1 w2 header,
    feed (map OpVarint64 vs) w0 = Done w1 ∧
    writeFreezeEof fuel w1 = Done (true, w2) ∧
    (length header ≤ 2)%nat ∧
    Writer w2 = Writer w0 ++ header ++ map (WriteCall Varint64) vs
                ++ [FreezeEofCall].
Proof.
  intros Hwf HS HM Hu HB HD Hcap Hfuel HDF Hvs.
  destruct (feed_freeze_defaults w0 (map OpVarint64 vs) fuel iS iM)
    as (w1 & w2 & Hrun1 & _ & Hrun2 & HW); try done.
  assert (map (λ v, WriteCall (DefaultFormat w0) (convert (DefaultFormat w0) v))
              (map fedValue (map OpVarint64 vs))
          = map (WriteCall Varint64) vs) as Hmap.
  { rewrite HDF, !map_map. apply map_ext_Forall.
    eapply Forall_impl; [exact Hvs|]. intros v Hv. cbn beta.
    by rewrite signed_survives. }
  exists w1, w2.
  destruct vs as [|v [|v' vs]].
  - exists []. split_and!; [done | done | simpl; lia |]. by rewrite HW.
  - exists [WriteCall (AbbrevFormat w0) (convert (AbbrevFormat w0) iS)].
    split_and!; [done | done | simpl; lia |]. rewrite HW.
    cbn [map defaultGroups]. rewrite bind_cons. cbn [groupCalls].
    change ([] ≫= groupCalls w0) with (@nil WriterCall).
    apply Forall_cons in Hvs as [Hv _].
    by rewrite app_nil_r, HDF, (signed_survives v Hv).
  - eexists [WriteCall (AbbrevFormat w0) (convert (AbbrevFormat w0) iM);
             WriteCall (LoopSizeFormat w0) _].
    split_and!; [done | done | simpl; lia |]. rewrite HW.
    cbn [defaultGroups map] in *. rewrite bind_cons. cbn [groupCalls map].
    change ([] ≫= groupCalls w0) with (@nil WriterCall).
    rewrite Hmap. by rewrite app_nil_r.
Qed.

Lemma signed_defaults_round_trip_witness :
  ∃ w1 w2,
    feed [OpVarint64 (-1); OpVarint64 5] bareWriter = Done w1 ∧
    writeFreezeEof 3 w1 = Done (true, w2) ∧
    Writer w2 = [WriteCall Varuint32 2; WriteCall Varuint64 2;
                 WriteCall Varint64 (-1); WriteCall Varint64 5; FreezeEofCall].
Proof.
  destruct (signed_defaults_round_trip bareWriter [-1; 5] 3 1 2)
    as (w1 & w2 & header & H1 & H2 & _ & _).
  - intros p n Hp. by destruct p.
  - reflexivity.
  - reflexivity.
  - intros p. by destruct p.
  - reflexivity.
  - reflexivity.
  - simpl. lia.
  - simpl. lia.
  - reflexivity.
  - repeat constructor; lia.
  - exists w1, w2. split_and!; [exact H1 | exact H2 |].
    vm_compute in H1. injection H1 as <-.
    vm_compute in H2. by injection H2 as <-.
Defined.

End AbbrevAssignMore.

(** ** More on the integer-stream reader *)

Module IntReadFlowProps.
Import IntRead IntReadFlow.

Lemma readHeaderValue_at (H : list (IntType * IntTypeFormat)) (i : nat) v f :
  H !! i = Some (v, f) →
  readHeaderValue f (mkIntReader (mkIntStream H) i)
    = (true, v, mkIntReader (mkIntStream H) (S i)).
Proof.
  intros E. unfold readHeaderValue. cbn [Input getHeader HeaderIndex].
  apply lookup_lt_Some in E as Hlt.
  rewrite decide_False by lia. rewrite E. cbn [fst snd].
  by rewrite decide_False by (intros Hne; by apply Hne).
Qed.

Lemma readHeaderValue_past (H : list (IntType * IntTypeFormat)) (i : nat) f :
  (length H ≤ i)%nat →
  readHeaderValue f (mkIntReader (mkIntStream H) i)
    = (false, 0, mkIntReader (mkIntStream H) i).
Proof.
  intros Hle. unfold readHeaderValue. cbn [Input getHeader HeaderIndex].
  by rewrite decide_True by lia.
Qed.

Lemma readHeaderResults_past (H : list (IntType * IntTypeFormat)) fs : ∀ i,
  (length H ≤ i)%nat →
  readHeaderResults fs (mkIntReader (mkIntStream H) i)
    = (map (λ _, (false, 0)) fs, mkIntReader (mkIntStream H) i).
Proof.
  induction fs as [|f fs IH]; intros i Hle; [done|].
  cbn [readHeaderResults]. rewrite readHeaderValue_past by done.
  by rewrite IH.
Qed.

Lemma readHeaderResults_from (H : list (IntType * IntTypeFormat)) more : ∀ n i,
  (i + n = length H)%nat →
  readHeaderResults (map snd (drop i H) ++ more) (mkIntReader (mkIntStream H) i)
    = (map (λ e, (true, e.1)) (drop i H) ++ map (λ _, (false, 0)) more,
       mkIntReader (mkIntStream H) (length H)).
Proof.
  induction n as [|n IH]; intros i Hi.
  - rewrite drop_ge by lia. simpl. rewrite readHeaderResults_past by lia.
    do 2 f_equal. lia.
  - destruct (H !! i) as [[v f]|] eqn:E;
      [|apply lookup_ge_None in E; lia].
    rewrite (drop_S _ _ _ E). cbn [map app fst snd readHeaderResults].
    rewrite (readHeaderValue_at H i v f E).
    rewrite IH by lia. done.
Qed.

(** Reading a header back with the formats it was recorded with returns
    every value, in order, each call succeeding; every call after the last
    entry fails with value 0, and the index ends at the size of the header
    however many calls follow. *)
Theorem header_round_trip (H : list (IntType * IntTypeFormat))
    (more : list IntTypeFormat) :
  readHeaderResults (map snd H ++ more) (mkIntReader (mkIntStream H) 0)
    = (map (λ e, (true, e.1)) H ++ map (λ _, (false, 0)) more,
       mkIntReader (mkIntStream H) (length H)).
Proof. apply (readHeaderResults_from H more (length H) 0%nat). lia. Qed.

Lemma setStillAvailable_Index s n : Index (setStillAvailable s n) = Index s.
Proof. done. Qed.

(** The headroom test of the reader keeps its promise. Away from the
    wrap-around of [size_t], on an unfrozen stream [canProcessMoreInputNow]
    succeeds exactly when [kResumeHeadroom] integers lie beyond the index,
    and afterwards [stillMoreInputToProcessNow] holds at an index exactly
    when that many integers lie beyond it; on a frozen stream it always
    succeeds and the whole stream, its end included, passes the second
    test. The index is never moved. *)
Theorem headroom_guarantee (s : Flow) (ok : bool) (s' : Flow) :
  0 ≤ Index s → Index s + kResumeHeadroom < 2 ^ 64 →
  0 ≤ StreamSize s < 2 ^ 64 →
  canProcessMoreInputNow s = (ok, s') →
  Index s' = Index s ∧ StreamSize s' = StreamSize s ∧
  (IsFrozen s = false →
     (ok = true ↔ Index s + kResumeHeadroom ≤ StreamSize s) ∧
     (ok = true → stillMoreInputToProcessNow s' = true ∧
        ∀ i, stillMoreInputToProcessNow (setIndex s' i) = true
             ↔ i + kResumeHeadroom ≤ StreamSize s)) ∧
  (IsFrozen s = true →
     ok = true ∧
     ∀ i, stillMoreInputToProcessNow (setIndex s' i) = true ↔ i ≤ StreamSize s).
Proof.
  intros Hi Hnowrap Hsize. unfold canProcessMoreInputNow, kResumeHeadroom in *.
  cbn [IsFrozen StillAvailable Index setStillAvailable StreamSize].
  rewrite (wrap_small 64 (Index s + 100)) by lia.
  destruct (IsFrozen s) eqn:HF; cbn [negb].
  - intros [= <- <-]. cbn [Index StreamSize]. split_and!; try done.
    intros _. split; [done|]. intros i.
    unfold stillMoreInputToProcessNow. cbn. apply Z.leb_le.
  - destruct (StreamSize s <? Index s + 100) eqn:Hlt.
    + apply Z.ltb_lt in Hlt. intros [= <- <-]. cbn [Index StreamSize].
      split_and!; try done. intros _. split; [|done]. split; [done|lia].
    + apply Z.ltb_ge in Hlt. intros [= <- <-]. cbn [Index StreamSize].
      split_and!; try done. intros _.
      rewrite (wrap_small 64 (StreamSize s - 100)) by lia.
      split; [split; [lia|done]|]. intros _.
      unfold stillMoreInputToProcessNow. cbn. split; [apply Z.leb_le; lia|].
      intros i. rewrite Z.leb_le. lia.
Qed.

Lemma headroom_guarantee_witness :
  stillMoreInputToProcessNow (mkFlow 50 250 false 150) = true.
Proof.
  destruct (headroom_guarantee (mkFlow 50 250 false 0) true
              (mkFlow 50 250 false 150)) as (_ & _ & Hun & _).
  - simpl. lia.
  - unfold kResumeHeadroom. simpl. lia.
  - simpl. lia.
  - reflexivity.
  - destruct (Hun eq_refl) as [_ Hok]. exact (proj1 (Hok eq_refl)).
Defined.

End IntReadFlowProps.

(** ** Collection flags *)

Module CollectionFlagsProps.
Import CollectionFlags.

Lemma hasFlag_nonzero F Flags : hasFlag F Flags = true ↔ Z.land (Flag F) Flags ≠ 0.
Proof.
  unfold hasFlag. rewrite negb_true_iff, Z.eqb_neq. done.
Qed.

(** [None] is contained in no flag set, [All] is contained as soon as one
    of [TopLevel] and [IntPaths] is, these two do not overlap, and the
    default argument [Flag(All)] of [describe] contains every flag but
    [None]. *)
Theorem hasFlag_laws (Flags : Z) :
  hasFlag CollectionFlag.None Flags = false ∧
  hasFlag CollectionFlag.All Flags
    = hasFlag CollectionFlag.TopLevel Flags || hasFlag CollectionFlag.IntPaths Flags ∧
  hasFlag CollectionFlag.TopLevel (Flag CollectionFlag.IntPaths) = false ∧
  ∀ F, hasFlag F (Flag CollectionFlag.All)
       = match F with CollectionFlag.None => false | _ => true end.
Proof.
  split_and!.
  - done.
  - apply eq_true_iff_eq. rewrite orb_true_iff, !hasFlag_nonzero.
    cbn [Flag]. change 3 with (Z.lor 1 2).
    rewrite Z.land_lor_distr_l, Z.lor_eq_0_iff.
    destruct (decide (Z.land 1 Flags = 0)), (decide (Z.land 2 Flags = 0)); tauto.
  - done.
  - by intros [].
Qed.

End CollectionFlagsProps.

(** ** The string writer *)

Module StringWriteProps.
Import StringWrite.

Lemma pushBytes_take Buf : ∀ Size Str,
  (Size ≤ length Buf)%nat →
  pushBytes Buf Size Str = Done (Str ++ take Size Buf).
Proof.
  induction Buf as [|b Buf IH]; intros [|Size] Str Hle; simpl in *;
    try by rewrite app_nil_r.
  - lia.
  - rewrite IH by lia. by rewrite <- app_assoc.
Qed.

Lemma calls_app cs1 : ∀ cs2 w bs1 w1,
  calls cs1 w = Done (bs1, w1) →
  calls (cs1 ++ cs2) w
    = do '(bs2, w2) <~ calls cs2 w1 ;; Done (bs1 ++ bs2, w2).
Proof.
  induction cs1 as [|c cs1 IH]; intros cs2 w bs1 w1 Hrun.
  - injection Hrun as <- <-. simpl. by destruct (calls cs2 w) as [[??]| |].
  - cbn [calls app] in *. destruct (call c w) as [[b w0]| |]; [|done..].
    cbn [obind] in *.
    destruct (calls cs1 w0) as [[bs w0']| |] eqn:E; [|done..].
    cbn [obind] in Hrun. injection Hrun as <- <-.
    rewrite (IH cs2 w0 bs w0' E).
    by destruct (calls cs2 w0') as [[??]| |].
Qed.

Lemma calls_unfrozen cs : ∀ w,
  IsFrozen w = false → Forall inBounds cs →
  forallb (λ c, negb (isFreeze c)) cs = true →
  calls cs w = Done (map (λ c, match c with CallWrite _ _ => true | _ => false end) cs,
                     mkStringWriter (Str w ++ (cs ≫= payload)) false).
Proof.
  induction cs as [|c cs IH]; intros w HF Hin Hnf.
  - simpl. rewrite app_nil_r. by destruct w; simpl in *; subst.
  - apply Forall_cons in Hin as [Hc Hin]. cbn [forallb] in Hnf.
    apply andb_true_iff in Hnf as [Hc' Hnf].
    cbn [calls]. destruct c as [Buf Size| |]; [| done |].
    + cbn [call]. unfold write. rewrite HF.
      rewrite pushBytes_take by done. cbn [obind].
      rewrite IH by done. cbn [obind Str map].
      by rewrite bind_cons, <- app_assoc.
    + cbn [call obind]. rewrite IH by done. cbn [obind map]. unfold atEof.
      by rewrite HF, bind_cons.
Qed.

Lemma calls_frozen cs : ∀ w,
  IsFrozen w = true →
  calls cs w = Done (map (λ c, match c with CallWrite _ _ => false | _ => true end) cs, w).
Proof.
  induction cs as [|c cs IH]; intros w HF; [done|].
  cbn [calls]. destruct c as [Buf Size| |]; cbn [call].
  - unfold write. rewrite HF. cbn [obind]. by rewrite IH.
  - cbn [obind]. unfold freeze. rewrite IH by done. cbn [obind map].
    destruct w; simpl in *; by subst.
  - cbn [obind]. rewrite IH by done. cbn [obind map]. unfold atEof. by rewrite HF.
Qed.

(** Before the first freeze every write that stays inside its buffer is
    accepted, and the string is what it was followed by the bytes of the
    writes in call order, exactly [Size] bytes each; [atEof] answers
    false. *)
Theorem writes_accumulate (Str0 : list Z) (cs : list Call) :
  Forall inBounds cs →
  forallb (λ c, negb (isFreeze c)) cs = true →
  calls cs (newStringWriter Str0)
    = Done (map (λ c, match c with CallWrite _ _ => true | _ => false end) cs,
            mkStringWriter (Str0 ++ (cs ≫= payload)) false).
Proof. intros Hin Hnf. by apply (calls_unfrozen cs (newStringWriter Str0)). Qed.

Lemma writes_accumulate_witness :
  calls [CallWrite [1; 2; 3] 2; CallAtEof; CallWrite [4] 1] (newStringWriter [0])
    = Done ([true; false; true], mkStringWriter [0; 1; 2; 4] false).
Proof.
  apply (writes_accumulate [0] [CallWrite [1; 2; 3] 2; CallAtEof; CallWrite [4] 1]).
  - repeat constructor; simpl; lia.
  - reflexivity.
Defined.

(** Once frozen a writer stays frozen and its string is final: whatever
    calls follow return, every write is refused without looking at its
    buffer, [atEof] and [freeze] answer true, and the string never
    changes. *)
Theorem frozen_is_final (w : StringWriter) (cs : list Call) :
  ∃ bs, calls (CallFreeze :: cs) w
          = Done (true :: bs, mkStringWriter (Str w) true) ∧
        ∀ i c, cs !! i = Some c →
               bs !! i = Some (match c with CallWrite _ _ => false | _ => true end).
Proof.
  eexists. cbn [calls call freeze obind].
  rewrite calls_frozen by done. cbn [obind]. split; [done|].
  intros i c Hc. by rewrite list_lookup_fmap, Hc.
Qed.

End StringWriteProps.

(** ** More on the interpreter's reads *)

Module InterpMore.
Import Interp InterpProps.

Section ReadProps.

Variable fillPage : Queue → Queue.
Variable pushRecordsLastRead : bool.

Local Abbreviation awaitHeadroom := (awaitHeadroom fillPage).
Local Abbreviation read := (read fillPage pushRecordsLastRead).

(** The wait only extends the input, by whole calls of the producer. *)
Lemma awaitHeadroom_fills fuel : ∀ st st0,
  awaitHeadroom fuel st = Done st0 →
  ∃ n, (n ≤ fuel)%nat ∧
       st0 = setInputQueue st (Nat.iter n fillPage (InputQueue st)).
Proof.
  induction fuel as [|fuel IH]; intros st st0; simpl;
    destruct (hasEnoughHeadroom st) eqn:H; try done.
  - intros [= <-]. exists 0%nat. split; [lia|]. by destruct st.
  - intros [= <-]. exists 0%nat. split; [lia|]. by destruct st.
  - intros Hrun. apply IH in Hrun as (n & Hn & ->).
    exists (S n). split; [lia|]. cbn [InputQueue setInputQueue].
    rewrite Nat.iter_succ_r. by destruct st.
Qed.

(** What a returning read leaves of the state after its wait. *)
Lemma read_frame fuel : ∀ Nd st v st',
  read fuel Nd st = Done (v, st') →
  ∃ st0, awaitHeadroom fuel st = Done st0 ∧
         InputQueue st' = InputQueue st0 ∧
         OutputQueue st' = OutputQueue st ∧ WritePos st' = WritePos st ∧
         Reader st' = Reader st ∧ Writer st' = Writer st ∧
         MinimizeBlockSize st' = MinimizeBlockSize st.
Proof.
  intros [ty pl kids] st v st'. cbn [Interp.read].
  destruct (awaitHeadroom fuel st) as [st0| |] eqn:E; cbn [obind]; try done.
  destruct (awaitHeadroom_Done _ _ _ _ E) as [Hh [q ->]].
  intros Hrun. exists (setInputQueue st q). split; [done|].
  assert (∀ x s, pushReadReturnValue pushRecordsLastRead x s = Done (v, st') →
                 InputQueue st' = InputQueue s ∧
                 OutputQueue st' = OutputQueue s ∧ WritePos st' = WritePos s ∧
                 Reader st' = Reader s ∧ Writer st' = Writer s ∧
                 MinimizeBlockSize st' = MinimizeBlockSize s) as Hpush.
  { intros x s. unfold pushReadReturnValue.
    destruct pushRecordsLastRead; intros [= <- <-]; by destruct s. }
  destruct ty; try done;
    try (apply Hpush in Hrun; by destruct st);
    try (unfold readFormat in Hrun;
         destruct (readValue _ _ _ _ _) as [x pos];
         apply Hpush in Hrun; by destruct st).
  destruct kids as [|kid0 rest]; [done|].
  destruct (dispatchAgain _ _ (setInputQueue st q)) as [[x st1]| |] eqn:E1;
    cbn [obind] in Hrun; try done.
  by apply dispatchAgain_not_Done in E1.
Qed.

(** A read never writes: a read that returns leaves the output queue, the
    write cursor, both stream objects and [MinimizeBlockSize] as they were,
    whatever the expression. The input queue is only ever extended by
    whole calls of the producer, and is not touched when it is frozen on
    entry. *)
Theorem read_never_writes (fuel : nat) (Nd : Node) (st : Interpreter)
    (v : IntType) (st' : Interpreter) :
  read fuel Nd st = Done (v, st') →
  OutputQueue st' = OutputQueue st ∧ WritePos st' = WritePos st ∧
  Reader st' = Reader st ∧ Writer st' = Writer st ∧
  MinimizeBlockSize st' = MinimizeBlockSize st ∧
  (∃ n, (n ≤ fuel)%nat ∧ InputQueue st' = Nat.iter n fillPage (InputQueue st)) ∧
  (EofFrozen (InputQueue st) = true → InputQueue st' = InputQueue st).
Proof.
  intros Hrun.
  destruct (read_frame _ _ _ _ _ Hrun) as (st0 & Hw & HI & HO & HWp & HR & HW & HM).
  split_and!; try done.
  - destruct (awaitHeadroom_fills _ _ _ Hw) as (n & Hn & ->).
    exists n. split; [done|]. by rewrite HI.
  - intros HF. rewrite awaitHeadroom_ready in Hw.
    + injection Hw as <-. done.
    + unfold hasEnoughHeadroom. by rewrite HF.
Qed.

(** As [hasEnoughHeadroom] is written, a read only ever returns on a
    frozen input: with the read cursor below the wrap-around of [size_t],
    whenever [read] returns a value the input queue is marked finished,
    however many bytes the producer had buffered. *)
Theorem read_needs_frozen_input (fuel : nat) (Nd : Node) (st : Interpreter)
    (v : IntType) (st' : Interpreter) :
  0 <= CurByteAddress (ReadPos st) < 2 ^ 64 - 100 →
  read fuel Nd st = Done (v, st') →
  EofFrozen (InputQueue st') = true.
Proof.
  intros Hcur Hrun.
  destruct (read_frame _ _ _ _ _ Hrun) as (st0 & Hw & HI & _).
  destruct (awaitHeadroom_Done _ _ _ _ Hw) as [Hh [q ->]].
  rewrite hasEnoughHeadroom_frozen_only in Hh by (by destruct st).
  by rewrite HI.
Qed.

End ReadProps.

(** A read of one byte from the frozen input [66]. *)
Lemma read_never_writes_witness :
  ∃ st', read (λ q, q) true 0 uint8Node
              (sampleInterpreter [66] true false) = Done (66, st') ∧
         OutputQueue st' = mkQueue [] false ∧ WritePos st' = mkWriteCursor 0.
Proof.
  eexists. split; [reflexivity|].
  destruct (read_never_writes (λ q, q) true 0 uint8Node
              (sampleInterpreter [66] true false) 66 _ eq_refl)
    as (HO & HW & _).
  split; [exact HO | exact HW].
Defined.

Lemma read_needs_frozen_input_witness :
  ∃ st', read (λ q, mkQueue (Bytes q) true) true 1 uint8Node
              (sampleInterpreter [66] false false) = Done (66, st') ∧
         EofFrozen (InputQueue st') = true.
Proof.
  eexists. split; [reflexivity|].
  apply (read_needs_frozen_input (λ q, mkQueue (Bytes q) true) true 1 uint8Node
           (sampleInterpreter [66] false false) 66).
  - simpl. lia.
  - reflexivity.
Defined.

End InterpMore.

(** ** The algorithm generator *)

Module AbbrevCodegenProps.
Import AbbrevCodegen.

(** *** Building nodes *)

Lemma fold_append {A} (f : A → Node) (l : list A) : ∀ W,
  fold_left (λ W x, append W (f x)) l W
    = mkNode (getType W) (getPayload W) (getKids W ++ map f l).
Proof.
  induction l as [|x l IH]; intros W; simpl.
  - rewrite app_nil_r. by destruct W.
  - rewrite IH. unfold append. simpl. by rewrite <- app_assoc.
Qed.

Lemma occurs_append T Nd Kid :
  occurs T (append Nd Kid) = occurs T Nd || occurs T Kid.
Proof.
  destruct Nd as [ty pl kids]. unfold append. cbn [occurs getType getPayload getKids].
  rewrite existsb_app. cbn [existsb]. by rewrite orb_false_r, orb_assoc.
Qed.

(** *** The case of an abbreviated path *)









(** *** The write direction *)

Section NoReads.

Variable T : NodeType.t.
Hypothesis HT : T = NodeType.Read ∨ T = NodeType.Write.

Lemma occurs_generateHuffmanEncoding Root :
  occurs T (generateHuffmanEncoding Root) = false.
Proof.
  induction Root as [k1 IH1 k2 IH2|]; cbn [generateHuffmanEncoding];
    unfold create; cbn [occurs existsb].
  - rewrite IH1, IH2. by destruct HT as [-> | ->].
  - by destruct HT as [-> | ->].
Qed.

Lemma occurs_generateAbbreviationRead Flags EncodingRoot :
  occurs T (generateAbbreviationRead Flags EncodingRoot false) = false.
Proof.
  unfold generateAbbreviationRead. destruct EncodingRoot as [Root|].
  - unfold create. cbn [occurs existsb].
    rewrite occurs_generateHuffmanEncoding. by destruct HT as [-> | ->].
  - destruct (AbbrevFormat Flags); by destruct HT as [-> | ->].
Qed.

Lemma occurs_generateAction Nd : occurs T (generateAction false Nd) = false.
Proof.
  destruct Nd as [r|[] n|[] n|n|n]; by destruct HT as [-> | ->].
Qed.

Lemma occurs_appendCases Nds : ∀ S S',
  occurs T S = false → appendCases false Nds S = Done S' → occurs T S' = false.
Proof.
  induction Nds as [|Nd Nds IH]; intros S S' HS; cbn [appendCases].
  - by intros [= <-].
  - destruct (getAbbrevIndex Nd) as [i| |]; cbn [obind]; try done.
    apply IH. rewrite occurs_append, HS. unfold generateCase, create, createInt.
    cbn [occurs existsb]. rewrite occurs_generateAction.
    by destruct HT as [-> | ->].
Qed.

Lemma occurs_mapCases CatMap : ∀ MapNd,
  occurs T MapNd = false →
  occurs T (fold_left (λ MapNd (Pair : IntType * Z),
                         append MapNd (generateMapCase Pair.1 Pair.2))
                      CatMap MapNd) = false.
Proof.
  induction CatMap as [|[k c] CatMap IH]; intros MapNd HM; [done|].
  cbn [fold_left]. apply IH. rewrite occurs_append, HM.
  by destruct HT as [-> | ->].
Qed.

Lemma occurs_generateFunctions Flags EncodingRoot Assignments Alg Alg' :
  occurs T Alg = false →
  generateFunctions Flags EncodingRoot Assignments false Alg = Done Alg' →
  occurs T Alg' = false.
Proof.
  intros HA. unfold generateFunctions.
  destruct (UseCismModel Flags); cbn [negb].
  - unfold generateCategorizeFunction.
    destruct (collectCategories Assignments []) as [CatMap| |]; cbn [obind]; try done.
    intros [= <-]. rewrite !occurs_append, HA, occurs_mapCases.
    + pose proof (occurs_generateAbbreviationRead Flags EncodingRoot) as HR.
      unfold generateOpcodeFunction. rewrite !occurs_append, HR.
      by destruct HT as [-> | ->].
    + by destruct HT as [-> | ->].
  - unfold generateStartFunction, generateSwitchStatement.
    destruct (appendCases _ _ _) as [S| |] eqn:E; cbn [obind]; try done.
    intros [= <-]. apply occurs_appendCases in E.
    + rewrite !occurs_append, HA. unfold create at 4. cbn [occurs existsb].
      rewrite E. by destruct HT as [-> | ->].
    + rewrite !occurs_append, occurs_generateAbbreviationRead.
      by destruct HT as [-> | ->].
Qed.

Lemma occurs_getCodeSymtab (c1 c2 c3 c4 c5 c6 : Z) Flags EncodingRoot Assignments S :
  getCodeSymtab c1 c2 c3 c4 c5 c6 Flags EncodingRoot Assignments false = Done S →
  occurs T (getAlgorithm S) = false.
Proof.
  unfold getCodeSymtab.
  destruct (generateFunctions _ _ _ _ _) as [Alg| |] eqn:E; cbn [obind]; try done.
  intros [= <-]. cbn [getAlgorithm].
  apply occurs_generateFunctions in E; [done|].
  destruct (UseCismModel Flags); by destruct HT as [-> | ->].
Qed.

End NoReads.

(** The algorithm generated for the write direction consumes no input and
    replays no literal: whatever the flags, the Huffman tree and the
    assignments, no [Read] node and no [Write] node occurs anywhere in
    it. *)
Theorem write_direction_reads_nothing
    (CasmBinaryMagic CasmBinaryVersion CismBinaryMagic CismBinaryVersion
     WasmBinaryMagic WasmBinaryVersionD : Z)
    (Flags : CompressionFlags) (EncodingRoot : option HuffmanNode)
    (Assignments : list CountNodePtr) (S : SymbolTable) :
  getCodeSymtab CasmBinaryMagic CasmBinaryVersion CismBinaryMagic CismBinaryVersion
                WasmBinaryMagic WasmBinaryVersionD
                Flags EncodingRoot Assignments false = Done S →
  occurs NodeType.Read (getAlgorithm S) = false ∧
  occurs NodeType.Write (getAlgorithm S) = false.
Proof.
  intros Hrun. split.
  - eapply (occurs_getCodeSymtab NodeType.Read); [by left | exact Hrun].
  - eapply (occurs_getCodeSymtab NodeType.Write); [by right | exact Hrun].
Qed.

Lemma write_direction_reads_nothing_witness :
  ∃ S, getCodeSymtab 1 2 3 4 5 6 (mkFlags false Varuint32)
                     (Some (Selector HuffmanSymbol HuffmanSymbol))
                     sampleAssignments false = Done S ∧
       occurs NodeType.Read (getAlgorithm S) = false ∧
       occurs NodeType.Write (getAlgorithm S) = false.
Proof.
  eexists. split; [reflexivity|].
  apply (write_direction_reads_nothing 1 2 3 4 5 6 (mkFlags false Varuint32)
           (Some (Selector HuffmanSymbol HuffmanSymbol)) sampleAssignments).
  reflexivity.
Defined.

(** *** The categorize map *)

Lemma mapAssign_bound a k v m :
  a < k → Forall (Z.lt a) (map fst m) → Forall (Z.lt a) (map fst (mapAssign k v m)).
Proof.
  intros Hak. induction m as [|[k' v'] m IH]; intros Hm; cbn [mapAssign].
  - by repeat constructor.
  - cbn [map fst] in Hm. apply Forall_cons in Hm as [Hk' Hm].
    destruct (k <? k') eqn:E1; [|destruct (k =? k') eqn:E2]; cbn [map fst].
    + by repeat constructor.
    + by constructor.
    + constructor; [done | by apply IH].
Qed.

Lemma mapAssign_sorted k v m :
  StronglySorted Z.lt (map fst m) → StronglySorted Z.lt (map fst (mapAssign k v m)).
Proof.
  induction m as [|[k' v'] m IH]; intros Hm; cbn [mapAssign].
  - repeat constructor.
  - cbn [map fst] in Hm. apply StronglySorted_inv in Hm as [Hm Hk'].
    destruct (k <? k') eqn:E1; [|destruct (k =? k') eqn:E2]; cbn [map fst].
    + apply Z.ltb_lt in E1. constructor; [by constructor|].
      constructor; [done|]. eapply Forall_impl; [exact Hk'|]. simpl. lia.
    + apply Z.eqb_eq in E2. subst k'. by constructor.
    + apply Z.ltb_ge in E1. apply Z.eqb_neq in E2.
      constructor; [by apply IH|]. apply mapAssign_bound; [lia | done].
Qed.

Lemma mapAssign_In k v m k0 v0 :
  In (k0, v0) (mapAssign k v m) → (k0, v0) = (k, v) ∨ In (k0, v0) m.
Proof.
  induction m as [|[k' v'] m IH]; cbn [mapAssign].
  - intros [H|[]]. by left.
  - destruct (k <? k'); [|destruct (k =? k')]; simpl; intros H.
    + destruct H as [H|H]; [by left | by right].
    + destruct H as [H|H]; [by left | right; by right].
    + destruct H as [H|H]; [right; by left|].
      destruct (IH H) as [?|?]; [by left | right; by right].
Qed.

Lemma mapAssign_key k v m : In k (map fst (mapAssign k v m)).
Proof.
  induction m as [|[k' v'] m IH]; cbn [mapAssign]; [by left|].
  destruct (k <? k'); [|destruct (k =? k')]; simpl; auto.
Qed.

Lemma mapAssign_keeps k v m k0 :
  In k0 (map fst m) → In k0 (map fst (mapAssign k v m)).
Proof.
  induction m as [|[k' v'] m IH]; cbn [mapAssign]; [done|].
  destruct (k <? k'); [|destruct (k =? k') eqn:E]; simpl; intros [H|H]; auto.
  apply Z.eqb_eq in E. left. congruence.
Qed.

Lemma collectCategories_spec Nds : ∀ CatMap CatMap',
  collectCategories Nds CatMap = Done CatMap' →
  StronglySorted Z.lt (map fst CatMap) →
  StronglySorted Z.lt (map fst CatMap') ∧
  (∀ k c, In (k, c) CatMap' →
          In (k, c) CatMap ∨
          ∃ Nd, In Nd Nds ∧ abbrevIndex Nd = Some k ∧ categoryOf Nd = Some c) ∧
  (∀ k, In k (map fst CatMap) → In k (map fst CatMap')) ∧
  (∀ Nd k, In Nd Nds → abbrevIndex Nd = Some k → is_Some (categoryOf Nd) →
           In k (map fst CatMap')) ∧
  Forall (λ Nd, is_Some (abbrevIndex Nd)) Nds.
Proof.
  induction Nds as [|Nd Nds IH]; intros CatMap CatMap'; cbn [collectCategories].
  - intros [= <-] Hs. split_and!; [done | by left | done | by intros ?? [] | done].
  - unfold getAbbrevIndex. destruct (abbrevIndex Nd) as [i|] eqn:Hi; [|done].
    cbn [obind]. destruct (categoryOf Nd) as [c|] eqn:Hc; intros Hrun Hs.
    + apply IH in Hrun as (Hs' & Hin & Hkeep & Hall & Hidx);
        [|by apply mapAssign_sorted].
      split_and!; [done | | | | by constructor].
      * intros k c' Hk. destruct (Hin k c' Hk) as [H|(Nd' & ? & ? & ?)].
        -- destruct (mapAssign_In _ _ _ _ _ H) as [[= -> ->]|?]; [|by left].
           right. exists Nd. split_and!; [by left | done | done].
        -- right. exists Nd'. split_and!; [by right | done | done].
      * intros k Hk. by apply Hkeep, mapAssign_keeps.
      * intros Nd' k [<-|Hin'] Hk Hcat.
        -- rewrite Hi in Hk. injection Hk as <-. apply Hkeep, mapAssign_key.
        -- by eapply Hall.
    + apply IH in Hrun as (Hs' & Hin & Hkeep & Hall & Hidx); [|done].
      split_and!; [done | | done | | by constructor].
      * intros k c' Hk. destruct (Hin k c' Hk) as [H|(Nd' & ? & ? & ?)];
          [by left|].
        right. exists Nd'. split_and!; [by right | done | done].
      * intros Nd' k [<-|Hin'] Hk Hcat.
        -- rewrite Hc in Hcat. by destruct Hcat.
        -- by eapply Hall.
Qed.

(** The cases of the generated [categorize] map come in strictly
    increasing order of abbreviation index, one per index, whatever the
    order of the assignments: each case maps the index of a default, block
    or align assignment to the tag of its kind, every such assignment has
    its index among the cases, and integer paths have none. The function is
    only generated when every assignment has an index. *)
Theorem categorize_cases_sorted (Assignments : list CountNodePtr) (Fcn : Node) :
  generateCategorizeFunction Assignments = Done Fcn →
  ∃ CatMap,
    Fcn = create NodeType.Define
            [getOrCreateSymbol CategorizeName;
             createInt NodeType.ParamValues 1 Decimal;
             create NodeType.NoLocals [];
             create NodeType.Map
               (createInt NodeType.Param 0 Decimal
                :: map (λ e, generateMapCase e.1 e.2) CatMap)] ∧
    StronglySorted Z.lt (map fst CatMap) ∧
    (∀ k c, In (k, c) CatMap →
       ∃ Nd, In Nd Assignments ∧ abbrevIndex Nd = Some k ∧ categoryOf Nd = Some c) ∧
    (∀ Nd k, In Nd Assignments → abbrevIndex Nd = Some k →
       is_Some (categoryOf Nd) → In k (map fst CatMap)) ∧
    Forall (λ Nd, is_Some (abbrevIndex Nd)) Assignments.
Proof.
  unfold generateCategorizeFunction.
  destruct (collectCategories Assignments []) as [CatMap| |] eqn:E;
    cbn [obind]; try done.
  intros [= <-]. exists CatMap.
  destruct (collectCategories_spec _ _ _ E) as (Hs & Hin & _ & Hall & Hidx);
    [constructor|].
  split_and!; try done.
  - by rewrite (fold_append (λ e : IntType * Z, generateMapCase e.1 e.2)).
  - intros k c Hk. by destruct (Hin k c Hk) as [[]|?].
Qed.

Lemma categorize_cases_sorted_witness :
  ∃ CatMap,
    generateCategorizeFunction sampleAssignments
      = Done (create NodeType.Define
                [getOrCreateSymbol CategorizeName;
                 createInt NodeType.ParamValues 1 Decimal;
                 create NodeType.NoLocals [];
                 create NodeType.Map
                   (createInt NodeType.Param 0 Decimal
                    :: map (λ e, generateMapCase e.1 e.2) CatMap)]) ∧
    StronglySorted Z.lt (map fst CatMap).
Proof.
  destruct (categorize_cases_sorted sampleAssignments
              (create NodeType.Define
                 [getOrCreateSymbol CategorizeName;
                  createInt NodeType.ParamValues 1 Decimal;
                  create NodeType.NoLocals [];
                  create NodeType.Map
                    [createInt NodeType.Param 0 Decimal;
                     generateMapCase 1 CismDefaultSingleValue;
                     generateMapCase 2 CismDefaultMultipleValue;
                     generateMapCase 3 CismBlockEnterValue;
                     generateMapCase 4 CismBlockExitValue]]) eq_refl)
    as (CatMap & HF & Hs & _).
  exists CatMap. split; [|exact Hs].
  rewrite <- HF. reflexivity.
Defined.

(** *** Headers *)

(** With the cism model the two directions' headers fit crosswise: the
    algorithm for reading expects the cism magic number and version that
    the algorithm for writing announces, and announces the wasm ones the
    other expects; both are headed by the casm source header and enclosed
    by the cism base algorithm. *)
Theorem headers_cross
    (CasmBinaryMagic CasmBinaryVersion CismBinaryMagic CismBinaryVersion
     WasmBinaryMagic WasmBinaryVersionD : Z)
    (Flags : CompressionFlags) (EncodingRoot : option HuffmanNode)
    (Assignments : list CountNodePtr) (Sr Sw : SymbolTable) :
  UseCismModel Flags = true →
  getCodeSymtab CasmBinaryMagic CasmBinaryVersion CismBinaryMagic CismBinaryVersion
                WasmBinaryMagic WasmBinaryVersionD
                Flags EncodingRoot Assignments true = Done Sr →
  getCodeSymtab CasmBinaryMagic CasmBinaryVersion CismBinaryMagic CismBinaryVersion
                WasmBinaryMagic WasmBinaryVersionD
                Flags EncodingRoot Assignments false = Done Sw →
  headerValues NodeType.ReadHeader (getAlgorithm Sr)
    = Some (CismBinaryMagic, CismBinaryVersion) ∧
  headerValues NodeType.WriteHeader (getAlgorithm Sw)
    = Some (CismBinaryMagic, CismBinaryVersion) ∧
  headerValues NodeType.WriteHeader (getAlgorithm Sr)
    = Some (WasmBinaryMagic, WasmBinaryVersionD) ∧
  headerValues NodeType.ReadHeader (getAlgorithm Sw)
    = Some (WasmBinaryMagic, WasmBinaryVersionD) ∧
  headerValues NodeType.SourceHeader (getAlgorithm Sr)
    = Some (CasmBinaryMagic, CasmBinaryVersion) ∧
  headerValues NodeType.SourceHeader (getAlgorithm Sw)
    = Some (CasmBinaryMagic, CasmBinaryVersion) ∧
  hasCismEnclosingScope Sr = true ∧ hasCismEnclosingScope Sw = true.
Proof.
  intros HC. unfold getCodeSymtab, generateFunctions. rewrite HC. cbn [negb].
  destruct (generateCategorizeFunction Assignments) as [Fcn| |];
    cbn [obind]; try done.
  intros [= <-] [= <-]. by split_and!.
Qed.

Lemma headers_cross_witness :
  ∃ Sr Sw,
    getCodeSymtab 1 2 3 4 5 6 (mkFlags true Varuint32) None sampleAssignments true
      = Done Sr ∧
    getCodeSymtab 1 2 3 4 5 6 (mkFlags true Varuint32) None sampleAssignments false
      = Done Sw ∧
    headerValues NodeType.ReadHeader (getAlgorithm Sr)
      = headerValues NodeType.WriteHeader (getAlgorithm Sw).
Proof.
  eexists _, _. split_and!; [reflexivity | reflexivity |].
  destruct (headers_cross 1 2 3 4 5 6 (mkFlags true Varuint32) None
              sampleAssignments _ _ eq_refl eq_refl eq_refl)
    as (H1 & H2 & _).
  exact (eq_trans H1 (eq_sym H2)).
Defined.

End AbbrevCodegenProps.

(** ** The evaluator *)

Module InterpEvalProps.
Import Interp InterpProps InterpEval.

Section EvaluatorProps.

Variable fillPage : Queue → Queue.
Variable pushRecordsLastRead : bool.
Variable getDefineDefinition : Node → option Node.
Variable getCase : Node → IntType → option Node.
Variable atByteEob : Queue → ReadCursor → bool.
Variable atReadBitEob : Queue → ReadCursor → bool.
Variable callsDefiningSymbol : Node → Node → bool.
Variable writeFormat :
  NodeType → IntType → IntType → Queue → WriteCursor → Queue * WriteCursor.
Variable getWriteCase : Node → IntType → option Node * Z * IntType.

Local Abbreviation read := (Interp.read fillPage pushRecordsLastRead).
Local Abbreviation getParam := (InterpEval.getParam callsDefiningSymbol).
Local Abbreviation findCaller := (InterpEval.findCaller callsDefiningSymbol).
Local Abbreviation write :=
  (InterpEval.write fillPage callsDefiningSymbol writeFormat getWriteCase).
Local Abbreviation eval :=
  (InterpEval.eval fillPage pushRecordsLastRead getDefineDefinition getCase
                   atByteEob atReadBitEob callsDefiningSymbol writeFormat
                   getWriteCase).

(** *** Expressions that cannot be read *)

Lemma read_not_implemented wait Nd st r :
  getType Nd = OpMap ∨ getType Nd = OpOpcode →
  read wait Nd st ≠ Done r.
Proof.
  intros HT. destruct Nd as [ty pl kids]. cbn [getType] in HT. cbn [Interp.read].
  destruct (awaitHeadroom fillPage wait st) as [st0| |]; cbn [obind]; try done.
  by destruct HT as [-> | ->].
Qed.

(** Evaluating a [Map] or an [Opcode] expression never returns a value:
    [eval] first reads the expression itself, and the Read method has no
    case for either, so the run is fatal as soon as there is headroom.
    [readOpcode] is therefore never reached from [eval]. *)
Theorem eval_map_opcode_fatal (fuel wait : nat) (EvalStack : list Node)
    (Nd : Node) (st : Interpreter) :
  getType Nd = OpMap ∨ getType Nd = OpOpcode →
  (∀ r, eval fuel wait EvalStack Nd st ≠ Done r) ∧
  (hasEnoughHeadroom st = true → eval (S fuel) wait EvalStack Nd st = Aborted).
Proof.
  intros HT. split.
  - intros r. destruct fuel as [|fuel]; [done|]. cbn [InterpEval.eval].
    destruct (read wait Nd st) as [[v st1]| |] eqn:E.
    + by apply read_not_implemented in E.
    + by destruct HT as [-> | ->].
    + by destruct HT as [-> | ->].
  - intros Hh. cbn [InterpEval.eval].
    assert (read wait Nd st = Aborted) as ->.
    { destruct Nd as [ty pl kids]. cbn [getType] in HT. cbn [Interp.read].
      rewrite (awaitHeadroom_ready fillPage wait st Hh). cbn [obind].
      by destruct HT as [-> | ->]. }
    by destruct HT as [-> | ->].
Qed.

(** *** Control expressions *)

Lemma eval_control_zero fuel : ∀ wait EvalStack Nd st v st',
  isControl (getType Nd) = true →
  eval fuel wait EvalStack Nd st = Done (v, st') → v = 0.
Proof.
  induction fuel as [|fuel IH]; intros wait EvalStack Nd st v st' HT; [done|].
  cbn [InterpEval.eval].
  destruct (getType Nd) eqn:ET; try done; clear HT.
  - (* OpSwitch *)
    destruct (getKid Nd 0) as [k0| |]; cbn [obind]; try done.
    destruct (eval fuel wait EvalStack k0 st) as [[sel st1]| |]; cbn [obind]; try done.
    destruct (getCase Nd sel) as [Case|].
    + destruct (eval fuel wait EvalStack Case st1) as [[? ?]| |]; cbn [obind]; try done.
      by intros [= <- _].
    + destruct (getKid Nd 1) as [k1| |]; cbn [obind]; try done.
      destruct (eval fuel wait EvalStack k1 st1) as [[? ?]| |]; cbn [obind]; try done.
      by intros [= <- _].
  - (* OpCase *)
    destruct (getKid Nd 1) as [k1| |]; cbn [obind]; try done.
    destruct (eval fuel wait EvalStack k1 st) as [[? ?]| |]; cbn [obind]; try done.
    by intros [= <- _].
  - (* OpBlock *)
    destruct (getKid Nd 0) as [k0| |]; cbn [obind]; try done.
    destruct (decompressBlock _ _ _ _ _) as [?| |]; cbn [obind]; try done.
    by intros [= <- _].
  - (* OpIfThen *)
    destruct (getKid Nd 0) as [k0| |]; cbn [obind]; try done.
    destruct (eval fuel wait EvalStack k0 st) as [[v0 st1]| |]; cbn [obind]; try done.
    destruct (negb (v0 =? 0)); [|by intros [= <- _]].
    destruct (getKid Nd 1) as [k1| |]; cbn [obind]; try done.
    destruct (eval fuel wait EvalStack k1 st1) as [[? ?]| |]; cbn [obind]; try done.
    by intros [= <- _].
  - (* OpIfThenElse *)
    destruct (getKid Nd 0) as [k0| |]; cbn [obind]; try done.
    destruct (eval fuel wait EvalStack k0 st) as [[v0 st1]| |]; cbn [obind]; try done.
    destruct (getKid Nd _) as [k| |]; cbn [obind]; try done.
    destruct (eval fuel wait EvalStack k st1) as [[? ?]| |]; cbn [obind]; try done.
    by intros [= <- _].
  - (* OpLoop *)
    destruct (getKid Nd 0) as [k0| |]; cbn [obind]; try done.
    destruct (eval fuel wait EvalStack k0 st) as [[Count st1]| |]; cbn [obind]; try done.
    match goal with |- obind ?m _ = _ → _ => destruct m as [?| |] end;
      cbn [obind]; try done.
    by intros [= <- _].
  - (* OpLoopUnbounded *)
    destruct (atReadBitEob _ _); [by intros [= <- _]|].
    match goal with |- obind ?m _ = _ → _ => destruct m as [st1| |] end;
      cbn [obind]; try done.
    apply IH. by rewrite ET.
  - (* OpSequence *)
    match goal with |- obind ?m _ = _ → _ => destruct m as [?| |] end;
      cbn [obind]; try done.
    by intros [= <- _].
  - (* OpVoid *)
    by intros [= <- _].
Qed.

(** The value of a control expression is always 0: a [Switch], [Case],
    [Block], [IfThen], [IfThenElse], [Loop], [LoopUnbounded], [Sequence]
    or [Void] that returns, returns 0, whatever the selected branch or the
    body evaluated to. *)
Theorem eval_control_returns_zero (fuel wait : nat) (EvalStack : list Node)
    (Nd : Node) (st : Interpreter) (v : IntType) (st' : Interpreter) :
  isControl (getType Nd) = true →
  eval fuel wait EvalStack Nd st = Done (v, st') →
  v = 0.
Proof. apply eval_control_zero. Qed.

(** Reading an opcode with this evaluator: whenever a case matches the
    assembled selector value, the case node evaluates to 0, so [readOpcode]
    returns 0 and leaves 0 in [LastReadValue] in place of the value it
    assembled. *)
Theorem readOpcode_match_clears (fuel wait depth : nat) (EvalStack : list Node)
    (Nd : Node) (PrefixValue : IntType) (NumOpcodes : Z)
    (st st1 : Interpreter) (Case : Node) (v : IntType) (st' : Interpreter) :
  readOpcodeAssemble fillPage pushRecordsLastRead getDefineDefinition
                     depth wait Nd PrefixValue NumOpcodes st = Done st1 →
  getCase Nd (LastReadValue st1) = Some Case →
  getType Case = OpCase →
  readOpcode fillPage pushRecordsLastRead getDefineDefinition getCase
             (eval fuel wait EvalStack) depth wait Nd PrefixValue NumOpcodes st
    = Done (v, st') →
  v = 0 ∧ LastReadValue st' = 0.
Proof.
  intros Hasm Hcase HT. unfold readOpcode.
  destruct (getType Nd); try done.
  rewrite Hasm. cbn [obind]. rewrite Hcase.
  destruct (eval fuel wait EvalStack Case st1) as [[x st2]| |] eqn:E;
    cbn [obind]; try done.
  apply eval_control_zero in E; [|by rewrite HT]. subst x.
  by intros [= <- <-].
Qed.

(** C6, as the code has it. Opcode assembly: when [readOpcode] runs on an
    [Opcode] node with a continuation expected ([NumOpcodes > 0]), prefix
    [p], and the selector read returns bit size [b] having read the value
    [c] into [LastReadValue]: for [b] in [1, 63] the value [(p << b) | c] on
    64 bits is assembled in [LastReadValue] and is the key of the case
    lookup. When no case matches, it stays in [LastReadValue] and is the
    value returned. When a case matches, the case is evaluated from that
    state and its result replaces the assembled value, in [LastReadValue]
    and as the value returned; for a case node that result is 0. For [b]
    equal to 0 or at least 64 the run is fatal. *)
Theorem readOpcode_assembly (fuel wait depth : nat) (EvalStack : list Node)
    (Nd SelectorNd : Node) (p : IntType) (NumOpcodes : Z)
    (st st1 : Interpreter) (b : Z) :
  getType Nd = OpOpcode →
  getKid Nd 0 = Done SelectorNd →
  readOpcodeSelector fillPage pushRecordsLastRead getDefineDefinition
                     depth wait SelectorNd st = Done (b, st1) →
  0 < NumOpcodes →
  let c := LastReadValue st1 in
  let assembled := Z.lor (wrap 64 (Z.shiftl p b)) c in
  let assemble :=
    readOpcodeAssemble fillPage pushRecordsLastRead getDefineDefinition
                       depth wait Nd p NumOpcodes st in
  let run :=
    readOpcode fillPage pushRecordsLastRead getDefineDefinition getCase
               (eval fuel wait EvalStack) depth wait Nd p NumOpcodes st in
  (∃ leaf st0, read wait leaf st = Done (c, st0) ∧ st1 = setLastReadValue st0 c) ∧
  (1 <= b <= 63 →
     assemble = Done (setLastReadValue st1 assembled) ∧
     (getCase Nd assembled = None →
      run = Done (assembled, setLastReadValue st1 assembled)) ∧
     (∀ Case, getCase Nd assembled = Some Case →
        run = (do '(v, st2) <~ eval fuel wait EvalStack Case
                                  (setLastReadValue st1 assembled) ;;
               Done (v, setLastReadValue st2 v)) ∧
        (getType Case = OpCase →
         ∀ v st', run = Done (v, st') → v = 0 ∧ LastReadValue st' = 0))) ∧
  (b < 1 ∨ 64 <= b → assemble = Aborted ∧ run = Aborted).
Proof.
  intros Hty Hkid Hsel Hn c assembled assemble run.
  split.
  { destruct (readOpcodeSelector_reads _ _ _ _ _ _ _ _ _ Hsel)
      as (_ & leaf & st0 & c' & Hread & ->).
    exists leaf, st0. by destruct st0. }
  subst assemble run. unfold readOpcode, readOpcodeAssemble.
  rewrite Hty, Hkid. cbn [obind]. rewrite Hsel. cbn [obind].
  rewrite (proj2 (Z.ltb_lt _ _) Hn).
  split.
  - intros Hb.
    rewrite (proj2 (Z.ltb_ge _ _)) by lia.
    rewrite (proj2 (Z.leb_gt _ _)) by lia. cbn [orb obind].
    rewrite Z.lor_comm. fold c. fold assembled.
    cbn [LastReadValue setLastReadValue].
    split_and!; [done | by intros -> |].
    intros Case ->. split; [done|]. intros HT v st'.
    destruct (eval fuel wait EvalStack Case (setLastReadValue st1 assembled))
      as [[x st2]| |] eqn:E; cbn [obind]; try done.
    apply eval_control_zero in E; [|by rewrite HT]. subst x.
    by intros [= <- <-].
  - intros [Hb|Hb].
    + rewrite (proj2 (Z.ltb_lt _ _)) by lia. by cbn.
    + rewrite (proj2 (Z.leb_le _ _)) by lia. rewrite orb_true_r. by cbn.
Qed.

(** *** Parameters *)

Lemma findCaller_spec P ParamIndex : ∀ Callers k,
  findCaller P ParamIndex Callers = Done k →
  ∃ skipped Caller rest,
    Callers = skipped ++ Caller :: rest ∧
    Forall (λ C, callsDefiningSymbol P C = false
                 ∨ toIntType (getNumKids C) <= ParamIndex) skipped ∧
    getType Caller = OpEval ∧
    callsDefiningSymbol P Caller = true ∧
    ParamIndex < toIntType (getNumKids Caller) ∧
    getKids Caller !! Z.to_nat ParamIndex = Some k.
Proof.
  induction Callers as [|C Callers IH]; intros k; [done|].
  cbn [InterpEval.findCaller]. unfold isa.
  case_bool_decide as HC; cbn [assert obind]; [|done].
  destruct (callsDefiningSymbol P C) eqn:Hcalls; cbn [negb].
  - destruct (ParamIndex <? toIntType (getNumKids C)) eqn:Hlt.
    + apply Z.ltb_lt in Hlt. unfold getKid.
      destruct (getKids C !! Z.to_nat ParamIndex) as [k'|] eqn:Hk; [|done].
      intros [= <-]. exists [], C, Callers. by split_and!.
    + apply Z.ltb_ge in Hlt. intros Hrun.
      destruct (IH k Hrun) as (sk & Caller & rest & -> & Hsk & H1 & H2 & H3 & H4).
      exists (C :: sk), Caller, rest. split_and!; try done.
      constructor; [by right | done].
  - intros Hrun.
    destruct (IH k Hrun) as (sk & Caller & rest & -> & Hsk & H1 & H2 & H3 & H4).
    exists (C :: sk), Caller, rest. split_and!; try done.
    constructor; [by left | done].
Qed.

(** A parameter resolves to an argument of the innermost call on the
    evaluation stack that is a call of the parameter's defining symbol and
    has enough kids: the kid of index [value + 1]. Calls nearer to the top
    that are calls of another symbol, or have too few kids, are passed over
    silently. The kid is never the callee (kid 0) unless the index wraps
    around. *)
Theorem getParam_innermost (P : Node) (EvalStack : list Node) (k : Node) :
  getParam P EvalStack = Done k →
  let ParamIndex := toIntType (getValue P + 1) in
  ∃ outer Caller inner,
    EvalStack = outer ++ Caller :: inner ∧
    getType P = OpParam ∧ getType Caller = OpEval ∧
    callsDefiningSymbol P Caller = true ∧
    getKids Caller !! Z.to_nat ParamIndex = Some k ∧
    Forall (λ C, callsDefiningSymbol P C = false
                 ∨ toIntType (getNumKids C) <= ParamIndex) inner ∧
    (0 <= getValue P < 2 ^ 64 - 1 → (1 ≤ Z.to_nat ParamIndex)%nat).
Proof.
  unfold InterpEval.getParam. intros Hrun. cbv zeta.
  destruct EvalStack as [|C0 es]; [done|].
  unfold isa in Hrun. case_bool_decide as HP; cbn [assert obind] in Hrun; [|done].
  destruct (findCaller_spec _ _ _ _ Hrun)
    as (sk & Caller & rest & Hrev & Hsk & HC & Hcalls & _ & Hk).
  exists (rev rest), Caller, (rev sk). split_and!; try done.
  - rewrite <- (rev_involutive (C0 :: es)), Hrev, rev_app_distr. cbn [rev].
    by rewrite <- app_assoc.
  - apply Forall_forall. intros C HCin.
    apply (proj1 (Forall_forall _ _) Hsk).
    apply list_elem_of_In. apply list_elem_of_In, in_rev in HCin. done.
  - intros Hv. unfold toIntType. rewrite wrap_small by lia. lia.
Qed.

(** A parameter that resolves to itself never yields a value. This is
    the state of a recursive call that passes its own parameter on: inside
    the callee the innermost call of the defining symbol is the recursive
    call, whose argument is the parameter node itself, so evaluating the
    parameter looks it up again without end. *)
Theorem param_self_reference_diverges (fuel wait : nat) (EvalStack : list Node)
    (P : Node) (st : Interpreter) :
  getParam P EvalStack = Done P →
  eval fuel wait EvalStack P st = Diverging.
Proof.
  intros Hself.
  assert (getType P = OpParam) as HT.
  { unfold InterpEval.getParam in Hself. destruct EvalStack; [done|].
    unfold isa in Hself. by case_bool_decide. }
  induction fuel as [|fuel IH]; [done|].
  cbn [InterpEval.eval]. rewrite HT, Hself. cbn [obind]. exact IH.
Qed.

(** *** What evaluation leaves alone *)

Lemma sameStreams_refl st : sameStreams st st.
Proof. done. Qed.

Lemma sameStreams_trans st1 st2 st3 :
  sameStreams st1 st2 → sameStreams st2 st3 → sameStreams st1 st3.
Proof. intros (?&?&?) (?&?&?). unfold sameStreams. split_and!; congruence. Qed.

Lemma read_sameStreams wait Nd st v st' :
  read wait Nd st = Done (v, st') → sameStreams st st'.
Proof.
  intros Hrun.
  destruct (InterpMore.read_frame _ _ _ _ _ _ _ Hrun) as (_ & _ & _ & _ & _ & ? & ? & ?).
  by split_and!.
Qed.

Lemma awaitHeadroom_sameStreams wait st st0 :
  awaitHeadroom fillPage wait st = Done st0 → sameStreams st st0.
Proof.
  intros Hw. destruct (awaitHeadroom_Done _ _ _ _ Hw) as [_ [q ->]]. by destruct st.
Qed.

Lemma write_sameStreams fuel : ∀ wait EvalStack Value Nd st v st',
  write fuel wait EvalStack Value Nd st = Done (v, st') → sameStreams st st'.
Proof.
  induction fuel as [|fuel IH]; intros wait EvalStack Value Nd st v st'; [done|].
  cbn [InterpEval.write].
  destruct (awaitHeadroom fillPage wait st) as [st0| |] eqn:Hw; cbn [obind]; try done.
  apply awaitHeadroom_sameStreams in Hw. intros Hrun.
  apply (sameStreams_trans _ st0); [done|]. clear Hw.
  destruct (getType Nd); try done;
    try (injection Hrun as <- <-; apply sameStreams_refl);
    try (destruct (writeFormat _ _ _ _ _) as [out wpos];
         injection Hrun as <- <-; by destruct st0).
  - (* OpParam *)
    destruct (getParam Nd EvalStack) as [P| |]; cbn [obind] in Hrun; try done.
    destruct (write fuel wait EvalStack Value P st0) as [[x st1]| |] eqn:E;
      cbn [obind] in Hrun; try done.
    injection Hrun as <- <-. by eapply IH.
  - (* OpOpcode *)
    destruct (getWriteCase Nd Value) as [[Case SelShift] CaseMask].
    destruct (getKid Nd 0) as [k0| |]; cbn [obind] in Hrun; try done.
    destruct (dispatchAgain _ _ st0) as [[x st1]| |] eqn:E;
      cbn [obind] in Hrun; try done.
    by apply dispatchAgain_not_Done in E.
  - (* OpUint8NoArgs *)
    destruct (writeUint8 _ _ _ _) as [out wpos].
    injection Hrun as <- <-. by destruct st0.
Qed.

(** A write through an [Opcode] node does not return: the Opcode frame is
    dispatched again each time its selector has been written. *)
Lemma write_Opcode_not_Done fuel wait EvalStack Value Nd st r :
  getType Nd = OpOpcode →
  write fuel wait EvalStack Value Nd st ≠ Done r.
Proof.
  intros HT. destruct fuel as [|fuel]; [done|]. cbn [InterpEval.write].
  destruct (awaitHeadroom fillPage wait st) as [st0| |]; cbn [obind]; try done.
  rewrite HT.
  destruct (getWriteCase Nd Value) as [[Case SelShift] CaseMask].
  destruct (getKid Nd 0) as [k0| |]; cbn [obind]; try done.
  destruct (dispatchAgain _ _ st0) as [[x st1]| |] eqn:E; cbn [obind]; try done.
  by apply dispatchAgain_not_Done in E.
Qed.

Lemma backPatchBlockSize_sameStreams BlockStart Size st :
  sameStreams st (backPatchBlockSize BlockStart Size st).
Proof.
  unfold backPatchBlockSize. cbv zeta.
  destruct (negb (MinimizeBlockSize st)).
  - destruct (writeFixedBlockSize _ _ _ _) as [out ?]. by destruct st.
  - destruct (writeVarintBlockSize _ _ _ _) as [out bs].
    destruct (negb (_ =? 0)).
    + destruct (moveBlock _ _ _ _ _) as [out' bs']. by destruct st.
    + by destruct st.
Qed.

Lemma decompressBlock_sameStreams
    (ev : Node → Interpreter → Outcome (IntType * Interpreter)) wait Code st st' :
  (∀ Nd st v st', ev Nd st = Done (v, st') → sameStreams st st') →
  decompressBlock ev atByteEob wait (Some Code) st = Done st' →
  sameStreams st st'.
Proof.
  intros Hev. unfold decompressBlock.
  destruct (readBlockSize _ _ _) as [OldSize rpos].
  destruct (writeFixedBlockSize _ _ _ _) as [out wpos]. cbv zeta.
  cbn [evalOrCopy].
  match goal with |- context [ev Code ?s] => destruct (ev Code s) as [[x st1]| |] eqn:E end;
    cbn [obind]; try done.
  apply Hev in E. intros [= <-].
  match goal with |- context [backPatchBlockSize ?a ?b st1] =>
    pose proof (backPatchBlockSize_sameStreams a b st1) as HB;
    destruct (backPatchBlockSize a b st1) as [q2 r2 R2 o2 w2 W2 l2 m2]
  end.
  destruct HB as (?&?&?), E as (?&?&?). destruct st; simpl in *.
  unfold sameStreams. simpl. split_and!; congruence.
Qed.

Lemma eval_sameStreams fuel : ∀ wait EvalStack Nd st v st',
  eval fuel wait EvalStack Nd st = Done (v, st') → sameStreams st st'.
Proof.
  induction fuel as [|fuel IH]; intros wait EvalStack Nd st v st'; [done|].
  cbn [InterpEval.eval].
  set (evalKids :=
         fix evalKids (Kids : list Node) (st : Interpreter) : Outcome Interpreter :=
           match Kids with
           | [] => Done st
           | Kid :: Kids =>
               do '(_, st) <~ eval fuel wait EvalStack Kid st ;;
               evalKids Kids st
           end).
  assert (∀ Kids s s', evalKids Kids s = Done s' → sameStreams s s') as Hkids.
  { induction Kids as [|k Kids IHk]; intros s s'; cbn [evalKids].
    - by intros [= <-].
    - destruct (eval fuel wait EvalStack k s) as [[x s1]| |] eqn:E;
        cbn [obind]; try done.
      intros Hrest. apply IH in E. apply IHk in Hrest.
      by eapply sameStreams_trans. }
  destruct (getType Nd) eqn:ET; try done;
    try (destruct (read wait Nd st) as [[x st1]| |] eqn:E; cbn [obind]; try done;
         apply read_sameStreams in E; intros Hw; apply write_sameStreams in Hw;
         by eapply sameStreams_trans);
    try (by intros [= _ <-]).
  - (* OpParam *)
    destruct (getParam Nd EvalStack) as [P| |]; cbn [obind]; try done. apply IH.
  - (* OpDefine *)
    destruct (getKid Nd 2) as [k| |]; cbn [obind]; try done. apply IH.
  - (* OpLastRead *)
    apply read_sameStreams.
  - (* OpSwitch *)
    destruct (getKid Nd 0) as [k0| |]; cbn [obind]; try done.
    destruct (eval fuel wait EvalStack k0 st) as [[sel st1]| |] eqn:E0;
      cbn [obind]; try done.
    apply IH in E0. destruct (getCase Nd sel) as [Case|].
    + destruct (eval fuel wait EvalStack Case st1) as [[? st2]| |] eqn:E1;
        cbn [obind]; try done.
      apply IH in E1. intros [= _ <-]. by eapply sameStreams_trans.
    + destruct (getKid Nd 1) as [k1| |]; cbn [obind]; try done.
      destruct (eval fuel wait EvalStack k1 st1) as [[? st2]| |] eqn:E1;
        cbn [obind]; try done.
      apply IH in E1. intros [= _ <-]. by eapply sameStreams_trans.
  - (* OpCase *)
    destruct (getKid Nd 1) as [k1| |]; cbn [obind]; try done.
    destruct (eval fuel wait EvalStack k1 st) as [[? st1]| |] eqn:E1;
      cbn [obind]; try done.
    apply IH in E1. by intros [= _ <-].
  - (* OpBlock *)
    destruct (getKid Nd 0) as [k0| |]; cbn [obind]; try done.
    destruct (decompressBlock _ _ _ _ _) as [st1| |] eqn:E; cbn [obind]; try done.
    apply decompressBlock_sameStreams in E; [|apply IH]. by intros [= _ <-].
  - (* OpAnd *)
    destruct (getKid Nd 0) as [k0| |]; cbn [obind]; try done.
    destruct (eval fuel wait EvalStack k0 st) as [[v0 st1]| |] eqn:E0;
      cbn [obind]; try done.
    apply IH in E0. destruct (negb (v0 =? 0)); [|by intros [= _ <-]].
    destruct (getKid Nd 1) as [k1| |]; cbn [obind]; try done.
    destruct (eval fuel wait EvalStack k1 st1) as [[v1 st2]| |] eqn:E1;
      cbn [obind]; try done.
    apply IH in E1. intros [= _ <-]. by eapply sameStreams_trans.
  - (* OpNot *)
    destruct (getKid Nd 0) as [k0| |]; cbn [obind]; try done.
    destruct (eval fuel wait EvalStack k0 st) as [[v0 st1]| |] eqn:E0;
      cbn [obind]; try done.
    apply IH in E0. by intros [= _ <-].
  - (* OpOr *)
    destruct (getKid Nd 0) as [k0| |]; cbn [obind]; try done.
    destruct (eval fuel wait EvalStack k0 st) as [[v0 st1]| |] eqn:E0;
      cbn [obind]; try done.
    apply IH in E0. destruct (negb (v0 =? 0)); [by intros [= _ <-]|].
    destruct (getKid Nd 1) as [k1| |]; cbn [obind]; try done.
    destruct (eval fuel wait EvalStack k1 st1) as [[v1 st2]| |] eqn:E1;
      cbn [obind]; try done.
    apply IH in E1. intros [= _ <-]. by eapply sameStreams_trans.
  - (* OpStream *)
    destruct (evalStream Nd st) as [x| |]; cbn [obind]; try done.
    by intros [= _ <-].
  - (* OpEval *)
    destruct (getKid Nd 0) as [k0| |]; cbn [obind]; try done.
    destruct (assert (isa OpSymbol k0)) as [[]| |]; cbn [obind]; try done.
    destruct (getDefineDefinition k0) as [Defn|]; cbn [obind]; try done.
    destruct (assert (isa OpDefine Defn)) as [[]| |]; cbn [obind]; try done.
    destruct (getKid Defn 1) as [np| |]; cbn [obind]; try done.
    destruct (assert (isa OpParam np)) as [[]| |]; cbn [obind]; try done.
    destruct (negb _); [done|]. apply IH.
  - (* OpIfThen *)
    destruct (getKid Nd 0) as [k0| |]; cbn [obind]; try done.
    destruct (eval fuel wait EvalStack k0 st) as [[v0 st1]| |] eqn:E0;
      cbn [obind]; try done.
    apply IH in E0. destruct (negb (v0 =? 0)); [|by intros [= _ <-]].
    destruct (getKid Nd 1) as [k1| |]; cbn [obind]; try done.
    destruct (eval fuel wait EvalStack k1 st1) as [[v1 st2]| |] eqn:E1;
      cbn [obind]; try done.
    apply IH in E1. intros [= _ <-]. by eapply sameStreams_trans.
  - (* OpIfThenElse *)
    destruct (getKid Nd 0) as [k0| |]; cbn [obind]; try done.
    destruct (eval fuel wait EvalStack k0 st) as [[v0 st1]| |] eqn:E0;
      cbn [obind]; try done.
    apply IH in E0.
    destruct (getKid Nd _) as [k| |]; cbn [obind]; try done.
    destruct (eval fuel wait EvalStack k st1) as [[v1 st2]| |] eqn:E1;
      cbn [obind]; try done.
    apply IH in E1. intros [= _ <-]. by eapply sameStreams_trans.
  - (* OpI32Const *) apply read_sameStreams.
  - (* OpI64Const *) apply read_sameStreams.
  - (* OpU8Const *) apply read_sameStreams.
  - (* OpU32Const *) apply read_sameStreams.
  - (* OpU64Const *) apply read_sameStreams.
  - (* OpLoop *)
    destruct (getKid Nd 0) as [k0| |]; cbn [obind]; try done.
    destruct (eval fuel wait EvalStack k0 st) as [[Count st1]| |] eqn:E0;
      cbn [obind]; try done.
    apply IH in E0.
    match goal with |- obind (?lp ?cnt st1) _ = _ → _ =>
      assert (∀ m s s', lp m s = Done s' → sameStreams s s') as Hloop;
        [|destruct (lp cnt st1) as [st2| |] eqn:E1]
    end; cbn [obind]; try done.
    { induction m as [|n IHn]; intros s s'; [by intros [= <-]|].
      destruct (evalKids (tail (getKids Nd)) s) as [s1| |] eqn:Ek;
        cbn [obind]; try done.
      intros Hrest. apply Hkids in Ek. apply IHn in Hrest.
      by eapply sameStreams_trans. }
    apply Hloop in E1. intros [= _ <-]. by eapply sameStreams_trans.
  - (* OpLoopUnbounded *)
    destruct (atReadBitEob _ _); [by intros [= _ <-]|].
    destruct (evalKids (getKids Nd) st) as [st1| |] eqn:Ek; cbn [obind]; try done.
    apply Hkids in Ek. intros Hrest. apply IH in Hrest.
    by eapply sameStreams_trans.
  - (* OpWrite *)
    destruct (getKid Nd 0) as [k0| |]; cbn [obind]; try done.
    destruct (read wait k0 st) as [[x st1]| |] eqn:E; cbn [obind]; try done.
    apply read_sameStreams in E.
    destruct (getKid Nd 1) as [k1| |]; cbn [obind]; try done.
    intros Hw. apply write_sameStreams in Hw. by eapply sameStreams_trans.
  - (* OpPeek *) apply read_sameStreams.
  - (* OpRead *)
    destruct (getKid Nd 1) as [k1| |]; cbn [obind]; try done.
    apply read_sameStreams.
  - (* OpSequence *)
    destruct (evalKids (getKids Nd) st) as [st1| |] eqn:Ek; cbn [obind]; try done.
    apply Hkids in Ek. by intros [= _ <-].
Qed.

(** Evaluation never replaces the reader or the writer object and never
    changes [MinimizeBlockSize]: whatever expression is evaluated, with
    whatever calls, blocks, loops and writes inside, a run that returns
    leaves the three as they were. *)
Theorem eval_keeps_streams (fuel wait : nat) (EvalStack : list Node)
    (Nd : Node) (st : Interpreter) (v : IntType) (st' : Interpreter) :
  eval fuel wait EvalStack Nd st = Done (v, st') →
  sameStreams st st'.
Proof. apply eval_sameStreams. Qed.

End EvaluatorProps.

(** *** Scenarios *)

Lemma eval_map_opcode_fatal_witness :
  eval (λ q, q) true (λ _, None) sampleCases atEob atEob (λ _ _, true)
       recordFormat (λ _ _, (None, 0, 0)) 1 0 []
       (opcodeNode uint8Node) (sampleInterpreter [66] true false)
  = Aborted.
Proof.
  apply (eval_map_opcode_fatal (λ q, q) true (λ _, None) sampleCases atEob atEob
           (λ _ _, true) recordFormat (λ _ _, (None, 0, 0)) 0 0 []
           (opcodeNode uint8Node) (sampleInterpreter [66] true false)).
  - by right.
  - reflexivity.
Defined.

Lemma eval_control_returns_zero_witness :
  ∃ v st',
    eval (λ q, q) true (λ _, None) sampleCases atEob atEob (λ _ _, true)
         recordFormat (λ _ _, (None, 0, 0)) 2 0 []
         (mkNode OpSequence NoPayload [constNode 5])
         (sampleInterpreter [66] true false)
    = Done (v, st') ∧ v = 0.
Proof.
  eexists _, _. split; [reflexivity|].
  eapply (eval_control_returns_zero (λ q, q) true (λ _, None) sampleCases atEob
            atEob (λ _ _, true) recordFormat (λ _ _, (None, 0, 0)) 2 0 []
            (mkNode OpSequence NoPayload [constNode 5])
            (sampleInterpreter [66] true false)).
  - reflexivity.
  - reflexivity.
Defined.

Lemma readOpcode_match_clears_witness :
  ∃ st',
    readOpcode (λ q, q) true (λ _, None) sampleCases
               (eval (λ q, q) true (λ _, None) sampleCases atEob atEob
                     (λ _ _, true) recordFormat (λ _ _, (None, 0, 0)) 2 0 [])
               0 0 (opcodeNode uint8Node) 0 0 (sampleInterpreter [66] true false)
    = Done (0, st') ∧ LastReadValue st' = 0.
Proof.
  eexists. split; [reflexivity|].
  eapply (readOpcode_match_clears (λ q, q) true (λ _, None) sampleCases atEob
            atEob (λ _ _, true) recordFormat (λ _ _, (None, 0, 0)) 2 0 0 []
            (opcodeNode uint8Node) 0 0 (sampleInterpreter [66] true false)).
  - reflexivity.
  - reflexivity.
  - reflexivity.
  - reflexivity.
Defined.

(** Prefix 1, an eight-bit selector, continuation byte 0x42, no case for
    0x142: the opcode is 0x142. *)
Lemma readOpcode_assembly_witness :
  readOpcode (λ q, q) true (λ _, None) sampleCases
             (eval (λ q, q) true (λ _, None) sampleCases atEob atEob
                   (λ _ _, true) recordFormat (λ _ _, (None, 0, 0)) 2 0 [])
             0 0 (opcodeNode uint8Node) 1 1 (sampleInterpreter [66] true false)
  = Done (322, setLastReadValue
                 (setReadPos (sampleInterpreter [66] true false)
                             (mkReadCursor 1 [])) 322).
Proof.
  destruct (readOpcode_assembly (λ q, q) true (λ _, None) sampleCases atEob
              atEob (λ _ _, true) recordFormat (λ _ _, (None, 0, 0)) 2 0 0 []
              (opcodeNode uint8Node) uint8Node 1 1
              (sampleInterpreter [66] true false)
              (setLastReadValue
                 (setReadPos (sampleInterpreter [66] true false)
                             (mkReadCursor 1 [])) 66)
              8 eq_refl eq_refl eq_refl) as (_ & Hok & _); [lia|].
  destruct Hok as (_ & Hret & _); [lia|].
  exact (Hret eq_refl).
Defined.

(** C6 as claimed does not hold: with prefix 1, an eight-bit selector and
    the continuation byte 0x42 the assembled value is [(1 << 8) | 0x42],
    that is 0x142; the opcode has a case for it, and [readOpcode] returns 0
    and leaves 0 in [LastReadValue]. *)
Lemma readOpcode_match_drops_assembled_value :
  let st := sampleInterpreter [66] true false in
  Z.lor (Z.shiftl 1 8) 66 = 322 ∧
  readOpcodeAssemble (λ q, q) true (λ _, None) 0 0 (opcodeNode uint8Node) 1 1 st
    = Done (setLastReadValue (setReadPos st (mkReadCursor 1 [])) 322) ∧
  (do r <~ readOpcode (λ q, q) true (λ _, None) prefixedCases
             (eval (λ q, q) true (λ _, None) prefixedCases atEob atEob
                   (λ _ _, true) recordFormat (λ _ _, (None, 0, 0)) 2 0 [])
             0 0 (opcodeNode uint8Node) 1 1 st ;;
   Done (r.1, LastReadValue r.2)) = Done (0, 0).
Proof. cbv zeta. split_and!; reflexivity. Qed.

Lemma getParam_innermost_witness :
  getParam (λ _ _, true) (paramNode 1)
           [evalNode symbolNode [constNode 1; constNode 2];
            evalNode symbolNode []]
  = Done (constNode 2) ∧
  ∃ outer Caller inner,
    [evalNode symbolNode [constNode 1; constNode 2]; evalNode symbolNode []]
      = outer ++ Caller :: inner ∧
    getKids Caller !! 2%nat = Some (constNode 2).
Proof.
  split; [reflexivity|].
  destruct (getParam_innermost (λ _ _, true) (paramNode 1)
              [evalNode symbolNode [constNode 1; constNode 2];
               evalNode symbolNode []] (constNode 2) eq_refl)
    as (outer & Caller & inner & Hes & _ & _ & _ & Hk & _).
  exists outer, Caller, inner. split; [exact Hes | exact Hk].
Defined.

Lemma param_self_reference_diverges_witness :
  eval (λ q, q) true (λ _, None) sampleCases atEob atEob (λ _ _, true)
       recordFormat (λ _ _, (None, 0, 0)) 50 0
       [evalNode symbolNode [paramNode 0]] (paramNode 0)
       (sampleInterpreter [66] true false)
  = Diverging.
Proof.
  apply (param_self_reference_diverges (λ q, q) true (λ _, None) sampleCases
           atEob atEob (λ _ _, true) recordFormat (λ _ _, (None, 0, 0)) 50 0
           [evalNode symbolNode [paramNode 0]] (paramNode 0)
           (sampleInterpreter [66] true false)).
  reflexivity.
Defined.

Lemma eval_keeps_streams_witness :
  ∃ v st',
    eval (λ q, q) true (λ _, None) sampleCases atEob atEob (λ _ _, true)
         recordFormat (λ _ _, (None, 0, 0)) 2 0 []
         (mkNode OpWrite NoPayload [uint8Node; uint8Node])
         (sampleInterpreter [66] true false)
    = Done (v, st') ∧
    OutputQueue st' = mkQueue [66] false ∧
    sameStreams (sampleInterpreter [66] true false) st'.
Proof.
  eexists _, _. split_and!; [reflexivity | reflexivity |].
  eapply (eval_keeps_streams (λ q, q) true (λ _, None) sampleCases atEob atEob
            (λ _ _, true) recordFormat (λ _ _, (None, 0, 0)) 2 0 []
            (mkNode OpWrite NoPayload [uint8Node; uint8Node])
            (sampleInterpreter [66] true false)).
  reflexivity.
Defined.

End InterpEvalProps.

(** ** Writing an algorithm out *)

Module FlattenAstProps.
Import FlattenAst.

(** Induction on a node with the property known for all its kids. *)
Lemma Node_kids_ind (P : Node → Prop) :
  (∀ ty pl kids, Forall P kids → P (mkNode ty pl kids)) → ∀ Nd, P Nd.
Proof.
  intros H. fix F 1. intros [ty pl kids]. apply H.
  induction kids as [|k kids IH]; constructor; [apply F | apply IH].
Qed.

(** *** Calls and nesting *)

Lemma nesting_app a : ∀ b d,
  nesting d (a ++ b) = nesting d a ≫= λ d', nesting d' b.
Proof.
  induction a as [|c a IH]; intros b d; [done|].
  destruct c as [| |[]| |]; cbn [app nesting]; try apply IH.
  destruct d; [done | apply IH].
Qed.

Lemma balanced_nil : balanced [].
Proof. by intros d. Qed.

Lemma balanced_app a b : balanced a → balanced b → balanced (a ++ b).
Proof. intros Ha Hb d. rewrite nesting_app, Ha. apply Hb. Qed.

Lemma neutral_balanced out : neutral out → balanced out.
Proof.
  intros Hn d. induction Hn as [|c out Hc _ IH]; [done|].
  destruct c as [| |[]| |]; done.
Qed.

Lemma neutral_freezes out : neutral out → freezes out = 0%nat.
Proof.
  intros Hn. induction Hn as [|c out Hc _ IH]; [done|].
  destruct c as [| |[]| |]; done.
Qed.

Lemma balanced_bracket out :
  balanced out → balanced (WriteAction true :: out ++ [WriteAction false]).
Proof.
  intros Hb d. cbn [nesting]. rewrite nesting_app, Hb. done.
Qed.

Lemma freezes_app a b : freezes (a ++ b) = (freezes a + freezes b)%nat.
Proof.
  induction a as [|c a IH]; [done|]. destruct c; simpl; by rewrite ?IH.
Qed.

Lemma neutral_app a b : neutral a → neutral b → neutral (a ++ b).
Proof. apply Forall_app_2. Qed.

(** *** What the parts emit *)

Lemma neutral_nil : neutral [].
Proof. constructor. Qed.

Ltac emits_nothing :=
  exists []; rewrite ?app_nil_r;
  split_and!; first [done | apply neutral_nil | apply balanced_nil].

Lemma call_Writer c s : Writer (call c s) = Writer s ++ [c].
Proof. done. Qed.

Lemma writeHeaderValues_emits Kids : ∀ s,
  ∃ out, Writer (writeHeaderValues Kids s) = Writer s ++ out ∧ neutral out ∧
         FreezeEofOnDestruct (writeHeaderValues Kids s) = FreezeEofOnDestruct s ∧
         (HasErrors s = true → HasErrors (writeHeaderValues Kids s) = true).
Proof.
  induction Kids as [|Kid Kids IH]; intros s.
  - emits_nothing.
  - cbn [writeHeaderValues].
    destruct (getType Kid); try emits_nothing.
    destruct (getPayload Kid) as [|d f v [fmt|]| |]; try emits_nothing.
    destruct (IH (call (WriteHeaderValue v fmt) s)) as (out & HW & Hn & HF & HE).
    exists (WriteHeaderValue v fmt :: out). split_and!.
    + rewrite HW. cbn [call Writer]. by rewrite <- app_assoc.
    + by constructor.
    + by rewrite HF.
    + intros H. by apply HE.
Qed.

Lemma fold_call_emits (f : Z → WriterCall) (l : list Z) :
  (∀ c, neutral [f c]) → ∀ s,
  ∃ out, Writer (fold_left (λ s c, call (f c) s) l s) = Writer s ++ out ∧
         neutral out ∧
         FreezeEofOnDestruct (fold_left (λ s c, call (f c) s) l s)
           = FreezeEofOnDestruct s ∧
         HasErrors (fold_left (λ s c, call (f c) s) l s) = HasErrors s ∧
         SectionSymtab (fold_left (λ s c, call (f c) s) l s) = SectionSymtab s.
Proof.
  intros Hf. induction l as [|c l IH]; intros s.
  - emits_nothing.
  - cbn [fold_left]. destruct (IH (call (f c) s)) as (out & HW & Hn & HF & HE & HS).
    exists (f c :: out). split_and!; try done.
    + rewrite HW. cbn [call Writer]. by rewrite <- app_assoc.
    + apply (neutral_app [f c]); [apply Hf | done].
Qed.

Lemma writeSymbols_emits sg Vector : ∀ s,
  ∃ out, Writer (writeSymbols sg Vector s) = Writer s ++ out ∧ neutral out ∧
         FreezeEofOnDestruct (writeSymbols sg Vector s) = FreezeEofOnDestruct s ∧
         HasErrors (writeSymbols sg Vector s) = HasErrors s.
Proof.
  induction Vector as [|SymName Vector IH]; intros s.
  - emits_nothing.
  - cbn [writeSymbols].
    destruct (fold_call_emits (λ c, Write (charValue sg c)) SymName
                (λ c, ltac:(by repeat constructor))
                (call (Write (Z.of_nat (length SymName))) s))
      as (o1 & HW1 & Hn1 & HF1 & HE1 & _).
    destruct (IH (fold_left (λ s c, call (Write (charValue sg c)) s) SymName
                    (call (Write (Z.of_nat (length SymName))) s)))
      as (o2 & HW2 & Hn2 & HF2 & HE2).
    exists (Write (Z.of_nat (length SymName)) :: o1 ++ o2). split_and!.
    + rewrite HW2, HW1. cbn [call Writer]. by rewrite <- !app_assoc.
    + constructor; [done | by apply neutral_app].
    + by rewrite HF2, HF1.
    + by rewrite HE2, HE1.
Qed.

(** The name made of the bytes 65 and 200: where [char] is signed the
    second character is written as [2^64 - 56], where it is unsigned as
    200. *)
Example writeSymbols_char_sign :
  Writer (writeSymbols true [[65; 200]] newFlattenAst)
    = [Write 2; Write 65; Write 18446744073709551560] ∧
  Writer (writeSymbols false [[65; 200]] newFlattenAst)
    = [Write 2; Write 65; Write 200].
Proof. split; reflexivity. Qed.

Section FlattenProps.

Variable opcode : NodeType → Z.
Variable installSection : Node → list (list Z).
Variable getSymbolIndex : list (list Z) → Node → Z.
Variable charIsSigned : bool.

Local Abbreviation flattenNode :=
  (FlattenAst.flattenNode opcode installSection getSymbolIndex charIsSigned).
Local Abbreviation flatten :=
  (FlattenAst.flatten opcode installSection getSymbolIndex charIsSigned).

(** What one run of [flattenNode] does to the state. *)
Lemma flattenNode_emits : ∀ Nd s s',
  flattenNode Nd s = Done s' →
  ∃ out, Writer s' = Writer s ++ out ∧
         balanced out ∧ freezes out = 0%nat ∧
         FreezeEofOnDestruct s' = FreezeEofOnDestruct s ∧
         (HasErrors s = true → HasErrors s' = true ∧ out = []).
Proof.
  induction Nd as [ty pl kids IH] using Node_kids_ind. intros s s'.
  cbn [FlattenAst.flattenNode].
  destruct (HasErrors s) eqn:HE.
  { intros [= <-]. emits_nothing. }
  set (flattenKids :=
         fix flattenKids (Kids : list Node) (s : FlattenAst) : Outcome FlattenAst :=
           match Kids with
           | [] => Done s
           | Kid :: Kids => do s <~ flattenNode Kid s ;; flattenKids Kids s
           end).
  assert (∀ Kids, Forall (λ Nd, ∀ s s', flattenNode Nd s = Done s' →
                     ∃ out, Writer s' = Writer s ++ out ∧ balanced out ∧
                            freezes out = 0%nat ∧
                            FreezeEofOnDestruct s' = FreezeEofOnDestruct s ∧
                            (HasErrors s = true → HasErrors s' = true ∧ out = []))
                         Kids →
          ∀ s s', flattenKids Kids s = Done s' →
          ∃ out, Writer s' = Writer s ++ out ∧ balanced out ∧
                 freezes out = 0%nat ∧
                 FreezeEofOnDestruct s' = FreezeEofOnDestruct s) as Hkids.
  { induction 1 as [|k Kids Hk _ IHk]; intros s0 s0'; cbn [flattenKids].
    - intros [= <-]. emits_nothing.
    - destruct (flattenNode k s0) as [s1| |] eqn:E; cbn [obind]; try done.
      intros Hrest. destruct (Hk _ _ E) as (o1 & HW1 & Hb1 & Hf1 & HF1 & _).
      destruct (IHk _ _ Hrest) as (o2 & HW2 & Hb2 & Hf2 & HF2).
      exists (o1 ++ o2). split_and!.
      + by rewrite HW2, HW1, <- app_assoc.
      + by apply balanced_app.
      + by rewrite freezes_app, Hf1, Hf2.
      + by rewrite HF2, HF1. }
  specialize (Hkids kids IH). clear IH.
  assert (∀ c, neutral [c] → ∀ s0 s0',
            (do s1 <~ flattenKids kids s0 ;; Done (call c s1)) = Done s0' →
            ∃ out, Writer s0' = Writer s0 ++ out ∧ balanced out ∧
                   freezes out = 0%nat ∧
                   FreezeEofOnDestruct s0' = FreezeEofOnDestruct s0) as Hfixed.
  { intros c Hc s0 s0'.
    destruct (flattenKids kids s0) as [s1| |] eqn:E; cbn [obind]; try done.
    intros [= <-]. destruct (Hkids _ _ E) as (o & HW & Hb & Hf & HF).
    exists (o ++ [c]). split_and!.
    - cbn [call Writer]. by rewrite HW, <- app_assoc.
    - apply balanced_app; [done | by apply neutral_balanced].
    - rewrite freezes_app, Hf. by rewrite (neutral_freezes [c]).
    - done. }
  assert (∀ c, neutral [Write c]) as Hw by (intros c; by repeat constructor).
  assert (∀ c1 c2 s0 s0',
            (do s1 <~ flattenKids kids s0 ;;
             Done (call (Write c2) (call (Write c1) s1))) = Done s0' →
            ∃ out, Writer s0' = Writer s0 ++ out ∧ balanced out ∧
                   freezes out = 0%nat ∧
                   FreezeEofOnDestruct s0' = FreezeEofOnDestruct s0) as Hvar.
  { intros c1 c2 s0 s0'.
    destruct (flattenKids kids s0) as [s1| |] eqn:E; cbn [obind]; try done.
    intros [= <-]. destruct (Hkids _ _ E) as (o & HW & Hb & Hf & HF).
    exists (o ++ [Write c1; Write c2]). split_and!.
    - cbn [call Writer]. by rewrite HW, <- !app_assoc.
    - apply balanced_app; [done | by apply neutral_balanced; repeat constructor].
    - by rewrite freezes_app, Hf.
    - done. }
  destruct ty;
    try (intros Hrun; destruct (Hfixed _ (Hw _) _ _ Hrun) as (o & ? & ? & ? & ?);
         exists o; by split_and!);
    try (intros Hrun; destruct (Hvar _ _ _ _ Hrun) as (o & ? & ? & ? & ?);
         exists o; by split_and!).
  - (* NO_SUCH_NODETYPE *)
    intros [= <-]. emits_nothing.
  - (* OpUnknownSection *)
    intros [= <-]. emits_nothing.
  - (* OpInteger *)
    destruct pl as [|d f v fmt| |]; try done. destruct d; intros [= <-].
    + exists [Write (opcode (OpInteger tag)); Write 0]. cbn [call Writer].
      rewrite <- app_assoc.
      split_and!; [done | by apply neutral_balanced; repeat constructor
                  | done | done | done].
    + exists [Write (opcode (OpInteger tag)); Write (f + 1); Write v].
      cbn [call Writer]. rewrite <- !app_assoc.
      split_and!; [done | by apply neutral_balanced; repeat constructor
                  | done | done | done].
  - (* OpFile *)
    intros Hrun. destruct (Hkids _ _ Hrun) as (o & ? & ? & ? & ?).
    exists o. by split_and!.
  - (* OpFileHeader *)
    intros [= <-].
    destruct (writeHeaderValues_emits kids s) as (o & HW & Hn & HF & _).
    exists o. split_and!;
      [done | by apply neutral_balanced | by apply neutral_freezes | done | done].
  - (* OpStream *)
    destruct pl as [| |e|]; try done. intros [= <-].
    exists [Write (opcode OpStream); Write e]. cbn [call Writer].
    rewrite <- app_assoc.
    split_and!; [done | by apply neutral_balanced; repeat constructor
                | done | done | done].
  - (* OpSection *)
    cbv zeta.
    match goal with |- obind (flattenKids kids ?s0) _ = _ → _ =>
      destruct (flattenKids kids s0) as [s1| |] eqn:E; cbn [obind]; try done;
        destruct (writeSymbols_emits charIsSigned
                    (installSection (mkNode OpSection pl kids))
                    (call (Write (Z.of_nat (length (installSection
                                                      (mkNode OpSection pl kids)))))
                          (setSectionSymtab (call (WriteAction true) s)
                             (installSection (mkNode OpSection pl kids)))))
          as (o1 & HW1 & Hn1 & HF1 & _)
    end.
    cbn [SectionSymtab setSectionSymtab] in E.
    destruct (Hkids _ _ E) as (o2 & HW2 & Hb2 & Hf2 & HF2).
    intros [= <-].
    exists (WriteAction true
            :: (Write (Z.of_nat (length (installSection (mkNode OpSection pl kids))))
                :: o1 ++ o2 ++ [WriteUint8 (wrap 8 (opcode OpSection))])
            ++ [WriteAction false]).
    split_and!.
    + cbn [call Writer setSectionSymtab]. rewrite HW2, HW1.
      cbn [call Writer setSectionSymtab]. rewrite <- !app_assoc.
      cbn [app]. by rewrite <- !app_assoc.
    + apply balanced_bracket. apply (balanced_app [_]);
        [by apply neutral_balanced; repeat constructor|].
      apply balanced_app; [by apply neutral_balanced|].
      apply balanced_app; [done | by apply neutral_balanced; repeat constructor].
    + cbn [freezes app]. rewrite !freezes_app, (neutral_freezes o1), Hf2 by done.
      done.
    + cbn [call FreezeEofOnDestruct setSectionSymtab]. rewrite HF2, HF1. done.
    + done.
  - (* OpSymbol *)
    intros [= <-].
    exists [Write (opcode OpSymbol);
            Write (getSymbolIndex (SectionSymtab s) (mkNode OpSymbol pl kids))].
    cbn [call Writer SectionSymtab]. rewrite <- app_assoc.
    split_and!; [done | by apply neutral_balanced; repeat constructor
                | done | done | done].
Qed.

(** The block actions in the output of [flattenNode] are well bracketed,
    whatever the tree and whether or not an error is reported on the way:
    every section writes its block enter before and its block exit after
    its contents, also when a node inside cannot be written. The calls are
    appended to those made before, none of them freezes the output, and
    once an error has been reported nothing is written at all. *)
Theorem flatten_blocks_balanced (Nd : Node) (s s' : FlattenAst) :
  flattenNode Nd s = Done s' →
  ∃ out, Writer s' = Writer s ++ out ∧
         balanced out ∧ freezes out = 0%nat ∧
         (HasErrors s = true → HasErrors s' = true ∧ out = []).
Proof.
  intros Hrun. destruct (flattenNode_emits _ _ _ Hrun) as (out & ? & ? & ? & _ & ?).
  by exists out.
Qed.

(** The output is frozen exactly once: [flatten] on a new object appends
    the calls for the tree and then the one freeze, its result tells
    whether an error was reported, and the destructor that runs afterwards
    does not freeze again. *)
Theorem flatten_freezes_once (Root : Node) (s : FlattenAst) (ok : bool)
    (s' : FlattenAst) :
  FreezeEofOnDestruct s = true →
  flatten Root s = Done (ok, s') →
  ∃ out, Writer s' = Writer s ++ out ++ [WriteFreezeEof] ∧
         freezes out = 0%nat ∧ balanced out ∧
         ok = negb (HasErrors s') ∧
         destroy s' = s'.
Proof.
  intros HF. unfold FlattenAst.flatten.
  destruct (flattenNode Root s) as [s1| |] eqn:E; cbn [obind]; try done.
  destruct (flattenNode_emits _ _ _ E) as (out & HW & Hb & Hf & HF1 & _).
  unfold freezeOutput. rewrite HF1, HF. cbn [negb].
  intros [= <- <-]. exists out. split_and!; try done.
  cbn [call Writer]. by rewrite HW, <- app_assoc.
Qed.

End FlattenProps.

Lemma flatten_blocks_balanced_witness :
  ∃ s', flattenNode sampleOpcode (λ _, [[1; 2]]) (λ _ _, 0) true sampleSection
                    newFlattenAst = Done s' ∧
        HasErrors s' = true ∧
        Writer s' = [WriteAction true; Write 1; Write 2; Write 1; Write 2;
                     Write 5; Write 2; Write 42; Write 7; Write 2;
                     WriteUint8 44; WriteAction false] ∧
        balanced (Writer s').
Proof.
  eexists. split_and!; [reflexivity | reflexivity | reflexivity |].
  destruct (flatten_blocks_balanced sampleOpcode (λ _, [[1; 2]]) (λ _ _, 0) true
              sampleSection newFlattenAst _ eq_refl) as (out & HW & Hb & _).
  cbn [Writer newFlattenAst app] in HW. rewrite <- HW in Hb. exact Hb.
Defined.

Lemma flatten_freezes_once_witness :
  ∃ s' out, flatten sampleOpcode (λ _, [[1; 2]]) (λ _ _, 0) true sampleSection
                    newFlattenAst = Done (false, s') ∧
            Writer s' = out ++ [WriteFreezeEof] ∧ freezes out = 0%nat ∧
            destroy s' = s'.
Proof.
  destruct (flatten_freezes_once sampleOpcode (λ _, [[1; 2]]) (λ _ _, 0) true
              sampleSection newFlattenAst false _ eq_refl eq_refl)
    as (out & HW & Hf & _ & _ & Hd).
  eexists _, out. split_and!; [reflexivity | exact HW | exact Hf | exact Hd].
Defined.

End FlattenAstProps.
